(** * react_epidemic: the simulation engine of [src/App.tsx]

    A shallow embedding of the particle simulation (region layout, spatial
    hash, per-tick motion, quarantine life cycle, transmission, progression
    and the reproduction estimate), followed by the properties established
    about it.

    Conventions of the embedding.
    - A JavaScript [number] holding a coordinate, a velocity or a slider
      value is an exact rational in lowest terms ([Qc]); counters and
      region indices, which the program only ever assigns integers, are
      [Z]; array indices are [nat].  Arithmetic is exact, with one
      exception: in the transmission attempt of the infection logic (the
      distance test and the threshold of the success draw), whose outcome
      decides whether a particle is exposed, every operation is rounded
      to binary64 as the engine rounds it ([round64]).
    - [Math.random], [Math.sqrt], [Math.cos], [Math.sin] and [Math.PI] are
      supplied by a [Host]; the k-th call of [Math.random()] returns
      [Math_random k], and the number of calls made so far is threaded
      through the code as the state of the monad [M].
    - A [throw] that escapes [animate] is the result [None]. *)

From Stdlib Require Import Ascii String QArith Qcanon Qround Qabs Qpower Lqa.
From Stdlib Require Import DecimalString DecimalZ.
From stdpp Require Import gmap strings list fin_maps.

Local Open Scope Qc_scope.

(** ** Numbers *)

Definition ofZ (z : Z) : Qc := Q2Qc (inject_Z z).

(** [Math.floor] *)
Definition floor (a : Qc) : Z := Qfloor a.

(** [Math.abs] *)
Definition Qcabs (a : Qc) : Qc := Q2Qc (Qabs a).

(** [a < b] *)
Definition Qcltb (a b : Qc) : bool := negb (Qle_bool b a).

(** [Math.min], [Math.max] *)
Definition Qcmin (a b : Qc) : Qc := if Qcltb b a then b else a.
Definition Qcmax (a b : Qc) : Qc := if Qcltb a b then b else a.

(** [a || d] on numbers: [d] when [a] is zero. *)
Definition orElse (a d : Qc) : Qc := if bool_decide (a = 0) then d else a.

(** *** Rounding to binary64

    The value of an arithmetic operation on JavaScript numbers is the exact
    result rounded to the nearest binary64 number, ties to even.  Overflow
    to [Infinity] is not modelled: the magnitudes stay below 2^1024. *)

(** [Math.floor(Math.log2(q))] for a positive [q]. *)
Definition ilog2 (q : Q) : Z :=
  let e0 := (Z.log2 (Qnum q) - Z.log2 (Zpos (Qden q)))%Z in
  if Qle_bool (2 ^ e0) q then e0 else (e0 - 1)%Z.

(** The nearest integer, ties to even. *)
Definition rne (q : Q) : Z :=
  let f := Qfloor q in
  match ((q - inject_Z f) ?= (1 # 2))%Q with
  | Lt => f
  | Gt => (f + 1)%Z
  | Eq => if Z.even f then f else (f + 1)%Z
  end.

(** The spacing of the binary64 numbers around a positive [q]: 52 bits
    below its leading bit, and 2^-1074 in the subnormal range. *)
Definition ulp (q : Q) : Q := (2 ^ (Z.max (ilog2 q) (-1022) - 52))%Q.

Definition roundPos (q : Q) : Q := (inject_Z (rne (q / ulp q)) * ulp q)%Q.

Definition round64 (a : Qc) : Qc :=
  match (this a ?= 0)%Q with
  | Eq => 0
  | Gt => Q2Qc (roundPos a)
  | Lt => - Q2Qc (roundPos (- this a))
  end.

(** The host functions the program calls. *)
Record Host : Type := mkHost {
  Math_random : N → Qc;
  Math_sqrt : Qc → Qc;
  Math_cos : Qc → Qc;
  Math_sin : Qc → Qc;
  Math_PI : Qc
}.

(** ** Layout constants (lines 10-30) *)

Definition WIDTH : Qc := Q2Qc 800.
Definition HEIGHT : Qc := Q2Qc 740.
Definition COMMUNITY_PADDING : Qc := Q2Qc 40.
Definition COMMUNITY_ROWS : Z := 3.
Definition COMMUNITY_COLS : Z := 3.
Definition NORMAL_COMMUNITIES : Z := COMMUNITY_ROWS * COMMUNITY_COLS - 1.
Definition QUARANTINE_COMMUNITY_IDX : Z := 8.
Definition TOTAL_COMMUNITIES : Z := 9.
Definition PARTICLE_COUNT : nat := 500.
Definition PARTICLES_PER_COMMUNITY : Z :=
  Z.of_nat PARTICLE_COUNT / NORMAL_COMMUNITIES.
Definition TRAVEL_PROB : Qc := Q2Qc 0.0002.
Definition VISITING_DURATION : Z := 150.
Definition CENTRE_VISIT_PROB : Qc := Q2Qc 0.001.
Definition CENTRE_RADIUS : Qc := Q2Qc 15.

Definition innerW : Qc := WIDTH - COMMUNITY_PADDING * (ofZ COMMUNITY_COLS + 1).
Definition innerH : Qc := HEIGHT - COMMUNITY_PADDING * (ofZ COMMUNITY_ROWS + 1).
Definition COMMUNITY_WIDTH : Qc := innerW / ofZ COMMUNITY_COLS.
Definition COMMUNITY_HEIGHT : Qc := innerH / ofZ COMMUNITY_ROWS.

(** ** Region layout: [getCommunityBounds] (lines 73-104) *)

Record Bounds : Type := mkBounds {
  minX : Qc; maxX : Qc; minY : Qc; maxY : Qc; centerX : Qc; centerY : Qc
}.

(** [idx % COMMUNITY_COLS] is JavaScript's truncated remainder ([Z.rem]);
    [Math.floor(idx / COMMUNITY_COLS)] is the floored quotient ([Z.div]). *)
Definition getCommunityBounds (idx : Z) : option Bounds :=
  if (idx =? QUARANTINE_COMMUNITY_IDX)%Z then
    let minX := WIDTH - COMMUNITY_PADDING - COMMUNITY_WIDTH in
    let maxX := WIDTH - COMMUNITY_PADDING in
    let minY := HEIGHT - COMMUNITY_PADDING - COMMUNITY_HEIGHT in
    let maxY := HEIGHT - COMMUNITY_PADDING in
    Some (mkBounds minX maxX minY maxY ((minX + maxX) / 2) ((minY + maxY) / 2))
  else
    let row := (idx / COMMUNITY_COLS)%Z in
    let col := Z.rem idx COMMUNITY_COLS in
    if (7 <? idx)%Z then None
    else
      let minX := COMMUNITY_PADDING
                  + ofZ col * (COMMUNITY_WIDTH + COMMUNITY_PADDING) in
      let maxX := minX + COMMUNITY_WIDTH in
      let minY := COMMUNITY_PADDING
                  + ofZ row * (COMMUNITY_HEIGHT + COMMUNITY_PADDING) in
      let maxY := minY + COMMUNITY_HEIGHT in
      Some (mkBounds minX maxX minY maxY ((minX + maxX) / 2) ((minY + maxY) / 2)).

(** ** Particles (lines 45-71) *)

Inductive Status : Type := healthy | exposed | infected | recovered | dead.

Global Instance Status_eq_dec : EqDecision Status.
Proof. solve_decision. Defined.

Definition Status_eqb (a b : Status) : bool := bool_decide (a = b).

Record EntryAnim : Type := mkEntryAnim { e_animating : bool; tx : Qc; ty : Qc }.
Record HomeAnim : Type := mkHomeAnim { h_animating : bool; hx : Qc; hy : Qc }.

(** The optional [quarantined] flag is only ever assigned [true] or [false]
    and only ever tested for truthiness, so it is a [bool]. *)
Record Particle : Type := mkParticle {
  x : Qc;
  y : Qc;
  vx : Qc;
  vy : Qc;
  status : Status;
  timeInfected : Z;
  willDie : option bool;
  infectionCount : option Z;
  homeCommunity : Z;
  currentCommunity : Z;
  isVisiting : bool;
  isTravelling : bool;
  travelTargetX : option Qc;
  travelTargetY : option Qc;
  travellingBack : bool;
  visitTimeLeft : option Z;
  atCentre : bool;
  centreTimeLeft : Z;
  quarantined : bool;
  timeSinceInfected : option Z;
  quarantineEntryAnim : option EntryAnim;
  releasedFromQuarantine : bool;
  quarantineEligible : option bool;
  goingHomeAnim : option HomeAnim
}.

(** Field assignment [p.f = v], one setter per field the simulation writes. *)
Definition set_x (v : Qc) (p : Particle) : Particle :=
  mkParticle v (y p) (vx p) (vy p) (status p) (timeInfected p) (willDie p)
    (infectionCount p) (homeCommunity p) (currentCommunity p) (isVisiting p)
    (isTravelling p) (travelTargetX p) (travelTargetY p) (travellingBack p)
    (visitTimeLeft p) (atCentre p) (centreTimeLeft p) (quarantined p)
    (timeSinceInfected p) (quarantineEntryAnim p) (releasedFromQuarantine p)
    (quarantineEligible p) (goingHomeAnim p).
Definition set_y (v : Qc) (p : Particle) : Particle :=
  mkParticle (x p) v (vx p) (vy p) (status p) (timeInfected p) (willDie p)
    (infectionCount p) (homeCommunity p) (currentCommunity p) (isVisiting p)
    (isTravelling p) (travelTargetX p) (travelTargetY p) (travellingBack p)
    (visitTimeLeft p) (atCentre p) (centreTimeLeft p) (quarantined p)
    (timeSinceInfected p) (quarantineEntryAnim p) (releasedFromQuarantine p)
    (quarantineEligible p) (goingHomeAnim p).
Definition set_vx (v : Qc) (p : Particle) : Particle :=
  mkParticle (x p) (y p) v (vy p) (status p) (timeInfected p) (willDie p)
    (infectionCount p) (homeCommunity p) (currentCommunity p) (isVisiting p)
    (isTravelling p) (travelTargetX p) (travelTargetY p) (travellingBack p)
    (visitTimeLeft p) (atCentre p) (centreTimeLeft p) (quarantined p)
    (timeSinceInfected p) (quarantineEntryAnim p) (releasedFromQuarantine p)
    (quarantineEligible p) (goingHomeAnim p).
Definition set_vy (v : Qc) (p : Particle) : Particle :=
  mkParticle (x p) (y p) (vx p) v (status p) (timeInfected p) (willDie p)
    (infectionCount p) (homeCommunity p) (currentCommunity p) (isVisiting p)
    (isTravelling p) (travelTargetX p) (travelTargetY p) (travellingBack p)
    (visitTimeLeft p) (atCentre p) (centreTimeLeft p) (quarantined p)
    (timeSinceInfected p) (quarantineEntryAnim p) (releasedFromQuarantine p)
    (quarantineEligible p) (goingHomeAnim p).
Definition set_status (v : Status) (p : Particle) : Particle :=
  mkParticle (x p) (y p) (vx p) (vy p) v (timeInfected p) (willDie p)
    (infectionCount p) (homeCommunity p) (currentCommunity p) (isVisiting p)
    (isTravelling p) (travelTargetX p) (travelTargetY p) (travellingBack p)
    (visitTimeLeft p) (atCentre p) (centreTimeLeft p) (quarantined p)
    (timeSinceInfected p) (quarantineEntryAnim p) (releasedFromQuarantine p)
    (quarantineEligible p) (goingHomeAnim p).
Definition set_timeInfected (v : Z) (p : Particle) : Particle :=
  mkParticle (x p) (y p) (vx p) (vy p) (status p) v (willDie p)
    (infectionCount p) (homeCommunity p) (currentCommunity p) (isVisiting p)
    (isTravelling p) (travelTargetX p) (travelTargetY p) (travellingBack p)
    (visitTimeLeft p) (atCentre p) (centreTimeLeft p) (quarantined p)
    (timeSinceInfected p) (quarantineEntryAnim p) (releasedFromQuarantine p)
    (quarantineEligible p) (goingHomeAnim p).
Definition set_willDie (v : option bool) (p : Particle) : Particle :=
  mkParticle (x p) (y p) (vx p) (vy p) (status p) (timeInfected p) v
    (infectionCount p) (homeCommunity p) (currentCommunity p) (isVisiting p)
    (isTravelling p) (travelTargetX p) (travelTargetY p) (travellingBack p)
    (visitTimeLeft p) (atCentre p) (centreTimeLeft p) (quarantined p)
    (timeSinceInfected p) (quarantineEntryAnim p) (releasedFromQuarantine p)
    (quarantineEligible p) (goingHomeAnim p).
Definition set_infectionCount (v : option Z) (p : Particle) : Particle :=
  mkParticle (x p) (y p) (vx p) (vy p) (status p) (timeInfected p) (willDie p)
    v (homeCommunity p) (currentCommunity p) (isVisiting p) (isTravelling p)
    (travelTargetX p) (travelTargetY p) (travellingBack p) (visitTimeLeft p)
    (atCentre p) (centreTimeLeft p) (quarantined p) (timeSinceInfected p)
    (quarantineEntryAnim p) (releasedFromQuarantine p) (quarantineEligible p)
    (goingHomeAnim p).
Definition set_currentCommunity (v : Z) (p : Particle) : Particle :=
  mkParticle (x p) (y p) (vx p) (vy p) (status p) (timeInfected p) (willDie p)
    (infectionCount p) (homeCommunity p) v (isVisiting p) (isTravelling p)
    (travelTargetX p) (travelTargetY p) (travellingBack p) (visitTimeLeft p)
    (atCentre p) (centreTimeLeft p) (quarantined p) (timeSinceInfected p)
    (quarantineEntryAnim p) (releasedFromQuarantine p) (quarantineEligible p)
    (goingHomeAnim p).
Definition set_isVisiting (v : bool) (p : Particle) : Particle :=
  mkParticle (x p) (y p) (vx p) (vy p) (status p) (timeInfected p) (willDie p)
    (infectionCount p) (homeCommunity p) (currentCommunity p) v (isTravelling
    p) (travelTargetX p) (travelTargetY p) (travellingBack p) (visitTimeLeft
    p) (atCentre p) (centreTimeLeft p) (quarantined p) (timeSinceInfected p)
    (quarantineEntryAnim p) (releasedFromQuarantine p) (quarantineEligible p)
    (goingHomeAnim p).
Definition set_isTravelling (v : bool) (p : Particle) : Particle :=
  mkParticle (x p) (y p) (vx p) (vy p) (status p) (timeInfected p) (willDie p)
    (infectionCount p) (homeCommunity p) (currentCommunity p) (isVisiting p) v
    (travelTargetX p) (travelTargetY p) (travellingBack p) (visitTimeLeft p)
    (atCentre p) (centreTimeLeft p) (quarantined p) (timeSinceInfected p)
    (quarantineEntryAnim p) (releasedFromQuarantine p) (quarantineEligible p)
    (goingHomeAnim p).
Definition set_travelTargetX (v : option Qc) (p : Particle) : Particle :=
  mkParticle (x p) (y p) (vx p) (vy p) (status p) (timeInfected p) (willDie p)
    (infectionCount p) (homeCommunity p) (currentCommunity p) (isVisiting p)
    (isTravelling p) v (travelTargetY p) (travellingBack p) (visitTimeLeft p)
    (atCentre p) (centreTimeLeft p) (quarantined p) (timeSinceInfected p)
    (quarantineEntryAnim p) (releasedFromQuarantine p) (quarantineEligible p)
    (goingHomeAnim p).
Definition set_travelTargetY (v : option Qc) (p : Particle) : Particle :=
  mkParticle (x p) (y p) (vx p) (vy p) (status p) (timeInfected p) (willDie p)
    (infectionCount p) (homeCommunity p) (currentCommunity p) (isVisiting p)
    (isTravelling p) (travelTargetX p) v (travellingBack p) (visitTimeLeft p)
    (atCentre p) (centreTimeLeft p) (quarantined p) (timeSinceInfected p)
    (quarantineEntryAnim p) (releasedFromQuarantine p) (quarantineEligible p)
    (goingHomeAnim p).
Definition set_travellingBack (v : bool) (p : Particle) : Particle :=
  mkParticle (x p) (y p) (vx p) (vy p) (status p) (timeInfected p) (willDie p)
    (infectionCount p) (homeCommunity p) (currentCommunity p) (isVisiting p)
    (isTravelling p) (travelTargetX p) (travelTargetY p) v (visitTimeLeft p)
    (atCentre p) (centreTimeLeft p) (quarantined p) (timeSinceInfected p)
    (quarantineEntryAnim p) (releasedFromQuarantine p) (quarantineEligible p)
    (goingHomeAnim p).
Definition set_visitTimeLeft (v : option Z) (p : Particle) : Particle :=
  mkParticle (x p) (y p) (vx p) (vy p) (status p) (timeInfected p) (willDie p)
    (infectionCount p) (homeCommunity p) (currentCommunity p) (isVisiting p)
    (isTravelling p) (travelTargetX p) (travelTargetY p) (travellingBack p) v
    (atCentre p) (centreTimeLeft p) (quarantined p) (timeSinceInfected p)
    (quarantineEntryAnim p) (releasedFromQuarantine p) (quarantineEligible p)
    (goingHomeAnim p).
Definition set_atCentre (v : bool) (p : Particle) : Particle :=
  mkParticle (x p) (y p) (vx p) (vy p) (status p) (timeInfected p) (willDie p)
    (infectionCount p) (homeCommunity p) (currentCommunity p) (isVisiting p)
    (isTravelling p) (travelTargetX p) (travelTargetY p) (travellingBack p)
    (visitTimeLeft p) v (centreTimeLeft p) (quarantined p) (timeSinceInfected
    p) (quarantineEntryAnim p) (releasedFromQuarantine p) (quarantineEligible
    p) (goingHomeAnim p).
Definition set_centreTimeLeft (v : Z) (p : Particle) : Particle :=
  mkParticle (x p) (y p) (vx p) (vy p) (status p) (timeInfected p) (willDie p)
    (infectionCount p) (homeCommunity p) (currentCommunity p) (isVisiting p)
    (isTravelling p) (travelTargetX p) (travelTargetY p) (travellingBack p)
    (visitTimeLeft p) (atCentre p) v (quarantined p) (timeSinceInfected p)
    (quarantineEntryAnim p) (releasedFromQuarantine p) (quarantineEligible p)
    (goingHomeAnim p).
Definition set_quarantined (v : bool) (p : Particle) : Particle :=
  mkParticle (x p) (y p) (vx p) (vy p) (status p) (timeInfected p) (willDie p)
    (infectionCount p) (homeCommunity p) (currentCommunity p) (isVisiting p)
    (isTravelling p) (travelTargetX p) (travelTargetY p) (travellingBack p)
    (visitTimeLeft p) (atCentre p) (centreTimeLeft p) v (timeSinceInfected p)
    (quarantineEntryAnim p) (releasedFromQuarantine p) (quarantineEligible p)
    (goingHomeAnim p).
Definition set_timeSinceInfected (v : option Z) (p : Particle) : Particle :=
  mkParticle (x p) (y p) (vx p) (vy p) (status p) (timeInfected p) (willDie p)
    (infectionCount p) (homeCommunity p) (currentCommunity p) (isVisiting p)
    (isTravelling p) (travelTargetX p) (travelTargetY p) (travellingBack p)
    (visitTimeLeft p) (atCentre p) (centreTimeLeft p) (quarantined p) v
    (quarantineEntryAnim p) (releasedFromQuarantine p) (quarantineEligible p)
    (goingHomeAnim p).
Definition set_quarantineEntryAnim (v : option EntryAnim) (p : Particle) : Particle :=
  mkParticle (x p) (y p) (vx p) (vy p) (status p) (timeInfected p) (willDie p)
    (infectionCount p) (homeCommunity p) (currentCommunity p) (isVisiting p)
    (isTravelling p) (travelTargetX p) (travelTargetY p) (travellingBack p)
    (visitTimeLeft p) (atCentre p) (centreTimeLeft p) (quarantined p)
    (timeSinceInfected p) v (releasedFromQuarantine p) (quarantineEligible p)
    (goingHomeAnim p).
Definition set_quarantineEligible (v : option bool) (p : Particle) : Particle :=
  mkParticle (x p) (y p) (vx p) (vy p) (status p) (timeInfected p) (willDie p)
    (infectionCount p) (homeCommunity p) (currentCommunity p) (isVisiting p)
    (isTravelling p) (travelTargetX p) (travelTargetY p) (travellingBack p)
    (visitTimeLeft p) (atCentre p) (centreTimeLeft p) (quarantined p)
    (timeSinceInfected p) (quarantineEntryAnim p) (releasedFromQuarantine p) v
    (goingHomeAnim p).
Definition set_goingHomeAnim (v : option HomeAnim) (p : Particle) : Particle :=
  mkParticle (x p) (y p) (vx p) (vy p) (status p) (timeInfected p) (willDie p)
    (infectionCount p) (homeCommunity p) (currentCommunity p) (isVisiting p)
    (isTravelling p) (travelTargetX p) (travelTargetY p) (travellingBack p)
    (visitTimeLeft p) (atCentre p) (centreTimeLeft p) (quarantined p)
    (timeSinceInfected p) (quarantineEntryAnim p) (releasedFromQuarantine p)
    (quarantineEligible p) v.

(** ** The monad of the simulation code

    The state is the number of [Math.random()] calls made so far; [None] is
    an exception escaping the frame callback. *)

Definition M (A : Type) : Type := N → option (A * N).

Global Instance M_ret : MRet M := λ A a n, Some (a, n).
Global Instance M_bind : MBind M := λ A B f m n,
  match m n with
  | Some (a, n') => f a n'
  | None => None
  end.

Definition throw {A : Type} : M A := λ _, None.

Definition liftOpt {A : Type} (o : option A) : M A :=
  match o with
  | Some a => mret a
  | None => throw
  end.

Fixpoint mapM {A B : Type} (f : A → M B) (l : list A) : M (list B) :=
  match l with
  | [] => mret []
  | a :: l' => b ← f a; bs ← mapM f l'; mret (b :: bs)
  end.

(** [for (const a of l) s = body(a, s)] *)
Fixpoint forM {A S : Type} (body : A → S → M S) (l : list A) (s : S) : M S :=
  match l with
  | [] => mret s
  | a :: l' => s' ← body a s; forM body l' s'
  end.

(** ** Simulation configuration (the sliders, lines 166-175) *)

Record Config : Type := mkConfig {
  initialInfected : nat;
  incubationPeriod : Qc;
  infectionRadius : Qc;
  infectionProbability : Qc;
  recoveryTime : Qc;
  deathRate : Qc;
  speed : nat;
  quarantineMode : bool;
  quarantineEffectiveness : Qc
}.

(** ** Spatial hash (lines 106-130) *)

(** The value of [Math.floor(a / b)]: an integer, or what JavaScript yields
    when the divisor is zero. *)
Inductive CellCoord : Type :=
  | Fin (z : Z)
  | PosInfinity
  | NegInfinity
  | NaN.

Definition floorDiv (a b : Qc) : CellCoord :=
  if bool_decide (b = 0) then
    if bool_decide (a = 0) then NaN else if Qcltb 0 a then PosInfinity else NegInfinity
  else Fin (floor (a / b)).

(** Decimal rendering of an integer inside a template literal. *)
Definition fmtZ (z : Z) : string := NilZero.string_of_int (Z.to_int z).

Definition fmtCoord (c : CellCoord) : string :=
  match c with
  | Fin z => fmtZ z
  | PosInfinity => "Infinity"
  | NegInfinity => "-Infinity"
  | NaN => "NaN"
  end.

(** [`${community}:${cx},${cy}`] *)
Definition cellKey (community : Z) (cx cy : CellCoord) : string :=
  fmtZ community +:+ ":" +:+ fmtCoord cx +:+ "," +:+ fmtCoord cy.

Definition keyOf (cellSize : Qc) (p : Particle) : string :=
  cellKey (currentCommunity p) (floorDiv (x p) cellSize) (floorDiv (y p) cellSize).

(** One iteration of the loop of [makeSpatialHash]. *)
Definition hashInsert (ps : list Particle) (cellSize : Qc) (onlyCommunity : option Z)
    (hash : gmap string (list nat)) (i : nat) : gmap string (list nat) :=
  match ps !! i with
  | None => hash
  | Some p =>
      if match onlyCommunity with
         | Some c => negb (currentCommunity p =? c)%Z
         | None => false
         end
      then hash
      else if Status_eqb (status p) dead then hash
      else
        let key := keyOf cellSize p in
        <[key := default [] (hash !! key) ++ [i]]> hash
  end.

Definition makeSpatialHash (ps : list Particle) (cellSize : Qc)
    (onlyCommunity : option Z) : gmap string (list nat) :=
  foldl (hashInsert ps cellSize onlyCommunity) ∅ (seq 0 (length ps)).

(** [lo, lo+1, ..., hi] *)
Definition Zrange (lo hi : Z) : list Z :=
  (λ k, lo + Z.of_nat k)%Z <$> seq 0 (Z.to_nat (hi - lo + 1)).

(** [getNearbyCellCoords], for a non-zero [cellSize] (the caller passes
    [infectionRadius + 3] with a radius slider of at least 5). *)
Definition getNearbyCellCoords (px py radius cellSize : Qc) : list (Z * Z) :=
  let minX := floor ((px - radius) / cellSize) in
  let maxX := floor ((px + radius) / cellSize) in
  let minY := floor ((py - radius) / cellSize) in
  let maxY := floor ((py + radius) / cellSize) in
  cx ← Zrange minX maxX; cy ← Zrange minY maxY; [(cx, cy)].

(** ** One frame of the simulation ([animate], lines 208-653) *)

Section Simulation.

Context (host : Host).

Definition random : M Qc := λ n, Some (Math_random host n, N.succ n).

(** [rand(min, max)]; the defaults are [-1] and [1]. *)
Definition rand (lo hi : Qc) : M Qc := r ← random; mret (r * (hi - lo) + lo).
Definition rand0 : M Qc := rand (-1) 1.

(** [CENTRE_DURATION()] *)
Definition CENTRE_DURATION : M Z :=
  r ← random; mret (floor (r * Q2Qc (65 - 20 + 1)) + 20)%Z.

Definition isNone {A : Type} (o : option A) : bool :=
  match o with
  | Some _ => false
  | None => true
  end.

(** *** Quarantine life cycle (lines 216-283) *)

Definition startQuarantineEntry (p : Particle) : M Particle :=
  target ← liftOpt (getCommunityBounds QUARANTINE_COMMUNITY_IDX);
  tx ← rand (minX target + Q2Qc 20) (maxX target - Q2Qc 20);
  ty ← rand (minY target + Q2Qc 20) (maxY target - Q2Qc 20);
  mret (set_travellingBack false (set_centreTimeLeft 0 (set_atCentre false
         (set_isVisiting false (set_isTravelling false (set_vy 0 (set_vx 0
           (set_quarantineEntryAnim (Some (mkEntryAnim true tx ty)) p)))))))).

Definition quarantineLogic (cfg : Config) (p : Particle) : M Particle :=
  if negb (quarantineMode cfg) then mret p
  else
    let p :=
      if Status_eqb (status p) infected && isNone (timeSinceInfected p)
      then set_timeSinceInfected (Some 0%Z) p else p in
    p ← (if Status_eqb (status p) infected && isNone (quarantineEligible p)
         then r ← random;
              mret (set_quarantineEligible
                      (Some (Qcltb (r * Q2Qc 100) (quarantineEffectiveness cfg))) p)
         else mret p);
    p ← (if Status_eqb (status p) infected
            && bool_decide (quarantineEligible p = Some true)
            && negb (quarantined p)
            && negb (currentCommunity p =? QUARANTINE_COMMUNITY_IDX)%Z
         then
           let t := (default 0 (timeSinceInfected p) + 1)%Z in
           let p := set_timeSinceInfected (Some t) p in
           if (5 <=? t)%Z && negb (quarantined p) && isNone (quarantineEntryAnim p)
           then startQuarantineEntry p
           else mret p
         else mret p);
    let p :=
      if quarantined p && Status_eqb (status p) infected
      then set_timeSinceInfected (Some (default 0 (timeSinceInfected p) + 1)%Z) p
      else p in
    if quarantined p
       && (Status_eqb (status p) recovered || Status_eqb (status p) dead)
       && isNone (goingHomeAnim p)
    then
      target ← liftOpt (getCommunityBounds (homeCommunity p));
      r1 ← rand (Q2Qc (-30)) (Q2Qc 30);
      r2 ← rand (Q2Qc (-30)) (Q2Qc 30);
      mret (set_goingHomeAnim
              (Some (mkHomeAnim true (centerX target + r1) (centerY target + r2))) p)
    else mret p.

(** *** Transit animations (lines 285-336) *)

(** [p.quarantineEntryAnim?.animating] *)
Definition entryAnimating (p : Particle) : option EntryAnim :=
  match quarantineEntryAnim p with
  | Some a => if e_animating a then Some a else None
  | None => None
  end.

Definition homeAnimating (p : Particle) : option HomeAnim :=
  match goingHomeAnim p with
  | Some a => if h_animating a then Some a else None
  | None => None
  end.

Definition animateEntry (a : EntryAnim) (p : Particle) : Particle :=
  let dx := tx a - x p in
  let dy := ty a - y p in
  let dist := Math_sqrt host (dx * dx + dy * dy) in
  let step := Qcmin dist (Q2Qc 10) in
  if Qcltb dist (Q2Qc 3) then
    set_vy 0 (set_vx 0 (set_quarantineEntryAnim None
      (set_currentCommunity QUARANTINE_COMMUNITY_IDX (set_quarantined true
        (set_y (ty a) (set_x (tx a) p))))))
  else
    let p := set_x (x p + dx / dist * step) p in
    set_y (y p + dy / dist * step) p.

Definition animateGoingHome (a : HomeAnim) (p : Particle) : M Particle :=
  let dx := hx a - x p in
  let dy := hy a - y p in
  let dist := Math_sqrt host (dx * dx + dy * dy) in
  let step := Qcmin dist (Q2Qc 10) in
  if Qcltb dist (Q2Qc 3) then
    let p := set_goingHomeAnim None (set_timeSinceInfected None
               (set_quarantineEligible None (set_quarantined false
                 (set_currentCommunity (homeCommunity p)
                   (set_y (hy a) (set_x (hx a) p)))))) in
    r1 ← rand0;
    let p := set_vx (r1 * Q2Qc 0.3) p in
    r2 ← rand0;
    let p := set_vy (r2 * Q2Qc 0.3) p in
    mret (set_travellingBack false (set_isTravelling false
            (set_isVisiting false (set_atCentre false p))))
  else
    let p := set_x (x p + dx / dist * step) p in
    mret (set_y (y p + dy / dist * step) p).

(** *** Normal community behaviour (lines 345-486) *)

(** Coarse bounce at the region boundary (lines 349-362). *)
Definition bounce (b : Bounds) (p : Particle) : Particle :=
  let p :=
    if Qcltb (x p) (minX b)
    then set_vx (orElse (Qcabs (vx p)) (Q2Qc 0.15)) (set_x (minX b + Q2Qc 1.2) p)
    else if Qcltb (maxX b) (x p)
    then set_vx (orElse (- Qcabs (vx p)) (Q2Qc (-0.15))) (set_x (maxX b - Q2Qc 1.2) p)
    else p in
  if Qcltb (y p) (minY b)
  then set_vy (orElse (Qcabs (vy p)) (Q2Qc 0.15)) (set_y (minY b + Q2Qc 1.2) p)
  else if Qcltb (maxY b) (y p)
  then set_vy (orElse (- Qcabs (vy p)) (Q2Qc (-0.15))) (set_y (maxY b - Q2Qc 1.2) p)
  else p.

(** Entering the region centre (lines 365-380).  [Math.random()] is called
    exactly when [p.atCentre] is false. *)
Definition centreEntry (b : Bounds) (p : Particle) : M Particle :=
  if atCentre p then mret p
  else
    r ← random;
    if Qcltb r CENTRE_VISIT_PROB
       && negb (isTravelling p)
       && negb (isVisiting p)
       && negb (currentCommunity p =? QUARANTINE_COMMUNITY_IDX)%Z
    then
      let p := set_atCentre true p in
      d ← CENTRE_DURATION;
      e ← random;
      let p := set_centreTimeLeft (d + floor (e * Q2Qc 40))%Z p in
      angle ← rand 0 (2 * Math_PI host);
      r ← rand 0 (CENTRE_RADIUS - Q2Qc 5);
      mret (set_vy 0 (set_vx 0
              (set_y (centerY b + r * Math_sin host angle)
                 (set_x (centerX b + r * Math_cos host angle) p))))
    else mret p.

(** Wiggling at the centre (lines 381-394). *)
Definition centreMotion (b : Bounds) (p : Particle) : M Particle :=
  let p := set_centreTimeLeft (centreTimeLeft p - 1)%Z p in
  angle ← rand 0 (2 * Math_PI host);
  let p := set_x (x p + Math_cos host angle * Q2Qc 0.9) p in
  let p := set_y (y p + Math_sin host angle * Q2Qc 0.9) p in
  if (centreTimeLeft p <=? 0)%Z then
    let p := set_atCentre false p in
    let p := set_x (Qcmin (Qcmax (minX b + Q2Qc 5) (x p)) (maxX b - Q2Qc 5)) p in
    let p := set_y (Qcmin (Qcmax (minY b + Q2Qc 5) (y p)) (maxY b - Q2Qc 5)) p in
    r1 ← rand0;
    let p := set_vx (r1 * Q2Qc 0.3) p in
    r2 ← rand0;
    mret (set_vy (r2 * Q2Qc 0.3) p)
  else mret p.

(** Straight-line travel between regions (lines 397-430). *)
Definition travelStep (p : Particle) : M Particle :=
  '(tX, tY, p) ←
    match travelTargetX p, travelTargetY p with
    | Some a, Some b => mret (a, b, p)
    | _, _ =>
        dest ← liftOpt (getCommunityBounds
                  (if travellingBack p then homeCommunity p else currentCommunity p));
        r1 ← rand (Q2Qc (-30)) (Q2Qc 30);
        r2 ← rand (Q2Qc (-30)) (Q2Qc 30);
        let a := centerX dest + r1 in
        let b := centerY dest + r2 in
        mret (a, b, set_travelTargetY (Some b) (set_travelTargetX (Some a) p))
    end;
  let dx := tX - x p in
  let dy := tY - y p in
  let dist := Math_sqrt host (dx * dx + dy * dy) in
  let step := Qcmin (Q2Qc 8) dist in
  if Qcltb dist (Q2Qc 3) then
    let p := set_isTravelling false (set_y tY (set_x tX p)) in
    r1 ← rand0;
    let p := set_vx (r1 * Q2Qc 0.4) p in
    r2 ← rand0;
    let p := set_vy (r2 * Q2Qc 0.4) p in
    let p := set_travelTargetY None (set_travelTargetX None p) in
    if travellingBack p then
      mret (set_currentCommunity (homeCommunity p)
              (set_isVisiting false (set_travellingBack false p)))
    else
      let p := set_isVisiting true p in
      e ← random;
      mret (set_visitTimeLeft (Some (VISITING_DURATION + floor (e * Q2Qc 40))%Z) p)
  else
    let p := set_x (x p + dx / dist * step) p in
    mret (set_y (y p + dy / dist * step) p).

(** Brownian motion with the tighter edge correction (lines 432-452). *)
Definition brownian (b : Bounds) (p : Particle) : M Particle :=
  r1 ← rand (Q2Qc (-0.02)) (Q2Qc 0.02);
  let p := set_vx (vx p + r1) p in
  r2 ← rand (Q2Qc (-0.02)) (Q2Qc 0.02);
  let p := set_vy (vy p + r2) p in
  let p := set_x (x p + vx p) p in
  let p := set_y (y p + vy p) p in
  let p :=
    if Qcltb (x p) (minX b + 1)
    then set_vx (orElse (Qcabs (vx p)) (Q2Qc 0.08)) (set_x (minX b + Q2Qc 1.1) p)
    else if Qcltb (maxX b - 1) (x p)
    then set_vx (orElse (- Qcabs (vx p)) (Q2Qc (-0.08))) (set_x (maxX b - Q2Qc 1.1) p)
    else p in
  mret (if Qcltb (y p) (minY b + 1)
        then set_vy (orElse (Qcabs (vy p)) (Q2Qc 0.08)) (set_y (minY b + Q2Qc 1.1) p)
        else if Qcltb (maxY b - 1) (y p)
        then set_vy (orElse (- Qcabs (vy p)) (Q2Qc (-0.08))) (set_y (maxY b - Q2Qc 1.1) p)
        else p).

(** The regions a particle may travel to (lines 461-464). *)
Definition available (p : Particle) : list Z :=
  filter (λ ci, ci ≠ homeCommunity p) (Zrange 0 (NORMAL_COMMUNITIES - 1)).

(** Spontaneous travel (lines 455-474).  [Math.random()] lies in [0, 1), so
    the drawn index is inside [available]; an index outside it (region
    [undefined]) is not modelled and reported as [None]. *)
Definition randomTravel (p : Particle) : M Particle :=
  if negb (isVisiting p) && negb (isTravelling p) then
    r ← random;
    if Qcltb r TRAVEL_PROB
       && negb (currentCommunity p =? QUARANTINE_COMMUNITY_IDX)%Z
    then
      let av := available p in
      if (0 <? length av)%nat then
        e ← random;
        let k := floor (e * ofZ (Z.of_nat (length av))) in
        newCom ← liftOpt (if (k <? 0)%Z then None else av !! Z.to_nat k);
        mret (set_travelTargetY None (set_travelTargetX None
                (set_visitTimeLeft (Some 0%Z) (set_travellingBack false
                   (set_isTravelling true (set_currentCommunity newCom p))))))
      else mret p
    else mret p
  else mret p.

(** End of a visit (lines 476-486). *)
Definition visitExpiry (p : Particle) : Particle :=
  if isVisiting p && negb (isTravelling p) then
    let p := set_visitTimeLeft ((λ t, t - 1)%Z <$> visitTimeLeft p) p in
    match visitTimeLeft p with
    | Some t =>
        if (t <=? 0)%Z then
          set_currentCommunity (homeCommunity p) (set_isVisiting false
            (set_travelTargetY None (set_travelTargetX None
               (set_travellingBack true (set_isTravelling true p)))))
        else p
    | None => p
    end
  else p.

Definition normalBehaviour (p : Particle) : M Particle :=
  bounds ← liftOpt (getCommunityBounds (currentCommunity p));
  let p := bounce bounds p in
  p ← centreEntry bounds p;
  if atCentre p then centreMotion bounds p
  else if isTravelling p then travelStep p
  else
    p ← brownian bounds p;
    p ← randomTravel p;
    mret (visitExpiry p).

(** The body of the motion loop for one particle (lines 213-487). *)
Definition moveParticle (cfg : Config) (p : Particle) : M Particle :=
  p ← quarantineLogic cfg p;
  match entryAnimating p with
  | Some a => mret (animateEntry a p)
  | None =>
      match homeAnimating p with
      | Some a => animateGoingHome a p
      | None => if quarantined p then mret p else normalBehaviour p
      end
  end.

(** *** Engine state held in refs (lines 183-187) *)

Record InfectionEvent : Type := mkEvent { infectorIndex : nat; time : Z }.

Record Sim : Type := mkSim {
  particles : list Particle;                 (* particlesRef.current *)
  timeRef : Z;                               (* timeRef.current *)
  infectionEvents : list InfectionEvent;     (* infectionEventsRef.current *)
  infectedInfectionCounts : gmap nat Z       (* infectedInfectionCountsRef.current *)
}.

Definition set_particles (ps : list Particle) (s : Sim) : Sim :=
  mkSim ps (timeRef s) (infectionEvents s) (infectedInfectionCounts s).
Definition set_counts (m : gmap nat Z) (s : Sim) : Sim :=
  mkSim (particles s) (timeRef s) (infectionEvents s) m.

(** *** Infection logic (lines 489-544) *)

(** [(p.atCentre && other.atCentre && same community) || (!p.atCentre && !other.atCentre)] *)
Definition mayMeet (p other : Particle) : bool :=
  (atCentre p && atCentre other
   && (currentCommunity p =? currentCommunity other)%Z)
  || (negb (atCentre p) && negb (atCentre other)).

(** [dx * dx + dy * dy < infectionRadius * infectionRadius] (lines 527-528),
    each operation rounded to binary64. *)
Definition withinRadius (cfg : Config) (p other : Particle) : bool :=
  let dx := round64 (x p - x other) in
  let dy := round64 (y p - y other) in
  Qcltb (round64 (round64 (dx * dx) + round64 (dy * dy)))
        (round64 (infectionRadius cfg * infectionRadius cfg)).

(** What a successful draw does (lines 530-537). *)
Definition infect (i j : nat) (other : Particle) (s : Sim) : Sim :=
  let other := set_timeInfected 0%Z (set_status exposed other) in
  let cnt := default 0%Z (infectedInfectionCounts s !! i) in
  mkSim (<[j := other]> (particles s)) (timeRef s)
        (infectionEvents s ++ [mkEvent i (timeRef s)])
        (<[i := (cnt + 1)%Z]> (infectedInfectionCounts s)).

(** The body of [for (const j of idxs)] (lines 520-540): source [i]
    meets candidate [j].  The quotient [infectionProbability / 10] the draw
    is compared with is rounded to binary64. *)
Definition contact (cfg : Config) (i j : nat) (s : Sim) : M Sim :=
  if bool_decide (i = j) then mret s
  else
    match particles s !! i, particles s !! j with
    | Some p, Some other =>
        if negb (Status_eqb (status other) healthy) then mret s
        else if mayMeet p other then
          if withinRadius cfg p other then
            d ← random;
            if Qcltb d (round64 (infectionProbability cfg / Q2Qc 10))
            then mret (infect i j other s)
            else mret s
          else mret s
        else mret s
    | _, _ => mret s
    end.

(** The scan of the cells around the source (lines 512-542). *)
Definition spread (cfg : Config) (cellSize : Qc) (community : Z)
    (hash : gmap string (list nat)) (i : nat) (p : Particle) (s : Sim) : M Sim :=
  let relCells := getNearbyCellCoords (x p) (y p) (infectionRadius cfg) cellSize in
  forM (λ '(nx, ny) s,
          match hash !! cellKey community (Fin nx) (Fin ny) with
          | None => mret s
          | Some idxs => forM (contact cfg i) idxs s
          end) relCells s.

(** The body of [for (let i ...)] inside one community (lines 494-543). *)
Definition infectFrom (cfg : Config) (cellSize : Qc) (community : Z)
    (hash : gmap string (list nat)) (i : nat) (s : Sim) : M Sim :=
  match particles s !! i with
  | None => mret s
  | Some p =>
      if negb (currentCommunity p =? community)%Z
         || quarantined p
         || negb (Status_eqb (status p) infected)
      then mret s
      else
        let p := set_timeInfected (timeInfected p + 1)%Z p in
        '(p, counts) ←
          match willDie p with
          | None =>
              r ← random;
              mret (set_infectionCount (Some 0%Z)
                      (set_willDie (Some (Qcltb r (deathRate cfg))) p),
                    <[i := 0%Z]> (infectedInfectionCounts s))
          | Some _ => mret (p, infectedInfectionCounts s)
          end;
        let doomed := bool_decide (willDie p = Some true) in
        if doomed && Qcltb (recoveryTime cfg / 2) (ofZ (timeInfected p)) then
          mret (set_counts (delete i counts)
                  (set_particles (<[i := set_status dead p]> (particles s)) s))
        else if negb doomed && Qcltb (recoveryTime cfg) (ofZ (timeInfected p)) then
          mret (set_counts (delete i counts)
                  (set_particles (<[i := set_status recovered p]> (particles s)) s))
        else
          spread cfg cellSize community hash i p
            (set_counts counts (set_particles (<[i := p]> (particles s)) s))
  end.

Definition infectCommunity (cfg : Config) (cellSize : Qc) (community : Z)
    (s : Sim) : M Sim :=
  let hash := makeSpatialHash (particles s) cellSize (Some community) in
  forM (infectFrom cfg cellSize community hash) (seq 0 (length (particles s))) s.

Definition infectionLogic (cfg : Config) (s : Sim) : M Sim :=
  let cellSize := infectionRadius cfg + Q2Qc 3 in
  forM (infectCommunity cfg cellSize) (Zrange 0 (NORMAL_COMMUNITIES - 1)) s.

(** *** Incubation (lines 546-562) *)

Definition incubate (cfg : Config) (p : Particle) : Particle :=
  if Status_eqb (status p) exposed then
    let p := set_timeInfected (timeInfected p + 1)%Z p in
    if Qcltb (incubationPeriod cfg) (ofZ (timeInfected p)) then
      let p := set_willDie None (set_timeInfected 0%Z (set_status infected p)) in
      if quarantineMode cfg
      then set_quarantineEligible None (set_timeSinceInfected (Some 0%Z) p)
      else p
    else p
  else p.

(** *** One tick: one iteration of [for (let s = 0; s < speed; ++s)] *)

Definition tick (cfg : Config) (s : Sim) : M Sim :=
  let s := mkSim (particles s) (timeRef s + 1)%Z (infectionEvents s)
                 (infectedInfectionCounts s) in
  ps ← mapM (moveParticle cfg) (particles s);
  s ← infectionLogic cfg (set_particles ps s);
  mret (set_particles (incubate cfg <$> particles s) s).

(** *** Statistics (lines 613-650) *)

Record Counts : Type := mkCounts {
  c_healthy : nat; c_exposed : nat; c_infected : nat;
  c_recovered : nat; c_dead : nat; c_quarantined : nat
}.

(** [if (p.quarantined) counts.quarantined++; else counts[p.status]++;] *)
Definition countParticle (c : Counts) (p : Particle) : Counts :=
  let '(mkCounts h e i r d q) := c in
  if quarantined p then mkCounts h e i r d (S q)
  else
    match status p with
    | healthy => mkCounts (S h) e i r d q
    | exposed => mkCounts h (S e) i r d q
    | infected => mkCounts h e (S i) r d q
    | recovered => mkCounts h e i (S r) d q
    | dead => mkCounts h e i r (S d) q
    end.

Definition tally (ps : list Particle) : Counts :=
  foldl countParticle (mkCounts 0 0 0 0 0 0) ps.

Definition windowSize : Z := 50.

Definition recentEvents (s : Sim) : list InfectionEvent :=
  let cutoff := (timeRef s - windowSize)%Z in
  filter (λ e, (cutoff < time e)%Z) (infectionEvents s).

Definition activeInfectors (s : Sim) : gset nat :=
  list_to_set (infectorIndex <$> recentEvents s).

(** [infectedInfectionCountsRef.current.get(infector) || 0] *)
Definition countOf (s : Sim) (infector : nat) : Z :=
  default 0%Z (infectedInfectionCounts s !! infector).

Definition totalInfections (s : Sim) : Z :=
  foldr (λ infector acc, (acc + countOf s infector)%Z) 0%Z
        (elements (activeInfectors s)).

Definition newRt (s : Sim) : Qc :=
  if (0 <? size (activeInfectors s))%nat
  then ofZ (totalInfections s) / ofZ (Z.of_nat (size (activeInfectors s)))
  else 0.

Record HistoryRow : Type := mkRow { h_time : Z; h_counts : Counts }.

(** The component state the frame callback writes. *)
Record App : Type := mkApp {
  sim : Sim;
  history : list HistoryRow;
  rt : Qc;
  maxRt : Qc
}.

Definition animate (cfg : Config) (a : App) : M App :=
  s ← forM (λ _ : nat, tick cfg) (seq 0 (speed cfg)) (sim a);
  mret (mkApp s
          (history a ++ [mkRow (timeRef s) (tally (particles s))])
          (newRt s)
          (Qcmax (maxRt a) (newRt s))).

(** *** Initial population (lines 132-163, 189-200) *)

Definition initParticle (nInfected : nat) (i : nat) : M Particle :=
  let community := (Z.of_nat i / PARTICLES_PER_COMMUNITY)%Z in
  let home := Z.min community (NORMAL_COMMUNITIES - 1) in
  b ← liftOpt (getCommunityBounds home);
  r1 ← random;
  r2 ← random;
  v1 ← rand0;
  v2 ← rand0;
  mret (mkParticle
          (r1 * (maxX b - minX b) + minX b)
          (r2 * (maxY b - minY b) + minY b)
          (v1 * Q2Qc 0.3) (v2 * Q2Qc 0.3)
          (if (i <? nInfected)%nat then infected else healthy)
          0%Z None (Some 0%Z) home home false false None None false (Some 0%Z)
          false 0%Z false
          (if (i <? nInfected)%nat then Some 0%Z else None)
          None false None None).

Definition initialState (count nInfected : nat) : M (list Particle) :=
  mapM (initParticle nInfected) (seq 0 count).

Definition restartSimulation (cfg : Config) : M App :=
  ps ← initialState PARTICLE_COUNT (initialInfected cfg);
  mret (mkApp (mkSim ps 0%Z [] ∅) [] 0 0).

(** States of the engine reachable from a (re)start, the sliders being free
    to change between ticks. *)
Inductive reachable : Sim → N → Prop :=
  | reachable_start (k : nat) (n n' : N) (ps : list Particle) :
      initialState PARTICLE_COUNT k n = Some (ps, n') →
      reachable (mkSim ps 0%Z [] ∅) n'
  | reachable_tick (cfg : Config) (s s' : Sim) (n n' : N) :
      reachable s n →
      tick cfg s n = Some (s', n') →
      reachable s' n'.

End Simulation.

(** ** A concrete host for evaluating the embedding

    Square roots to six decimals and truncated Taylor series; the stream of
    draws is a parameter. *)

Definition approxSqrt (a : Qc) : Qc :=
  Q2Qc (Z.sqrt (floor (a * Q2Qc 1000000000000)) # 1000000).

Fixpoint taylor (n : nat) (term : Qc) (k : Z) (x2 : Qc) : Qc :=
  match n with
  | O => 0
  | S n' => term + taylor n' (- term * x2 / ofZ ((k + 1) * (k + 2))) (k + 2)%Z x2
  end.

Definition approxCos (a : Qc) : Qc := taylor 12 1 0 (a * a).
Definition approxSin (a : Qc) : Qc := taylor 12 a 1 (a * a).

Definition sampleHost (draws : N → Qc) : Host :=
  mkHost draws approxSqrt approxCos approxSin (Q2Qc 3.141592653589793).

(** ** Reference definitions used to state the properties *)

(** The rectangle of the grid cell in row [row], column [col] of the
    3 x 3 layout, with its centre. *)
Definition gridCell (row col : Z) : Bounds :=
  let minX := COMMUNITY_PADDING + ofZ col * (COMMUNITY_WIDTH + COMMUNITY_PADDING) in
  let minY := COMMUNITY_PADDING + ofZ row * (COMMUNITY_HEIGHT + COMMUNITY_PADDING) in
  mkBounds minX (minX + COMMUNITY_WIDTH) minY (minY + COMMUNITY_HEIGHT)
           ((minX + (minX + COMMUNITY_WIDTH)) / 2)
           ((minY + (minY + COMMUNITY_HEIGHT)) / 2).

(** A string without the separator of the region prefix of a cell key. *)
Fixpoint colonFree (s : string) : Prop :=
  match s with
  | EmptyString => True
  | String a s' => a ≠ ":"%char ∧ colonFree s'
  end.

(** A string without the separator of the two cell coordinates. *)
Fixpoint commaFree (s : string) : Prop :=
  match s with
  | EmptyString => True
  | String a s' => a ≠ ","%char ∧ commaFree s'
  end.

(** The decimal numeral of an integer. *)
Definition numeral (z : Z) : string := NilZero.string_of_int (Z.to_int z).

(** Two indices share a bucket of the index. *)
Definition sameBucket (hash : gmap string (list nat)) (i j : nat) : Prop :=
  ∃ key idxs, hash !! key = Some idxs ∧ i ∈ idxs ∧ j ∈ idxs.

(** Particle [i] of [ps] is one [makeSpatialHash] indexes. *)
Definition indexed (ps : list Particle) (only : option Z) (i : nat)
    (p : Particle) : Prop :=
  ps !! i = Some p ∧ status p ≠ dead
  ∧ ∀ c, only = Some c → currentCommunity p = c.

(** Squared Euclidean distance between two particles. *)
Definition squaredDistance (p other : Particle) : Qc :=
  (x p - x other) * (x p - x other) + (y p - y other) * (y p - y other).

(** The squared distance as the engine computes it: the two differences,
    their squares and the sum, each rounded to binary64. *)
Definition roundedSquaredDistance (p other : Particle) : Qc :=
  let dx := round64 (x p - x other) in
  let dy := round64 (y p - y other) in
  round64 (round64 (dx * dx) + round64 (dy * dy)).

(** Sum of the recorded per-episode infection counts of the sources [srcs]. *)
Definition sumCounts (s : Sim) (srcs : list nat) : Z :=
  foldr (λ k acc, (countOf s k + acc)%Z) 0%Z srcs.

(** [e] lies in the trailing window of [s]. *)
Definition inWindow (s : Sim) (e : InfectionEvent) : Prop :=
  (timeRef s - 50 < time e)%Z.

(** The fields of a particle that describe its health. *)
Definition health (p : Particle) : Status * Z * option bool * option Z * Z :=
  (status p, timeInfected p, willDie p, infectionCount p, homeCommunity p).

(** The fields of a particle that locate it with respect to quarantine. *)
Definition place (p : Particle) : bool * Z * Z :=
  (quarantined p, currentCommunity p, homeCommunity p).

(** The quarantined flag is set exactly while the particle is registered in
    the quarantine region, and its home is a normal region. *)
Definition placed (p : Particle) : Prop :=
  quarantined p = (currentCommunity p =? QUARANTINE_COMMUNITY_IDX)%Z
  ∧ (0 ≤ homeCommunity p ≤ 7)%Z.

(** What the infection logic may do to one particle during one tick: leave
    it alone, expose it if it is healthy, or advance it (timer, death draw,
    recovery or death) if it is an infected particle outside quarantine. *)
Definition evolves (p p' : Particle) : Prop :=
  p' = p
  ∨ (place p' = place p
     ∧ ((status p = healthy ∧ status p' = exposed)
        ∨ (status p = infected ∧ quarantined p = false
           ∧ (status p' = infected ∨ status p' = recovered ∨ status p' = dead)))).

(** How one tick relates a particle before and after it: the motion loop,
    then the infection logic, then incubation. *)
Definition tickRel (host : Host) (cfg : Config) (p p' : Particle) : Prop :=
  ∃ p1 p2, (∃ n1 n2, moveParticle host cfg p n1 = Some (p1, n2))
           ∧ evolves p1 p2 ∧ p' = incubate cfg p2.

(** Several ticks in a row, the sliders being free to change in between. *)
Inductive ticks (host : Host) : Sim → N → Sim → N → Prop :=
  | ticks_refl s n : ticks host s n s n
  | ticks_step cfg s n s1 n1 s2 n2 :
      tick host cfg s n = Some (s1, n1) →
      ticks host s1 n1 s2 n2 →
      ticks host s n s2 n2.

(** [k] ticks after a restart under configuration [cfg]. *)
Definition run (host : Host) (cfg : Config) (k : nat) : option (Sim * N) :=
  match restartSimulation host cfg 0%N with
  | Some (a, n) => forM (λ _ : nat, tick host cfg) (seq 0 k) (sim a) n
  | None => None
  end.

(** Progress of the health status: healthy, then exposed, then infected,
    then recovered or dead. *)
Definition rank (st : Status) : nat :=
  match st with
  | healthy => 0
  | exposed => 1
  | infected => 2
  | recovered => 3
  | dead => 3
  end.

Definition later (a b : Status) : Prop := a = b ∨ (rank a < rank b)%nat.

(** An infected particle held in quarantine, with no transit pending. *)
Definition confined (p : Particle) : Prop :=
  status p = infected ∧ quarantined p = true
  ∧ quarantineEntryAnim p = None ∧ goingHomeAnim p = None.

Definition confinedb (p : Particle) : bool :=
  Status_eqb (status p) infected && quarantined p
  && isNone (quarantineEntryAnim p) && isNone (goingHomeAnim p).

(** Number of particles satisfying a test. *)
Definition census (f : Particle → bool) (ps : list Particle) : nat :=
  length (filter (λ p, f p = true) ps).

Definition inQuarantineRegion (p : Particle) : bool :=
  (currentCommunity p =? QUARANTINE_COMMUNITY_IDX)%Z.

(** En route to quarantine, quarantined, or en route home. *)
Definition quarantineStatus (p : Particle) : bool :=
  negb (isNone (entryAnimating p)) || quarantined p
  || negb (isNone (homeAnimating p)).

(** Sum of the five per-status counts of a snapshot. *)
Definition statusTotal (c : Counts) : nat :=
  (c_healthy c + c_exposed c + c_infected c + c_recovered c + c_dead c)%nat.

(** The result of a step of the motion loop with the status replaced. *)
Definition withStatus (st : Status) (r : option (Particle * N)) :
    option (Particle * N) :=
  match r with
  | Some (p, n) => Some (set_status st p, n)
  | None => None
  end.



(** ** Sample data for evaluating the embedding *)

(** A settled, healthy particle at the origin of region 0. *)
Definition blank : Particle :=
  mkParticle 0 0 0 0 healthy 0%Z None (Some 0%Z) 0%Z 0%Z false false None None
             false (Some 0%Z) false 0%Z false None None false None None.

Definition at_ (px py : Q) (p : Particle) : Particle :=
  set_y (Q2Qc py) (set_x (Q2Qc px) p).

(** The default slider values (lines 166-175). *)
Definition defaultConfig : Config :=
  mkConfig 5 (Q2Qc 50) (Q2Qc 20) (Q2Qc 0.2) (Q2Qc 300) (Q2Qc 0.01) 1 false (Q2Qc 70).

(** One initial infection, quarantine mode on with certain detection. *)
Definition quarantineConfig : Config :=
  mkConfig 1 (Q2Qc 50) (Q2Qc 20) (Q2Qc 0.2) (Q2Qc 300) (Q2Qc 0.01) 1 true (Q2Qc 100).

(** Hosts whose every draw is 1/2, respectively 0. *)
Definition halfHost : Host := sampleHost (λ _, Q2Qc 0.5).
Definition zeroHost : Host := sampleHost (λ _, 0).

(** An infected source and a healthy neighbour six units away, both in
    region 0 and away from the centre. *)
Definition pairState : Sim :=
  mkSim [at_ 100 100 (set_status infected blank); at_ 106 100 blank] 7%Z [] ∅.

(** A pair grazing the radius 20: the exact squared distance is below 400,
    the one computed in binary64 is 400. *)
Definition grazingSource : Particle :=
  set_y (Q2Qc 50 + Q2Qc (75029990 # 140737488355328))
    (set_x (Q2Qc 62) (set_status infected blank)).

Definition grazingNeighbour : Particle :=
  set_y (Q2Qc 50) (set_x (Q2Qc 42 + Q2Qc (1 # 140737488355328)) blank).

Definition grazingState : Sim :=
  mkSim [grazingSource; grazingNeighbour] 7%Z [] ∅.

(** The pair of [pairState], the healthy neighbour carrying a stale timer. *)
Definition staleNeighbour : Particle :=
  set_timeInfected 9%Z (at_ 106 100 blank).

Definition staleState : Sim :=
  mkSim [at_ 100 100 (set_status infected blank); staleNeighbour] 7%Z [] ∅.





(** A dead particle with a small velocity, settled inside region 0. *)
Definition deadWalker : Particle :=
  set_vx (Q2Qc 0.1) (at_ 100 100 (set_status dead blank)).

(** An infected particle confined in the quarantine region, next to a
    healthy particle of region 0. *)
Definition confinedParticle : Particle :=
  set_quarantined true (set_currentCommunity QUARANTINE_COMMUNITY_IDX
    (at_ 650 600 (set_status infected blank))).

Definition confinedState : Sim :=
  mkSim [confinedParticle; at_ 106 100 blank] 0%Z [] ∅.

(** A recovered particle next to an infected one. *)
Definition recoveredState : Sim :=
  mkSim [at_ 100 100 (set_status infected blank);
         at_ 106 100 (set_status recovered blank)] 0%Z [] ∅.

(** An event log at time 100: sources 3 and 7 have events inside the window
    of 50 ticks, source 5 only an older one. *)
Definition rtState : Sim :=
  mkSim [] 100%Z
        [mkEvent 5 40; mkEvent 3 60; mkEvent 3 70; mkEvent 7 99]
        (<[3%nat := 4%Z]> (<[7%nat := 1%Z]> (<[5%nat := 2%Z]> ∅))).

(** What is checked on the state 74 ticks after a restart with every draw
    1/2, one initial infection and certain detection: particle 0 sits
    confined in quarantine and the five status counts sum to 499. *)
Definition quarantinedRunCheck (r : option (Sim * N)) : bool :=
  match r with
  | Some (s, _) =>
      (statusTotal (tally (particles s)) =? 499)%nat
      && (c_quarantined (tally (particles s)) =? 1)%nat
      && match particles s !! 0%nat with
         | Some p => confinedb p
         | None => false
         end
  | None => false
  end.

(** Five ticks after the same restart particle 0 has a pending entry
    animation. *)
Definition flightRunCheck (r : option (Sim * N)) : bool :=
  match r with
  | Some (s, _) =>
      match particles s !! 0%nat with
      | Some p => match quarantineEntryAnim p with Some _ => true | None => false end
      | None => false
      end
  | None => false
  end.

(** What is checked 5 ticks after the same restart: particle 0 is on its
    way to quarantine while no particle is registered in region 8. *)
Definition transitRunCheck (r : option (Sim * N)) : bool :=
  match r with
  | Some (s, _) =>
      (census inQuarantineRegion (particles s) =? 0)%nat
      && (census quarantineStatus (particles s) =? 1)%nat
  | None => false
  end.

(** ** Further reference definitions *)

(** Every draw of the host lies in [0, 1), as [Math.random()] promises. *)
Definition unitDraws (host : Host) : Prop :=
  ∀ k : N, 0 <= Math_random host k ∧ Math_random host k < 1.

(** The source of the infection loop after its timer has advanced and, when
    its outcome was still undecided, after the outcome has been drawn with
    draw [d] (lines 496-501). *)
Definition aged (cfg : Config) (d : Qc) (p : Particle) : Particle :=
  let p := set_timeInfected (timeInfected p + 1)%Z p in
  match willDie p with
  | None =>
      set_infectionCount (Some 0%Z)
        (set_willDie (Some (Qcltb d (deathRate cfg))) p)
  | Some _ => p
  end.

(** ... and after the death and recovery tests (lines 502-511). *)
Definition resolved (cfg : Config) (p : Particle) : Particle :=
  let doomed := bool_decide (willDie p = Some true) in
  if doomed && Qcltb (recoveryTime cfg / 2) (ofZ (timeInfected p))
  then set_status dead p
  else if negb doomed && Qcltb (recoveryTime cfg) (ofZ (timeInfected p))
  then set_status recovered p
  else p.

(** The two things the infection logic does to a particle: advance it as a
    source, or expose it after a successful draw. *)
Inductive infStep (host : Host) (cfg : Config) : Particle → Particle → Prop :=
  | infStep_source p n :
      status p = infected → quarantined p = false →
      infStep host cfg p (resolved cfg (aged cfg (Math_random host n) p))
  | infStep_target p n :
      status p = healthy →
      Math_random host n < round64 (infectionProbability cfg / Q2Qc 10) →
      infStep host cfg p (set_timeInfected 0%Z (set_status exposed p)).

(** One tick seen from one particle, with the steps of the infection logic
    spelled out. *)
Definition tickSteps (host : Host) (cfg : Config) (p p' : Particle) : Prop :=
  ∃ p1 p2, (∃ n1 n2, moveParticle host cfg p n1 = Some (p1, n2))
           ∧ rtc (infStep host cfg) p1 p2 ∧ p' = incubate cfg p2.

(** Not quarantined and not in transit. *)
Definition free (p : Particle) : Prop :=
  quarantined p = false ∧ quarantineEntryAnim p = None ∧ goingHomeAnim p = None.

(** The fields of the quarantine life cycle that the motion rules of a
    free particle leave alone. *)
Definition qstate (p : Particle) : bool * option EntryAnim * option HomeAnim :=
  (quarantined p, quarantineEntryAnim p, goingHomeAnim p).

(** What [initialState] puts at index [i] when [k] particles start
    infected. *)
Definition seeded (k i : nat) (p : Particle) : Prop :=
  status p = (if (i <? k)%nat then infected else healthy)
  ∧ homeCommunity p = Z.min (Z.of_nat i / 62) 7
  ∧ currentCommunity p = homeCommunity p
  ∧ free p
  ∧ timeInfected p = 0%Z ∧ willDie p = None
  ∧ atCentre p = false ∧ isTravelling p = false ∧ isVisiting p = false.

(** ... and where, when the draws lie in [0, 1). *)
Definition atHome (p : Particle) : Prop :=
  ∃ b, getCommunityBounds (homeCommunity p) = Some b
       ∧ minX b <= x p ∧ x p <= maxX b ∧ minY b <= y p ∧ y p <= maxY b.

(** The home of a particle is a normal region and the region it is
    registered in is one of the nine. *)
Definition registered (p : Particle) : Prop :=
  (0 ≤ homeCommunity p ≤ 7)%Z ∧ (0 ≤ currentCommunity p ≤ 8)%Z.

(** A particle with the four fields the infection logic writes replaced. *)
Definition withEpisode (st : Status) (ti : Z) (wd : option bool) (ic : option Z)
    (p : Particle) : Particle :=
  set_infectionCount ic (set_willDie wd (set_timeInfected ti (set_status st p))).

(** [p'] is [p] up to [status], [timeInfected], [willDie] and
    [infectionCount]. *)
Definition sameBody (p p' : Particle) : Prop :=
  ∃ st ti wd ic, p' = withEpisode st ti wd ic p.

Definition isHealthy (p : Particle) : bool := Status_eqb (status p) healthy.

(** What the infection logic does to the engine state around the particles:
    the clock and the population size stay, the event log is extended by
    events stamped with the current time whose infector is a valid index, and
    every new event is matched by one healthy particle fewer. *)
Definition logs (s s' : Sim) : Prop :=
  timeRef s' = timeRef s
  ∧ length (particles s') = length (particles s)
  ∧ ∃ new, infectionEvents s' = infectionEvents s ++ new
      ∧ Forall (λ e, time e = timeRef s
                     ∧ (infectorIndex e < length (particles s))%nat) new
      ∧ (census isHealthy (particles s') + length new
         = census isHealthy (particles s))%nat.

(** Where a particle is and how it moves. *)
Definition position (p : Particle) : Qc * Qc * Qc * Qc :=
  (x p, y p, vx p, vy p).

(** Neither dead nor doomed. *)
Definition spared (p : Particle) : Prop :=
  status p ≠ dead ∧ willDie p ≠ Some true.

(** A healthy particle right after its exposure. *)
Definition exposedNow (p : Particle) : Particle :=
  set_timeInfected 0%Z (set_status exposed p).

(** The default sliders with infection probability and death rate at 0. *)
Definition harmlessConfig : Config :=
  mkConfig 5 (Q2Qc 50) (Q2Qc 20) 0 (Q2Qc 300) 0 1 false (Q2Qc 70).

(** A source at the end of its infection: doomed, with 150 ticks behind it
    under a recovery time of 300. *)
Definition doomedState : Sim :=
  mkSim [set_willDie (Some true) (set_timeInfected 150%Z
           (at_ 100 100 (set_status infected blank)));
         at_ 400 100 (set_status exposed blank)] 0%Z [] ∅.

(** Does the particle at index [i] of the resulting state have status
    [st]? *)
Definition endsAs (st : Status) (i : nat) (r : option (Sim * N)) : bool :=
  match r with
  | Some (s, _) =>
      match particles s !! i with
      | Some p => Status_eqb (status p) st
      | None => false
      end
  | None => false
  end.

(** A pending entry animation is running, and its particle is neither
    flagged quarantined nor registered in the quarantine region. *)
Definition enRoute (p : Particle) : Prop :=
  ∀ a, quarantineEntryAnim p = Some a →
    e_animating a = true ∧ quarantined p = false
    ∧ currentCommunity p ≠ QUARANTINE_COMMUNITY_IDX.

(** * Properties *)

(** ** Numbers *)

Lemma Qcltb_lt (a b : Qc) : Qcltb a b = true ↔ a < b.
Proof.
  unfold Qcltb, Qclt. rewrite negb_true_iff, <- not_true_iff_false, Qle_bool_iff.
  split; [apply Qnot_le_lt | apply Qlt_not_le].
Qed.

Lemma Qcltb_ge (a b : Qc) : Qcltb a b = false ↔ b <= a.
Proof. unfold Qcltb, Qcle. rewrite negb_false_iff. apply Qle_bool_iff. Qed.

Lemma Q2Qc_this_eq (a b : Qc) : (a == b)%Q → a = b.
Proof. intros H. apply Qc_is_canon, H. Qed.

Lemma this_plus (a b : Qc) : (this (a + b) == this a + this b)%Q.
Proof. apply Qred_correct. Qed.

Lemma this_minus (a b : Qc) : (this (a - b) == this a - this b)%Q.
Proof.
  unfold Qcminus. rewrite this_plus. unfold Qcopp, Q2Qc, this at 2.
  rewrite Qred_correct. reflexivity.
Qed.

Lemma this_mult (a b : Qc) : (this (a * b) == this a * this b)%Q.
Proof. apply Qred_correct. Qed.

Lemma this_div (a b : Qc) : (this (a / b) == this a / this b)%Q.
Proof.
  unfold Qcdiv. rewrite this_mult. unfold Qcinv, Q2Qc, this at 2.
  rewrite Qred_correct. reflexivity.
Qed.

Lemma this_Q2Qc (q : Q) : (this (Q2Qc q) == q)%Q.
Proof. apply Qred_correct. Qed.

(** ** The monad *)

Lemma bind_Some {A B : Type} (m : M A) (f : A → M B) n b n' :
  (m ≫= f) n = Some (b, n') ↔
  ∃ a n1, m n = Some (a, n1) ∧ f a n1 = Some (b, n').
Proof.
  unfold mbind, M_bind. split.
  - destruct (m n) as [[a n1]|]; [eauto | discriminate].
  - intros (a & n1 & -> & H). exact H.
Qed.

Lemma ret_Some {A : Type} (a b : A) n n' :
  (mret a : M A) n = Some (b, n') ↔ a = b ∧ n = n'.
Proof.
  unfold mret, M_ret. split.
  - intros [= -> ->]. done.
  - intros [-> ->]. done.
Qed.

(** A loop preserves whatever each of its iterations preserves. *)
Lemma forM_preserves {A S : Type} (I : S → Prop) (body : A → S → M S) l :
  (∀ a s n s' n', a ∈ l → I s → body a s n = Some (s', n') → I s') →
  ∀ s n s' n', I s → forM body l s n = Some (s', n') → I s'.
Proof.
  induction l as [|a l IH]; intros Hbody s n s' n' Hs Hrun; simpl in Hrun.
  - apply ret_Some in Hrun as [<- _]. exact Hs.
  - apply bind_Some in Hrun as (s1 & n1 & H1 & H2).
    eapply IH; [| |exact H2].
    + intros. eapply Hbody; eauto. by right.
    + eapply Hbody; eauto. by left.
Qed.

Lemma mapM_Forall2 {A B : Type} (f : A → M B) l n l' n' :
  mapM f l n = Some (l', n') →
  Forall2 (λ a b, ∃ n1 n2, f a n1 = Some (b, n2)) l l'.
Proof.
  revert n l'. induction l as [|a l IH]; intros n l' H; simpl in H.
  - apply ret_Some in H as [<- _]. constructor.
  - apply bind_Some in H as (b & n1 & Hb & H).
    apply bind_Some in H as (bs & n2 & Hbs & H).
    apply ret_Some in H as [<- <-]. constructor.
    + exists n, n1. exact Hb.
    + eapply IH. exact Hbs.
Qed.

(** ** Region layout *)

(** The rectangle of the grid cell in row [row], column [col]. *)
Lemma gridCell_quarantine :
  getCommunityBounds QUARANTINE_COMMUNITY_IDX = Some (gridCell 2 2).
Proof.
  unfold getCommunityBounds, gridCell. simpl. f_equal.
  f_equal; apply Q2Qc_this_eq; reflexivity.
Qed.

(** ** Rounding to binary64 *)

Lemma two_pow_pos (e : Z) : (0 < 2 ^ e)%Q.
Proof. apply Qpower_0_lt. reflexivity. Qed.

Lemma two_pow_succ (e : Z) : (2 ^ (e + 1) == 2 * 2 ^ e)%Q.
Proof. rewrite Qpower_plus by discriminate. change (2 ^ 1)%Q with 2%Q. ring. Qed.

Lemma two_pow_Z (n : Z) : (0 <= n)%Z → (inject_Z (2 ^ n) == 2 ^ n)%Q.
Proof. intros H. by rewrite Zpower_Qpower. Qed.

Lemma two_pow_lt_inv (a b : Z) : (2 ^ a < 2 ^ b)%Q → (a < b)%Z.
Proof. intros H. eapply Qpower_lt_compat_l_inv; [exact H | reflexivity]. Qed.

Lemma two_pow_le (a b : Z) : (a <= b)%Z → (2 ^ a <= 2 ^ b)%Q.
Proof. intros H. apply Qpower_le_compat_l; [exact H | discriminate]. Qed.

Lemma ilog2_spec (q : Q) :
  (0 < q)%Q → (2 ^ ilog2 q <= q)%Q ∧ (q < 2 ^ (ilog2 q + 1))%Q.
Proof.
  intros Hq. unfold ilog2. cbv zeta.
  destruct q as [a b]. cbn [Qnum Qden].
  assert (0 < a)%Z as Ha.
  { unfold Qlt in Hq. simpl in Hq. lia. }
  set (la := Z.log2 a). set (lb := Z.log2 (Z.pos b)).
  destruct (Z.log2_spec a Ha) as [Ha1 Ha2]. fold la in Ha1, Ha2.
  destruct (Z.log2_spec (Z.pos b)) as [Hb1 Hb2]; [lia|]. fold lb in Hb1, Hb2.
  assert (0 <= la)%Z as Hla by apply Z.log2_nonneg.
  assert (0 <= lb)%Z as Hlb by apply Z.log2_nonneg.
  set (A := inject_Z a). set (B := inject_Z (Z.pos b)).
  assert (a # b == A / B)%Q as Hab by apply Qmake_Qdiv.
  assert (0 < B)%Q as HB by (subst B; unfold Qlt; simpl; lia).
  assert (0 < A)%Q as HA by (subst A; unfold Qlt; simpl; lia).
  assert (2 ^ la <= A)%Q as HA1.
  { rewrite <- two_pow_Z by done. subst A. by rewrite <- Zle_Qle. }
  assert (A < 2 * 2 ^ la)%Q as HA2.
  { rewrite <- two_pow_succ, <- two_pow_Z by lia. subst A.
    rewrite <- Zlt_Qlt. replace (la + 1)%Z with (Z.succ la) by lia. done. }
  assert (2 ^ lb <= B)%Q as HB1.
  { rewrite <- two_pow_Z by done. subst B. by rewrite <- Zle_Qle. }
  assert (B < 2 * 2 ^ lb)%Q as HB2.
  { rewrite <- two_pow_succ, <- two_pow_Z by lia. subst B.
    rewrite <- Zlt_Qlt. replace (lb + 1)%Z with (Z.succ lb) by lia. done. }
  pose proof (two_pow_pos la) as Pa. pose proof (two_pow_pos lb) as Pb.
  assert (2 ^ (la - lb) == 2 ^ la / 2 ^ lb)%Q as He0
    by (apply Qpower_minus; discriminate).
  assert (A / B < 2 * (2 ^ la / 2 ^ lb))%Q as Hup.
  { apply Qlt_shift_div_r; [done|].
    assert (2 * (2 ^ la / 2 ^ lb) * B == (2 * 2 ^ la) * (B / 2 ^ lb))%Q as ->
      by (field; lra).
    assert (1 <= B / 2 ^ lb)%Q by (apply Qle_shift_div_l; lra).
    nra. }
  assert (2 ^ la / 2 ^ lb < 2 * (A / B))%Q as Hlo.
  { apply Qlt_shift_div_r; [done|].
    assert (2 * (A / B) * 2 ^ lb == A * ((2 * 2 ^ lb) / B))%Q as ->
      by (field; lra).
    assert (1 < (2 * 2 ^ lb) / B)%Q by (apply Qlt_shift_div_l; lra).
    nra. }
  destruct (Qle_bool (2 ^ (la - lb)) (a # b)) eqn:Ht.
  - apply Qle_bool_iff in Ht. split; [done|].
    rewrite two_pow_succ, He0, Hab. done.
  - assert (a # b < 2 ^ (la - lb))%Q as Hlt.
    { apply Qnot_le_lt. intros H. apply Qle_bool_iff in H. congruence. }
    replace (la - lb - 1 + 1)%Z with (la - lb)%Z by lia. split; [|done].
    assert (2 ^ (la - lb) == 2 * 2 ^ (la - lb - 1))%Q as Hs.
    { rewrite <- two_pow_succ. by replace (la - lb - 1 + 1)%Z with (la - lb)%Z by lia. }
    rewrite Hab. rewrite He0 in Hs. lra.
Qed.

Lemma ilog2_unique (q : Q) (e : Z) :
  (0 < q)%Q → (2 ^ e <= q)%Q → (q < 2 ^ (e + 1))%Q → ilog2 q = e.
Proof.
  intros Hq H1 H2. destruct (ilog2_spec q Hq) as [H3 H4].
  assert (ilog2 q < e + 1)%Z by (apply two_pow_lt_inv; lra).
  assert (e < ilog2 q + 1)%Z by (apply two_pow_lt_inv; lra).
  lia.
Qed.

Lemma ilog2_mono (q q' : Q) : (0 < q)%Q → (q <= q')%Q → (ilog2 q <= ilog2 q')%Z.
Proof.
  intros Hq Hle. destruct (ilog2_spec q Hq) as [H1 _].
  destruct (ilog2_spec q') as [_ H2]; [lra|].
  assert (ilog2 q < ilog2 q' + 1)%Z by (apply two_pow_lt_inv; lra). lia.
Qed.

Lemma ilog2_comp (q q' : Q) : (0 < q)%Q → (q == q')%Q → ilog2 q = ilog2 q'.
Proof.
  intros Hq Heq. symmetry. destruct (ilog2_spec q Hq) as [H1 H2].
  apply ilog2_unique; lra.
Qed.

Lemma rne_comp (q q' : Q) : (q == q')%Q → rne q = rne q'.
Proof.
  intros H. unfold rne. cbv zeta. rewrite (Qfloor_comp _ _ H).
  assert (q - inject_Z (Qfloor q') == q' - inject_Z (Qfloor q'))%Q as Hr by lra.
  by rewrite (Qcompare_comp _ _ Hr _ _ (Qeq_refl (1 # 2))).
Qed.

Lemma rne_bounds (q : Q) : (Qfloor q <= rne q <= Qfloor q + 1)%Z.
Proof. unfold rne. cbv zeta. repeat case_match; lia. Qed.

Lemma rne_inject (n : Z) : rne (inject_Z n) = n.
Proof.
  unfold rne. cbv zeta. rewrite Qfloor_Z.
  assert (inject_Z n - inject_Z n == 0)%Q as H0 by ring.
  destruct (Qcompare_spec (inject_Z n - inject_Z n) (1 # 2)) as [H|H|H];
    [exfalso | done | exfalso]; rewrite H0 in H; discriminate H.
Qed.

Lemma rne_mono (q q' : Q) : (q <= q')%Q → (rne q <= rne q')%Z.
Proof.
  intros H. pose proof (Qfloor_resp_le _ _ H) as Hf.
  pose proof (rne_bounds q). pose proof (rne_bounds q').
  destruct (Z.eq_dec (Qfloor q) (Qfloor q')) as [Heq|Hne]; [|lia].
  unfold rne. cbv zeta. rewrite Heq.
  destruct (Qcompare_spec (q - inject_Z (Qfloor q')) (1 # 2)) as [Hc1|Hc1|Hc1];
    destruct (Qcompare_spec (q' - inject_Z (Qfloor q')) (1 # 2)) as [Hc2|Hc2|Hc2];
    try (destruct (Z.even (Qfloor q')); lia); try lia; exfalso; lra.
Qed.

Lemma ulp_pos (q : Q) : (0 < ulp q)%Q.
Proof. apply two_pow_pos. Qed.

Lemma ulp_comp (q q' : Q) : (0 < q)%Q → (q == q')%Q → ulp q = ulp q'.
Proof. intros Hq H. unfold ulp. by rewrite (ilog2_comp q q' Hq H). Qed.

Lemma roundPos_comp (q q' : Q) :
  (0 < q)%Q → (q == q')%Q → (roundPos q == roundPos q')%Q.
Proof.
  intros Hq H. unfold roundPos. rewrite (ulp_comp q q' Hq H).
  assert (q / ulp q' == q' / ulp q')%Q as Hd by (by rewrite H).
  by rewrite (rne_comp _ _ Hd).
Qed.

Lemma roundPos_nonneg (q : Q) : (0 < q)%Q → (0 <= roundPos q)%Q.
Proof.
  intros Hq. unfold roundPos. pose proof (ulp_pos q) as Hu.
  apply Qmult_le_0_compat; [|lra].
  change 0%Q with (inject_Z 0). rewrite <- Zle_Qle.
  rewrite <- (rne_inject 0). apply rne_mono.
  apply Qle_shift_div_l; [done|]. change (inject_Z 0) with 0%Q. lra.
Qed.

Lemma roundPos_mono (q q' : Q) :
  (0 < q)%Q → (q <= q')%Q → (roundPos q <= roundPos q')%Q.
Proof.
  intros Hq Hle. assert (0 < q')%Q as Hq' by lra.
  pose proof (ilog2_mono q q' Hq Hle) as He.
  unfold roundPos, ulp.
  set (E := Z.max (ilog2 q) (-1022)). set (E' := Z.max (ilog2 q') (-1022)).
  pose proof (two_pow_pos (E - 52)) as Hu. pose proof (two_pow_pos (E' - 52)) as Hu'.
  destruct (Z.eq_dec E E') as [Heq|Hne].
  - rewrite <- Heq. apply Qmult_le_compat_r; [|lra].
    rewrite <- Zle_Qle. apply rne_mono.
    apply Qmult_le_compat_r; [done|]. apply Qinv_le_0_compat. lra.
  - assert (E < E')%Z as Hlt by lia.
    assert (E' = ilog2 q') as HE' by lia.
    destruct (ilog2_spec q Hq) as [_ Hq2]. destruct (ilog2_spec q' Hq') as [Hq1 _].
    assert (2 ^ 53 * 2 ^ (E - 52) == 2 ^ (E + 1))%Q as P1.
    { rewrite <- Qpower_plus by discriminate. by replace (53 + (E - 52))%Z with (E + 1)%Z by lia. }
    assert (2 ^ 52 * 2 ^ (E' - 52) == 2 ^ E')%Q as P2.
    { rewrite <- Qpower_plus by discriminate. by replace (52 + (E' - 52))%Z with E' by lia. }
    apply Qle_trans with (2 ^ (E + 1))%Q; [|apply Qle_trans with (2 ^ E')%Q].
    + rewrite <- P1. apply Qmult_le_compat_r; [|lra].
      assert (inject_Z (2 ^ 53) == 2 ^ 53)%Q as HZ by (apply two_pow_Z; lia).
      rewrite <- HZ. rewrite <- Zle_Qle.
      rewrite <- (rne_inject (2 ^ 53)) at 1. apply rne_mono.
      apply Qle_shift_div_r; [done|]. rewrite HZ, P1.
      assert (2 ^ (ilog2 q + 1) <= 2 ^ (E + 1))%Q by (apply two_pow_le; lia). lra.
    + apply two_pow_le. lia.
    + rewrite <- P2. apply Qmult_le_compat_r; [|lra].
      assert (inject_Z (2 ^ 52) == 2 ^ 52)%Q as HZ by (apply two_pow_Z; lia).
      rewrite <- HZ. rewrite <- Zle_Qle.
      rewrite <- (rne_inject (2 ^ 52)) at 1. apply rne_mono.
      apply Qle_shift_div_l; [done|]. rewrite HZ, P2.
      rewrite HE'. done.
Qed.



(** The rounding is monotone, idempotent, odd and fixes zero. *)

Lemma round64_zero : round64 0 = 0.
Proof. reflexivity. Qed.

Lemma round64_pos (a : Qc) : 0 < a → round64 a = Q2Qc (roundPos a).
Proof.
  intros H. unfold round64.
  destruct (Qcompare_spec a 0) as [H0|H0|H0]; [|exfalso..|done].
  - unfold Qclt in H. change (this (Q2Qc 0)) with 0%Q in H. lra.
  - unfold Qclt in H. change (this (Q2Qc 0)) with 0%Q in H. lra.
Qed.

Lemma round64_neg (a : Qc) : a < 0 → round64 a = - Q2Qc (roundPos (- this a)).
Proof.
  intros H. unfold round64. unfold Qclt in H. change (this (Q2Qc 0)) with 0%Q in H.
  destruct (Qcompare_spec a 0) as [H0|H0|H0]; [exfalso; lra|done|exfalso; lra].
Qed.

Lemma Qc_sign (a : Qc) : a < 0 ∨ a = 0 ∨ 0 < a.
Proof.
  destruct (Qc_dec a 0) as [[H|H]|H]; auto.
Qed.

Lemma this_opp (a : Qc) : (this (- a) == - this a)%Q.
Proof. unfold Qcopp. apply Qred_correct. Qed.

Lemma Qcopp_pos (a : Qc) : a < 0 → 0 < - a.
Proof.
  unfold Qclt. rewrite this_opp. change (this (Q2Qc 0)) with 0%Q. lra.
Qed.

Lemma Q2Qc_comp (q q' : Q) : (q == q')%Q → Q2Qc q = Q2Qc q'.
Proof. intros H. apply Qc_is_canon. by rewrite !this_Q2Qc. Qed.

Lemma round64_opp (a : Qc) : round64 (- a) = - round64 a.
Proof.
  destruct (Qc_sign a) as [H|[->|H]].
  - rewrite (round64_neg a H), Qcopp_involutive.
    rewrite (round64_pos (- a)) by (by apply Qcopp_pos).
    apply Q2Qc_comp, roundPos_comp; [|apply this_opp].
    apply Qcopp_pos in H. exact H.
  - reflexivity.
  - rewrite (round64_pos a H). rewrite round64_neg.
    + f_equal. apply Q2Qc_comp.
      assert (- this (- a) == this a)%Q as Heq by (rewrite this_opp; ring).
      apply roundPos_comp; [|exact Heq]. rewrite Heq. exact H.
    + unfold Qclt in *. rewrite this_opp.
      change (this (Q2Qc 0)) with 0%Q in *. lra.
Qed.

Lemma round64_nonneg (a : Qc) : 0 <= a → 0 <= round64 a.
Proof.
  intros H. destruct (Qc_sign a) as [Hn|[->|Hp]].
  - exfalso. unfold Qclt, Qcle in *. lra.
  - apply Qcle_refl.
  - rewrite (round64_pos a Hp). unfold Qcle.
    change (this (Q2Qc 0)) with 0%Q. rewrite this_Q2Qc. apply roundPos_nonneg.
    unfold Qclt in Hp. exact Hp.
Qed.

Lemma round64_mono_pos (a b : Qc) : 0 < a → a <= b → round64 a <= round64 b.
Proof.
  intros Ha Hab. assert (0 < b) as Hb by (by eapply Qclt_le_trans).
  rewrite (round64_pos a Ha), (round64_pos b Hb).
  unfold Qcle. rewrite !this_Q2Qc. by apply roundPos_mono.
Qed.

Lemma round64_mono (a b : Qc) : a <= b → round64 a <= round64 b.
Proof.
  intros Hab. destruct (Qc_sign a) as [Ha|[->|Ha]].
  - destruct (Qc_sign b) as [Hb|[->|Hb]].
    + assert (a = - - a) as Ha' by (symmetry; apply Qcopp_involutive).
      assert (b = - - b) as Hb' by (symmetry; apply Qcopp_involutive).
      assert (- b <= - a) as Hopp by (by apply Qcopp_le_compat).
      apply Qcopp_pos in Ha, Hb. set (c := - a) in *. set (d := - b) in *.
      rewrite Ha', Hb', (round64_opp c), (round64_opp d).
      apply Qcopp_le_compat. by apply round64_mono_pos.
    + assert (a = - - a) as Ha' by (symmetry; apply Qcopp_involutive).
      apply Qcopp_pos in Ha. set (c := - a) in *. rewrite Ha', (round64_opp c).
      assert (0 <= round64 c) as H by (by apply round64_nonneg, Qclt_le_weak).
      unfold Qcle in *. rewrite this_opp.
      change (this (round64 0)) with 0%Q. change (this (Q2Qc 0)) with 0%Q in H. lra.
    + assert (a = - - a) as Ha' by (symmetry; apply Qcopp_involutive).
      apply Qcopp_pos in Ha. set (c := - a) in *. rewrite Ha', (round64_opp c).
      assert (0 <= round64 c) as H by (by apply round64_nonneg, Qclt_le_weak).
      assert (0 <= round64 b) as H' by (by apply round64_nonneg, Qclt_le_weak).
      unfold Qcle in *. rewrite this_opp.
      change (this (Q2Qc 0)) with 0%Q in *. lra.
  - by apply round64_nonneg.
  - by apply round64_mono_pos.
Qed.



(** The rounded value is within half a spacing of the exact one. *)
Lemma rne_error (q : Q) :
  (q - (1 # 2) <= inject_Z (rne q))%Q ∧ (inject_Z (rne q) <= q + (1 # 2))%Q.
Proof.
  unfold rne. cbv zeta. pose proof (Qfloor_le q) as H1.
  pose proof (Qlt_floor q) as H2. rewrite inject_Z_plus in H2.
  change (inject_Z 1) with 1%Q in H2.
  destruct (Qcompare_spec (q - inject_Z (Qfloor q)) (1 # 2)) as [H|H|H].
  - destruct (Z.even (Qfloor q)); rewrite ?inject_Z_plus;
      change (inject_Z 1) with 1%Q; split; lra.
  - split; lra.
  - rewrite inject_Z_plus. change (inject_Z 1) with 1%Q. split; lra.
Qed.

Lemma roundPos_error (q : Q) :
  (0 < q)%Q →
  (q - ulp q / 2 <= roundPos q)%Q ∧ (roundPos q <= q + ulp q / 2)%Q.
Proof.
  intros Hq. unfold roundPos. pose proof (ulp_pos q) as Hu.
  destruct (rne_error (q / ulp q)) as [H1 H2].
  assert (q / ulp q * ulp q == q)%Q as Hd by (field; lra).
  split.
  - apply Qle_trans with ((q / ulp q - (1 # 2)) * ulp q)%Q.
    + assert ((q / ulp q - (1 # 2)) * ulp q == q - ulp q / 2)%Q as ->
        by (field; lra).
      apply Qle_refl.
    + apply Qmult_le_compat_r; lra.
  - apply Qle_trans with ((q / ulp q + (1 # 2)) * ulp q)%Q.
    + apply Qmult_le_compat_r; lra.
    + assert ((q / ulp q + (1 # 2)) * ulp q == q + ulp q / 2)%Q as ->
        by (field; lra).
      apply Qle_refl.
Qed.

(** C7 (as amended).  [getCommunityBounds] throws exactly on the indices
    above 7 other than the quarantine index 8; on every index from 0 to 8
    it returns the rectangle and centre of grid cell (idx div 3, idx mod 3),
    so that region 8 is the bottom-right cell (2, 2).  Indices below 0 are
    not rejected. *)
Theorem getCommunityBounds_spec (idx : Z) :
  (getCommunityBounds idx = None ↔ (7 < idx)%Z ∧ idx ≠ QUARANTINE_COMMUNITY_IDX)
  ∧ ((0 ≤ idx ≤ 8)%Z →
     getCommunityBounds idx = Some (gridCell (idx / 3) (idx `mod` 3))).
Proof.
  split.
  - unfold getCommunityBounds.
    destruct (Z.eqb_spec idx QUARANTINE_COMMUNITY_IDX) as [->|Hne].
    + split; [discriminate | intros [_ []]; reflexivity].
    + destruct (Z.ltb_spec 7 idx) as [Hlt|Hge]; simpl.
      * split; [auto | reflexivity].
      * split; [discriminate | lia].
  - intros Hrange.
    assert (idx = 0 ∨ idx = 1 ∨ idx = 2 ∨ idx = 3 ∨ idx = 4 ∨ idx = 5
            ∨ idx = 6 ∨ idx = 7 ∨ idx = 8)%Z as Hcases by lia.
    destruct Hcases as [->|[->|[->|[->|[->|[->|[->|[->| ->]]]]]]]];
      try reflexivity.
    apply gridCell_quarantine.
Qed.

(** C7, as stated, fails at index -1: the index is outside 0..7 and is not
    the quarantine index, yet bounds are returned. *)
Lemma getCommunityBounds_negative_index :
  ¬ (∀ idx : Z, ¬ (0 ≤ idx ≤ 7)%Z → idx ≠ QUARANTINE_COMMUNITY_IDX →
       getCommunityBounds idx = None).
Proof.
  intros H. specialize (H (-1)%Z).
  assert (getCommunityBounds (-1) = None) as Hnone.
  { apply H; [lia | discriminate]. }
  discriminate Hnone.
Qed.

(** ** Spatial hash *)

Lemma colonFree_uint (d : Decimal.uint) : colonFree (NilEmpty.string_of_uint d).
Proof. induction d; simpl; (split; [discriminate | assumption]) || exact I. Qed.

Lemma colonFree_fmtZ (z : Z) : colonFree (fmtZ z).
Proof.
  unfold fmtZ, NilZero.string_of_int, NilZero.string_of_uint.
  destruct (Z.to_int z) as [d|d]; destruct d; simpl;
    repeat split; try discriminate; apply colonFree_uint.
Qed.

Lemma colon_prefix_inj (s1 s2 t1 t2 : string) :
  colonFree s1 → colonFree s2 →
  s1 +:+ ":" +:+ t1 = s2 +:+ ":" +:+ t2 → s1 = s2.
Proof.
  revert s2. induction s1 as [|a s1 IH]; intros [|b s2]; simpl.
  - done.
  - intros _ [Hb _] [= <- _]. done.
  - intros [Ha _] _ [= -> _]. done.
  - intros [_ H1] [_ H2] [= -> Heq]. f_equal. by apply IH.
Qed.

Lemma fmtZ_inj (a b : Z) : fmtZ a = fmtZ b → a = b.
Proof.
  unfold fmtZ. intros H. apply DecimalZ.to_int_inj.
  assert (∀ z, NilZero.int_of_string (NilZero.string_of_int (Z.to_int z))
               = Some (Z.to_int z)) as Hisi.
  { intros z. apply NilZero.isi; destruct z; simpl; try discriminate;
      intros [= Hp]; by apply DecimalPos.Unsigned.to_uint_nonnil in Hp. }
  apply (f_equal NilZero.int_of_string) in H.
  rewrite !Hisi in H. by injection H.
Qed.

Lemma commaFree_uint (d : Decimal.uint) : commaFree (NilEmpty.string_of_uint d).
Proof. induction d; simpl; (split; [discriminate | assumption]) || exact I. Qed.

Lemma commaFree_fmtZ (z : Z) : commaFree (fmtZ z).
Proof.
  unfold fmtZ, NilZero.string_of_int, NilZero.string_of_uint.
  destruct (Z.to_int z) as [d|d]; destruct d; simpl;
    repeat split; try discriminate; apply commaFree_uint.
Qed.

Lemma colon_split_inj (s1 s2 t1 t2 : string) :
  colonFree s1 → colonFree s2 →
  s1 +:+ ":" +:+ t1 = s2 +:+ ":" +:+ t2 → s1 = s2 ∧ t1 = t2.
Proof.
  revert s2. induction s1 as [|a s1 IH]; intros [|b s2]; simpl.
  - intros _ _ [= Heq]. by subst.
  - intros _ [Hb _] [= <- _]. done.
  - intros [Ha _] _ [= -> _]. done.
  - intros [_ H1] [_ H2] [= -> Heq].
    destruct (IH s2 H1 H2 Heq) as [-> ->]. done.
Qed.

Lemma comma_split_inj (s1 s2 t1 t2 : string) :
  commaFree s1 → commaFree s2 →
  s1 +:+ "," +:+ t1 = s2 +:+ "," +:+ t2 → s1 = s2 ∧ t1 = t2.
Proof.
  revert s2. induction s1 as [|a s1 IH]; intros [|b s2]; simpl.
  - intros _ _ [= Heq]. by subst.
  - intros _ [Hb _] [= <- _]. done.
  - intros [Ha _] _ [= -> _]. done.
  - intros [_ H1] [_ H2] [= -> Heq].
    destruct (IH s2 H1 H2 Heq) as [-> ->]. done.
Qed.

(** The key determines the region and both cell coordinates. *)
Lemma cellKey_inj (c1 c2 a1 b1 a2 b2 : Z) :
  cellKey c1 (Fin a1) (Fin b1) = cellKey c2 (Fin a2) (Fin b2) →
  c1 = c2 ∧ a1 = a2 ∧ b1 = b2.
Proof.
  unfold cellKey. cbn [fmtCoord]. intros H.
  apply colon_split_inj in H as [Hc H]; [|apply colonFree_fmtZ..].
  apply comma_split_inj in H as [Ha Hb]; [|apply commaFree_fmtZ..].
  by repeat split; apply fmtZ_inj.
Qed.

Lemma cellKey_community (c1 c2 : Z) (a1 b1 a2 b2 : CellCoord) :
  cellKey c1 a1 b1 = cellKey c2 a2 b2 → c1 = c2.
Proof.
  unfold cellKey. intros H. apply fmtZ_inj.
  eapply colon_prefix_inj; [apply colonFree_fmtZ .. | exact H].
Qed.

Lemma hashInsert_cases ps cellSize only hash i :
  (hashInsert ps cellSize only hash i = hash ∧ ¬ ∃ p, indexed ps only i p)
  ∨ ∃ p, indexed ps only i p
         ∧ hashInsert ps cellSize only hash i
           = <[keyOf cellSize p := default [] (hash !! keyOf cellSize p) ++ [i]]> hash.
Proof.
  unfold hashInsert, indexed.
  destruct (ps !! i) as [p|] eqn:Hp.
  2:{ left. split; [done|]. intros (q & [=] & _). }
  assert (∀ q, Some p = Some q → q = p) as Hinj by (intros q [=]; done).
  destruct only as [c|].
  - destruct (Z.eqb_spec (currentCommunity p) c) as [Hc|Hc]; simpl.
    + unfold Status_eqb. case_bool_decide as Hd.
      * left. split; [done|]. intros (q & Hq & Hnd & _).
        apply Hinj in Hq as ->. done.
      * right. exists p. repeat split; [done|]. intros c' [= <-]. done.
    + left. split; [done|]. intros (q & Hq & _ & Hcq).
      apply Hinj in Hq as ->. by apply Hc, Hcq.
  - simpl. unfold Status_eqb. case_bool_decide as Hd.
    + left. split; [done|]. intros (q & Hq & Hnd & _).
      apply Hinj in Hq as ->. done.
    + right. exists p. repeat split; done.
Qed.

Lemma makeSpatialHash_prefix ps cellSize only (k : nat) :
  (∀ key idxs i,
     foldl (hashInsert ps cellSize only) ∅ (seq 0 k) !! key = Some idxs →
     i ∈ idxs →
     (i < k)%nat ∧ ∃ p, indexed ps only i p ∧ key = keyOf cellSize p)
  ∧ (∀ i p, (i < k)%nat → indexed ps only i p →
       ∃ idxs, foldl (hashInsert ps cellSize only) ∅ (seq 0 k)
                 !! keyOf cellSize p = Some idxs ∧ i ∈ idxs).
Proof.
  induction k as [|k [IH1 IH2]].
  - split; [intros key idxs i H; simpl in H; by rewrite lookup_empty in H | lia].
  - rewrite seq_S, foldl_snoc. rewrite Nat.add_0_l.
    set (h := foldl (hashInsert ps cellSize only) ∅ (seq 0 k)) in *.
    destruct (hashInsert_cases ps cellSize only h k) as [[-> Hno]|(p & Hp & ->)].
    + split.
      * intros key idxs i Hl Hi. destruct (IH1 _ _ _ Hl Hi) as [? ?].
        split; [lia | done].
      * intros i q Hi Hq. destruct (decide (i = k)) as [->|Hne].
        -- exfalso. apply Hno. by exists q.
        -- apply IH2; [lia | done].
    + split.
      * intros key idxs i Hl Hi.
        destruct (decide (key = keyOf cellSize p)) as [->|Hkey].
        -- rewrite lookup_insert_eq in Hl. injection Hl as <-.
           apply elem_of_app in Hi as [Hi|Hi].
           ++ destruct (h !! keyOf cellSize p) as [old|] eqn:Hold; simpl in Hi.
              ** destruct (IH1 _ _ _ Hold Hi) as [? ?]. split; [lia | done].
              ** by apply elem_of_nil in Hi.
           ++ apply list_elem_of_singleton in Hi as ->.
              split; [lia | by exists p].
        -- rewrite lookup_insert_ne in Hl by done.
           destruct (IH1 _ _ _ Hl Hi) as [? ?]. split; [lia | done].
      * intros i q Hi Hq. destruct (decide (i = k)) as [->|Hne].
        -- assert (q = p) as -> by (destruct Hq as [Hq _], Hp as [Hp _]; congruence).
           rewrite lookup_insert_eq. eexists. split; [done|].
           apply elem_of_app. right. by apply list_elem_of_singleton.
        -- destruct (IH2 i q) as (idxs & Hl & Hin); [lia | done |].
           destruct (decide (keyOf cellSize q = keyOf cellSize p)) as [Heq|Hk].
           ++ rewrite Heq, lookup_insert_eq. rewrite Heq in Hl. rewrite Hl. simpl.
              eexists. split; [done|]. apply elem_of_app. by left.
           ++ rewrite lookup_insert_ne by done. eauto.
Qed.

(** C8.  The index built by [makeSpatialHash] lists only particles that are
    not dead and (under a region filter) lie in the filter region, each under
    the key of its own region and cell; every such particle is listed under
    that key; keys of different regions differ, so a bucket never mixes
    regions.  For a cell size other than zero the key is the text
    "region:cx,cy" with cx = floor(x / cellSize) and cy = floor(y / cellSize)
    in decimal, and two listed particles share a bucket exactly when they
    are in the same region and have the same two integer cell coordinates. *)
Theorem makeSpatialHash_spec (ps : list Particle) (cellSize : Qc)
    (only : option Z) :
  let hash := makeSpatialHash ps cellSize only in
  (∀ key idxs i, hash !! key = Some idxs → i ∈ idxs →
     ∃ p, ps !! i = Some p ∧ status p ≠ dead
          ∧ (∀ c, only = Some c → currentCommunity p = c)
          ∧ key = cellKey (currentCommunity p) (floorDiv (x p) cellSize)
                          (floorDiv (y p) cellSize))
  ∧ (∀ i p, ps !! i = Some p → status p ≠ dead →
       (∀ c, only = Some c → currentCommunity p = c) →
       ∃ idxs, hash !! keyOf cellSize p = Some idxs ∧ i ∈ idxs)
  ∧ (∀ p q, currentCommunity p ≠ currentCommunity q →
       keyOf cellSize p ≠ keyOf cellSize q)
  ∧ (∀ key idxs i j p q, hash !! key = Some idxs → i ∈ idxs → j ∈ idxs →
       ps !! i = Some p → ps !! j = Some q →
       currentCommunity p = currentCommunity q)
  ∧ (cellSize ≠ 0 →
     ∀ key idxs i p, hash !! key = Some idxs → i ∈ idxs → ps !! i = Some p →
       key = numeral (currentCommunity p) +:+ ":"
             +:+ numeral (Qfloor (x p / cellSize)%Qc) +:+ ","
             +:+ numeral (Qfloor (y p / cellSize)%Qc))
  ∧ (cellSize ≠ 0 →
     ∀ i j p q, indexed ps only i p → indexed ps only j q →
       (sameBucket hash i j
        ↔ currentCommunity p = currentCommunity q
          ∧ Qfloor (x p / cellSize)%Qc = Qfloor (x q / cellSize)%Qc
          ∧ Qfloor (y p / cellSize)%Qc = Qfloor (y q / cellSize)%Qc)).
Proof.
  intros hash.
  destruct (makeSpatialHash_prefix ps cellSize only (length ps)) as [H1 H2].
  fold (makeSpatialHash ps cellSize only) in H1, H2. fold hash in H1, H2.
  assert (∀ p q, currentCommunity p ≠ currentCommunity q →
            keyOf cellSize p ≠ keyOf cellSize q) as H3.
  { intros p q Hne Heq. apply Hne. unfold keyOf in Heq.
    by apply cellKey_community in Heq. }
  assert (cellSize ≠ 0 → ∀ p,
            keyOf cellSize p
            = cellKey (currentCommunity p) (Fin (Qfloor (x p / cellSize)%Qc))
                (Fin (Qfloor (y p / cellSize)%Qc))) as Hkey.
  { intros Hc p. unfold keyOf, floorDiv, floor.
    rewrite bool_decide_eq_false_2 by exact Hc. reflexivity. }
  split; [|split; [|split; [|split; [|split]]]].
  - intros key idxs i Hl Hi.
    destruct (H1 _ _ _ Hl Hi) as (_ & p & (Hp & Hd & Hc) & ->).
    exists p. repeat split; done.
  - intros i p Hp Hd Hc. apply H2; [by eapply lookup_lt_Some | done].
  - exact H3.
  - intros key idxs i j p q Hl Hi Hj Hp Hq.
    destruct (H1 _ _ _ Hl Hi) as (_ & p' & (Hp' & _) & Hkp).
    destruct (H1 _ _ _ Hl Hj) as (_ & q' & (Hq' & _) & Hkq).
    assert (p' = p) as -> by congruence. assert (q' = q) as -> by congruence.
    destruct (decide (currentCommunity p = currentCommunity q)) as [|Hne]; [done|].
    exfalso. apply (H3 p q Hne). congruence.
  - intros Hc key idxs i p Hl Hi Hp.
    destruct (H1 _ _ _ Hl Hi) as (_ & p' & (Hp' & _) & ->).
    assert (p' = p) as -> by congruence.
    rewrite (Hkey Hc p). reflexivity.
  - intros Hc i j p q Hip Hjq. split.
    + intros (key & idxs & Hl & Hi & Hj).
      destruct (H1 _ _ _ Hl Hi) as (_ & p' & (Hp' & _) & Hkp).
      destruct (H1 _ _ _ Hl Hj) as (_ & q' & (Hq' & _) & Hkq).
      destruct Hip as (Hp & _). destruct Hjq as (Hq & _).
      assert (p' = p) as -> by congruence. assert (q' = q) as -> by congruence.
      rewrite (Hkey Hc p) in Hkp. rewrite (Hkey Hc q) in Hkq.
      apply cellKey_inj. congruence.
    + intros (Hr & Hx & Hy).
      destruct (H2 i p) as (idxs & Hl & Hi); [|done|].
      { destruct Hip as (Hp & _). by eapply lookup_lt_Some. }
      destruct (H2 j q) as (idxs' & Hl' & Hj); [|done|].
      { destruct Hjq as (Hq & _). by eapply lookup_lt_Some. }
      assert (keyOf cellSize q = keyOf cellSize p) as Hsame.
      { rewrite (Hkey Hc p), (Hkey Hc q), Hr, Hx, Hy. done. }
      rewrite Hsame, Hl in Hl'. injection Hl' as <-.
      exists (keyOf cellSize p), idxs. done.
Qed.


(** ** Transmission attempt *)

Section Transmission.

Context (host : Host).

Lemma withinRadius_lt cfg p other :
  withinRadius cfg p other = true
  ↔ roundedSquaredDistance p other
    < round64 (infectionRadius cfg * infectionRadius cfg).
Proof. unfold withinRadius, roundedSquaredDistance. apply Qcltb_lt. Qed.

(** C5.  A transmission attempt of an infected source [i] on a healthy
    candidate [j] of the same region: skipped when exactly one of the two is
    at the centre; without effect unless the squared distance, as the engine
    computes it, is strictly below the squared radius; otherwise one draw is
    compared with a tenth of the configured probability, and success makes
    the candidate exposed with a zero timer and all its other fields as they
    were, appends the event (i, now) and adds one to the count recorded for
    [i]. *)
Theorem contact_spec (cfg : Config) (i j : nat) (s : Sim) (n : N)
    (p other : Particle) :
  particles s !! i = Some p →
  particles s !! j = Some other →
  status p = infected →
  status other = healthy →
  currentCommunity p = currentCommunity other →
  let near :=
    roundedSquaredDistance p other
    < round64 (infectionRadius cfg * infectionRadius cfg) in
  let lucky :=
    Math_random host n < round64 (infectionProbability cfg / Q2Qc 10) in
  (atCentre p ≠ atCentre other → contact host cfg i j s n = Some (s, n))
  ∧ (atCentre p = atCentre other → ¬ near →
     contact host cfg i j s n = Some (s, n))
  ∧ (atCentre p = atCentre other → near → ¬ lucky →
     contact host cfg i j s n = Some (s, N.succ n))
  ∧ (atCentre p = atCentre other → near → lucky →
     ∃ s' other',
       contact host cfg i j s n = Some (s', N.succ n)
       ∧ particles s' = <[j := other']> (particles s)
       ∧ other'
         = mkParticle (x other) (y other) (vx other) (vy other) exposed 0%Z
             (willDie other) (infectionCount other) (homeCommunity other)
             (currentCommunity other) (isVisiting other) (isTravelling other)
             (travelTargetX other) (travelTargetY other) (travellingBack other)
             (visitTimeLeft other) (atCentre other) (centreTimeLeft other)
             (quarantined other) (timeSinceInfected other)
             (quarantineEntryAnim other) (releasedFromQuarantine other)
             (quarantineEligible other) (goingHomeAnim other)
       ∧ infectionEvents s' = infectionEvents s ++ [mkEvent i (timeRef s)]
       ∧ countOf s' i = (countOf s i + 1)%Z
       ∧ (∀ k, k ≠ i →
            infectedInfectionCounts s' !! k = infectedInfectionCounts s !! k)
       ∧ timeRef s' = timeRef s).
Proof.
  intros Hp Ho Hsp Hso Hreg near lucky. subst near lucky.
  assert (i ≠ j) as Hij by (intros ->; congruence).
  assert (mayMeet p other = Bool.eqb (atCentre p) (atCentre other)) as Hmeet.
  { unfold mayMeet. rewrite Hreg, Z.eqb_refl.
    by destruct (atCentre p), (atCentre other). }
  unfold contact. rewrite bool_decide_eq_false_2 by done.
  rewrite Hp, Ho. unfold Status_eqb.
  rewrite (bool_decide_eq_true_2 _ Hso). cbn [negb].
  rewrite Hmeet. repeat split.
  - intros Hne. rewrite (proj2 (Bool.eqb_false_iff _ _) Hne). done.
  - intros -> Hfar. rewrite Bool.eqb_reflx.
    apply (not_iff_compat (withinRadius_lt cfg p other)) in Hfar.
    apply not_true_is_false in Hfar. rewrite Hfar. done.
  - intros -> Hnear Hdraw. rewrite Bool.eqb_reflx.
    apply withinRadius_lt in Hnear. rewrite Hnear.
    apply (not_iff_compat (Qcltb_lt _ _)), not_true_is_false in Hdraw.
    unfold mbind, M_bind, random. cbv beta iota. rewrite Hdraw. done.
  - intros -> Hnear Hdraw. rewrite Bool.eqb_reflx.
    apply withinRadius_lt in Hnear. rewrite Hnear.
    apply Qcltb_lt in Hdraw.
    unfold mbind, M_bind, random. cbv beta iota. rewrite Hdraw.
    eexists _, _. split; [reflexivity|]. unfold infect, countOf. simpl.
    split; [reflexivity|]. split; [reflexivity|]. split; [reflexivity|].
    split; [by rewrite lookup_insert_eq|]. split; [|reflexivity].
    intros k Hk. by rewrite lookup_insert_ne.
Qed.

End Transmission.

(** Two attempts.  On [grazingState] the exact squared distance is below
    400 but the one computed in binary64 is not, and nothing happens; on
    [staleState] the draw succeeds and the neighbour is exposed with its
    timer back at zero. *)
Lemma contact_spec_witness :
  (squaredDistance grazingSource grazingNeighbour < Q2Qc 400
   ∧ contact zeroHost defaultConfig 0%nat 1%nat grazingState 0%N
     = Some (grazingState, 0%N))
  ∧ ∃ s' other',
      contact zeroHost defaultConfig 0%nat 1%nat staleState 0%N = Some (s', 1%N)
      ∧ particles s' !! 1%nat = Some other'
      ∧ timeInfected staleNeighbour = 9%Z
      ∧ status other' = exposed ∧ timeInfected other' = 0%Z
      ∧ infectionEvents s' = [mkEvent 0 7].
Proof.
  split.
  - split; [vm_compute; reflexivity|].
    pose proof (contact_spec zeroHost defaultConfig 0%nat 1%nat grazingState 0%N
                  grazingSource grazingNeighbour eq_refl eq_refl eq_refl eq_refl
                  eq_refl) as (_ & H & _).
    apply H; [reflexivity|]. intros Hnear. vm_compute in Hnear. discriminate.
  - pose proof (contact_spec zeroHost defaultConfig 0%nat 1%nat staleState 0%N
                  (at_ 100 100 (set_status infected blank)) staleNeighbour
                  eq_refl eq_refl eq_refl eq_refl eq_refl) as (_ & _ & _ & H).
    destruct H as (s' & other' & Hrun & Hps & Ho & Hev & _).
    + reflexivity.
    + vm_compute. reflexivity.
    + vm_compute. reflexivity.
    + exists s', other'. split; [exact Hrun|]. rewrite Hps, Hev, Ho.
      repeat split.
Defined.

(** ** Reproduction estimate *)

Lemma sumCounts_totalInfections (s : Sim) (l : list nat) :
  foldr (λ infector acc, (acc + countOf s infector)%Z) 0%Z l = sumCounts s l.
Proof. unfold sumCounts. induction l as [|k l IH]; simpl; [done | lia]. Qed.

Lemma sumCounts_perm (s : Sim) (l1 l2 : list nat) :
  l1 ≡ₚ l2 → sumCounts s l1 = sumCounts s l2.
Proof.
  unfold sumCounts. induction 1; simpl; lia.
Qed.

(** C6.  The estimate is the mean, over the distinct sources with an event
    in the trailing window, of the count currently recorded for the source,
    and 0 when there is no such source; in particular it is 0 while the
    event log is empty. *)
Theorem newRt_spec (s : Sim) (srcs : list nat) :
  NoDup srcs →
  (∀ k, k ∈ srcs ↔ ∃ e, e ∈ infectionEvents s ∧ infectorIndex e = k ∧ inWindow s e) →
  newRt s = match srcs with
            | [] => 0
            | _ => ofZ (sumCounts s srcs) / ofZ (Z.of_nat (length srcs))
            end
  ∧ (infectionEvents s = [] → newRt s = 0).
Proof.
  intros Hnd Hsrc.
  assert (elements (activeInfectors s) ≡ₚ srcs) as Hperm.
  { apply NoDup_Permutation; [apply NoDup_elements | done |].
    intros k. rewrite elem_of_elements. unfold activeInfectors.
    rewrite elem_of_list_to_set, list_elem_of_fmap, Hsrc.
    unfold recentEvents, inWindow, windowSize.
    split.
    - intros (e & -> & He). apply list_elem_of_filter in He as [? ?]. eauto.
    - intros (e & He & <- & Hw). exists e. split; [done|].
      apply list_elem_of_filter. done. }
  assert (newRt s = match srcs with
            | [] => 0
            | _ => ofZ (sumCounts s srcs) / ofZ (Z.of_nat (length srcs))
            end) as Hrt.
  { unfold newRt, totalInfections. rewrite sumCounts_totalInfections.
    rewrite (sumCounts_perm s _ _ Hperm).
    unfold size, set_size. simpl. rewrite (Permutation_length Hperm).
    destruct srcs; simpl; done. }
  split; [exact Hrt|].
  intros Hnil. rewrite Hrt. destruct srcs as [|k srcs]; [done|].
  exfalso. destruct (proj1 (Hsrc k)) as (e & He & _); [by left|].
  rewrite Hnil in He. by apply elem_of_nil in He.
Qed.

(** The estimate on [rtState]: sources 3 and 7, counts 4 and 1. *)
Lemma newRt_spec_witness : newRt rtState = Q2Qc (5 # 2).
Proof.
  destruct (newRt_spec rtState [3; 7]%nat) as [-> _].
  - apply NoDup_cons. split; [|apply NoDup_singleton].
    intros H. apply list_elem_of_singleton in H. discriminate.
  - intros k. unfold inWindow. simpl. split.
    + intros H. apply elem_of_cons in H as [->|H].
      * exists (mkEvent 3 60). split; [set_solver|]. split; [done | simpl; lia].
      * apply list_elem_of_singleton in H as ->.
        exists (mkEvent 7 99). split; [set_solver|]. split; [done | simpl; lia].
    + intros (e & He & <- & Hw).
      repeat (apply elem_of_cons in He as [->|He]); simpl in *;
        try set_solver; try lia.
  - apply Qc_is_canon. reflexivity.
Defined.

(** ** The motion loop *)

Ltac unfold_M :=
  unfold liftOpt, throw, rand0, rand, CENTRE_DURATION, random in *;
  unfold mbind, M_bind, mret, M_ret in *.

Ltac psimpl :=
  cbn [x y vx vy status timeInfected willDie infectionCount homeCommunity
       currentCommunity isVisiting isTravelling travelTargetX travelTargetY
       travellingBack visitTimeLeft atCentre centreTimeLeft quarantined
       timeSinceInfected quarantineEntryAnim releasedFromQuarantine
       quarantineEligible goingHomeAnim set_x set_y set_vx set_vy set_status
       set_timeInfected set_willDie set_infectionCount set_currentCommunity
       set_isVisiting set_isTravelling set_travelTargetX set_travelTargetY
       set_travellingBack set_visitTimeLeft set_atCentre set_centreTimeLeft
       set_quarantined set_timeSinceInfected set_quarantineEntryAnim
       set_quarantineEligible set_goingHomeAnim
       health place fst snd] in *.

Ltac crunch :=
  unfold_M; cbv zeta in *;
  repeat (case_match; simplify_eq); try done;
  psimpl; repeat split; try (done || congruence || lia).

Section Motion.

Context (host : Host).

(** *** The motion loop never touches the health of a particle *)

Lemma quarantineLogic_health cfg p n p' n' :
  quarantineLogic host cfg p n = Some (p', n') → health p' = health p.
Proof. unfold quarantineLogic, startQuarantineEntry. intros H. crunch. Qed.

Lemma animateEntry_health a p : health (animateEntry host a p) = health p.
Proof. unfold animateEntry. crunch. Qed.

Lemma animateGoingHome_health a p n p' n' :
  animateGoingHome host a p n = Some (p', n') → health p' = health p.
Proof. unfold animateGoingHome. intros H. crunch. Qed.

Lemma bounce_health b p : health (bounce b p) = health p.
Proof. unfold bounce. crunch. Qed.

Lemma centreEntry_health b p n p' n' :
  centreEntry host b p n = Some (p', n') → health p' = health p.
Proof. unfold centreEntry. intros H. crunch. Qed.

Lemma centreMotion_health b p n p' n' :
  centreMotion host b p n = Some (p', n') → health p' = health p.
Proof. unfold centreMotion. intros H. crunch. Qed.

Lemma travelStep_health p n p' n' :
  travelStep host p n = Some (p', n') → health p' = health p.
Proof. unfold travelStep. intros H. crunch. Qed.

Lemma brownian_health b p n p' n' :
  brownian host b p n = Some (p', n') → health p' = health p.
Proof. unfold brownian. intros H. crunch. Qed.

Lemma randomTravel_health p n p' n' :
  randomTravel host p n = Some (p', n') → health p' = health p.
Proof. unfold randomTravel. intros H. crunch. Qed.

Lemma visitExpiry_health p : health (visitExpiry p) = health p.
Proof. unfold visitExpiry. crunch. Qed.

Lemma normalBehaviour_health p n p' n' :
  normalBehaviour host p n = Some (p', n') → health p' = health p.
Proof.
  unfold normalBehaviour. intros H.
  apply bind_Some in H as (b & n1 & _ & H). cbv zeta in H.
  apply bind_Some in H as (p1 & n2 & H1 & H).
  apply centreEntry_health in H1. rewrite bounce_health in H1.
  rewrite <- H1. clear H1.
  destruct (atCentre p1); [by eapply centreMotion_health|].
  destruct (isTravelling p1); [by eapply travelStep_health|].
  apply bind_Some in H as (p2 & n3 & H2 & H).
  apply bind_Some in H as (p3 & n4 & H3 & H).
  apply ret_Some in H as [<- _].
  rewrite visitExpiry_health.
  apply brownian_health in H2. apply randomTravel_health in H3. congruence.
Qed.

Lemma moveParticle_health cfg p n p' n' :
  moveParticle host cfg p n = Some (p', n') → health p' = health p.
Proof.
  unfold moveParticle. intros H.
  apply bind_Some in H as (p1 & n1 & H1 & H).
  apply quarantineLogic_health in H1. rewrite <- H1. clear H1.
  destruct (entryAnimating p1) as [a|].
  { apply ret_Some in H as [<- _]. apply animateEntry_health. }
  destruct (homeAnimating p1) as [a|]; [by eapply animateGoingHome_health|].
  destruct (quarantined p1).
  - by apply ret_Some in H as [<- _].
  - by eapply normalBehaviour_health.
Qed.

(** *** Quarantined flag and registered region move together *)

Lemma placed_place p p' : place p' = place p → placed p → placed p'.
Proof. unfold place, placed. intros [= -> -> ->]. done. Qed.

Lemma quarantineLogic_place cfg p n p' n' :
  quarantineLogic host cfg p n = Some (p', n') → place p' = place p.
Proof. unfold quarantineLogic, startQuarantineEntry. intros H. crunch. Qed.

Lemma animateEntry_placed a p : placed p → placed (animateEntry host a p).
Proof. unfold animateEntry, placed. intros [H1 H2]. crunch. Qed.

Lemma home_not_quarantine p :
  (0 ≤ homeCommunity p ≤ 7)%Z →
  (homeCommunity p =? QUARANTINE_COMMUNITY_IDX)%Z = false.
Proof. intros H. apply Z.eqb_neq. unfold QUARANTINE_COMMUNITY_IDX. lia. Qed.

Lemma animateGoingHome_placed a p n p' n' :
  animateGoingHome host a p n = Some (p', n') → placed p → placed p'.
Proof.
  unfold animateGoingHome, placed. intros H [H1 H2].
  pose proof (home_not_quarantine p H2). crunch.
Qed.

Lemma bounce_place b p : place (bounce b p) = place p.
Proof. unfold bounce. crunch. Qed.

Lemma centreEntry_place b p n p' n' :
  centreEntry host b p n = Some (p', n') → place p' = place p.
Proof. unfold centreEntry. intros H. crunch. Qed.

Lemma centreMotion_place b p n p' n' :
  centreMotion host b p n = Some (p', n') → place p' = place p.
Proof. unfold centreMotion. intros H. crunch. Qed.

Lemma travelStep_placed p n p' n' :
  travelStep host p n = Some (p', n') →
  quarantined p = false → placed p → placed p' ∧ quarantined p' = false.
Proof.
  unfold travelStep, placed. intros H Hq [H1 H2].
  pose proof (home_not_quarantine p H2). rewrite Hq in H1.
  crunch.
Qed.

Lemma brownian_place b p n p' n' :
  brownian host b p n = Some (p', n') → place p' = place p.
Proof. unfold brownian. intros H. crunch. Qed.

Lemma available_normal p c : c ∈ available p → (0 ≤ c ≤ 7)%Z.
Proof.
  unfold available. intros H. apply list_elem_of_filter in H as [_ H].
  vm_compute in H. repeat (apply elem_of_cons in H as [->|H]; [lia|]).
  by apply elem_of_nil in H.
Qed.

Lemma randomTravel_placed p n p' n' :
  randomTravel host p n = Some (p', n') →
  quarantined p = false → placed p → placed p' ∧ quarantined p' = false.
Proof.
  unfold randomTravel, placed. intros H Hq [H1 H2]. rewrite Hq in H1.
  unfold_M. cbv zeta in H.
  repeat (case_match; simplify_eq); try done;
    psimpl; try (repeat split; (done || congruence || lia)).
  split; [|done]. split; [|done].
  rewrite Hq. symmetry. apply Z.eqb_neq.
  assert (0 ≤ z ≤ 7)%Z; [|unfold QUARANTINE_COMMUNITY_IDX; lia].
  eapply available_normal, list_elem_of_lookup_2. eassumption.
Qed.

Lemma visitExpiry_placed p :
  quarantined p = false → placed p →
  placed (visitExpiry p) ∧ quarantined (visitExpiry p) = false.
Proof.
  unfold visitExpiry, placed. intros Hq [H1 H2].
  pose proof (home_not_quarantine p H2). rewrite Hq in H1. crunch.
Qed.

Lemma normalBehaviour_placed p n p' n' :
  normalBehaviour host p n = Some (p', n') →
  quarantined p = false → placed p → placed p'.
Proof.
  unfold normalBehaviour. intros H Hq Hpl.
  apply bind_Some in H as (b & n1 & _ & H). cbv zeta in H.
  apply bind_Some in H as (p1 & n2 & H1 & H).
  apply centreEntry_place in H1. rewrite bounce_place in H1.
  assert (placed p1) as Hpl1 by (by eapply placed_place).
  assert (quarantined p1 = false) as Hq1 by (unfold place in H1; congruence).
  clear H1 Hpl Hq.
  destruct (atCentre p1).
  { apply centreMotion_place in H. by eapply placed_place. }
  destruct (isTravelling p1).
  { by eapply travelStep_placed. }
  apply bind_Some in H as (p2 & n3 & H2 & H).
  apply bind_Some in H as (p3 & n4 & H3 & H).
  apply ret_Some in H as [<- _].
  apply brownian_place in H2.
  assert (placed p2) as Hpl2 by (by eapply placed_place).
  assert (quarantined p2 = false) as Hq2 by (unfold place in H2; congruence).
  destruct (randomTravel_placed _ _ _ _ H3 Hq2 Hpl2) as [Hpl3 Hq3].
  by apply visitExpiry_placed.
Qed.

Lemma moveParticle_placed cfg p n p' n' :
  moveParticle host cfg p n = Some (p', n') → placed p → placed p'.
Proof.
  unfold moveParticle. intros H Hpl.
  apply bind_Some in H as (p1 & n1 & H1 & H).
  apply quarantineLogic_place in H1.
  assert (placed p1) as Hpl1 by (by eapply placed_place). clear H1 Hpl.
  destruct (entryAnimating p1) as [a|].
  { apply ret_Some in H as [<- _]. by apply animateEntry_placed. }
  destruct (homeAnimating p1) as [a|]; [by eapply animateGoingHome_placed|].
  destruct (quarantined p1) eqn:Hq.
  - by apply ret_Some in H as [<- _].
  - by eapply normalBehaviour_placed.
Qed.

End Motion.

(** ** The infection logic, particle by particle *)

Section Infection.

Context (host : Host).

Global Instance evolves_refl : Reflexive evolves.
Proof. intros p. by left. Qed.

Global Instance evolves_trans : Transitive evolves.
Proof.
  intros p q r H1 H2. unfold evolves in *.
  destruct H1 as [->|(Hpl1 & H1)], H2 as [->|(Hpl2 & H2)].
  - by left.
  - right. done.
  - right. done.
  - right. split; [congruence|].
    assert (quarantined q = quarantined p) as Hq
      by (unfold place in Hpl1; congruence).
    destruct H1 as [[Ha Hb]|(Ha & Hb & Hc)], H2 as [[Hd He]|(Hd & He & Hf)].
    + congruence.
    + congruence.
    + destruct Hc as [Hc|[Hc|Hc]]; congruence.
    + right. done.
Qed.

Lemma Forall2_evolves_insert (l0 l : list Particle) (j : nat) (a b : Particle) :
  Forall2 evolves l0 l → l !! j = Some a → evolves a b →
  Forall2 evolves l0 (<[j := b]> l).
Proof.
  intros H Ha Hab. apply Forall2_same_length_lookup. split.
  - rewrite length_insert. by eapply Forall2_length.
  - intros k u v Hu Hv. destruct (decide (k = j)) as [->|Hne].
    + rewrite list_lookup_insert_eq in Hv by (by eapply lookup_lt_Some).
      injection Hv as <-. transitivity a; [|done].
      eapply Forall2_lookup_lr; eauto.
    + rewrite list_lookup_insert_ne in Hv by done.
      eapply Forall2_lookup_lr; eauto.
Qed.

Lemma Forall2_evolves_refl (l : list Particle) : Forall2 evolves l l.
Proof. apply Forall_Forall2_diag, Forall_forall. intros; reflexivity. Qed.

(** A loop whose iterations act particle by particle does so as a whole. *)
Lemma forM_evolves {A : Type} (body : A → Sim → M Sim) (l : list A) :
  (∀ a s n s' n', body a s n = Some (s', n') →
     Forall2 evolves (particles s) (particles s')) →
  ∀ s n s' n', forM body l s n = Some (s', n') →
     Forall2 evolves (particles s) (particles s').
Proof.
  intros Hbody s n s' n' Hrun.
  eapply (forM_preserves (λ t, Forall2 evolves (particles s) (particles t)));
    [| apply Forall2_evolves_refl | exact Hrun].
  intros a t m t' m' _ Ht Hstep.
  apply Hbody in Hstep. by etrans.
Qed.

Lemma contact_evolves cfg i j s n s' n' :
  contact host cfg i j s n = Some (s', n') →
  Forall2 evolves (particles s) (particles s').
Proof.
  unfold contact. intros H.
  destruct (bool_decide (i = j));
    [apply ret_Some in H as [<- _]; apply Forall2_evolves_refl|].
  destruct (particles s !! i) as [p|];
    [|apply ret_Some in H as [<- _]; apply Forall2_evolves_refl].
  destruct (particles s !! j) as [other|] eqn:Ho;
    [|apply ret_Some in H as [<- _]; apply Forall2_evolves_refl].
  unfold Status_eqb in H. case_bool_decide as Hh; simpl in H;
    [|apply ret_Some in H as [<- _]; apply Forall2_evolves_refl].
  destruct (mayMeet p other);
    [|apply ret_Some in H as [<- _]; apply Forall2_evolves_refl].
  destruct (withinRadius cfg p other);
    [|apply ret_Some in H as [<- _]; apply Forall2_evolves_refl].
  apply bind_Some in H as (d & n1 & _ & H).
  destruct (Qcltb d _);
    apply ret_Some in H as [<- _]; [|apply Forall2_evolves_refl].
  unfold infect. simpl.
  eapply Forall2_evolves_insert; [apply Forall2_evolves_refl | exact Ho |].
  right. split; [reflexivity|]. left. done.
Qed.

Lemma spread_evolves cfg cellSize community hash i p s n s' n' :
  spread host cfg cellSize community hash i p s n = Some (s', n') →
  Forall2 evolves (particles s) (particles s').
Proof.
  unfold spread. apply forM_evolves.
  intros [nx ny] t m t' m' H.
  destruct (hash !! _) as [idxs|].
  - revert H. apply forM_evolves. intros j. apply contact_evolves.
  - apply ret_Some in H as [<- _]. apply Forall2_evolves_refl.
Qed.

Lemma infectFrom_evolves cfg cellSize community hash i s n s' n' :
  infectFrom host cfg cellSize community hash i s n = Some (s', n') →
  Forall2 evolves (particles s) (particles s').
Proof.
  unfold infectFrom. intros H.
  destruct (particles s !! i) as [p|] eqn:Hp;
    [|apply ret_Some in H as [<- _]; apply Forall2_evolves_refl].
  destruct (negb _ || quarantined p || negb _) eqn:Hguard;
    [apply ret_Some in H as [<- _]; apply Forall2_evolves_refl|].
  apply orb_false_iff in Hguard as [Hguard Hst].
  apply orb_false_iff in Hguard as [_ Hq].
  apply negb_false_iff in Hst. unfold Status_eqb in Hst.
  apply bool_decide_eq_true in Hst.
  cbv zeta in H. apply bind_Some in H as ([p1 counts] & n1 & Hdraw & H).
  assert (place p1 = place p ∧ status p1 = infected) as [Hpl1 Hst1].
  { destruct (willDie _); unfold_M; simplify_eq; done. }
  assert (∀ st, st = infected ∨ st = recovered ∨ st = dead →
            evolves p (set_status st p1)) as Hev.
  { intros st Hcases. right. split; [exact Hpl1|]. right. done. }
  clear Hdraw.
  destruct (bool_decide _ && Qcltb _ _).
  { apply ret_Some in H as [<- _]. simpl.
    eapply Forall2_evolves_insert; [apply Forall2_evolves_refl|exact Hp|].
    apply Hev. auto. }
  destruct (negb _ && Qcltb _ _).
  { apply ret_Some in H as [<- _]. simpl.
    eapply Forall2_evolves_insert; [apply Forall2_evolves_refl|exact Hp|].
    apply Hev. auto. }
  apply spread_evolves in H. simpl in H.
  etrans; [|exact H].
  eapply Forall2_evolves_insert; [apply Forall2_evolves_refl|exact Hp|].
  right. split; [exact Hpl1|]. right. auto.
Qed.

Lemma infectionLogic_evolves cfg s n s' n' :
  infectionLogic host cfg s n = Some (s', n') →
  Forall2 evolves (particles s) (particles s').
Proof.
  unfold infectionLogic. apply forM_evolves.
  intros community t m t' m'. unfold infectCommunity.
  apply forM_evolves. intros i. apply infectFrom_evolves.
Qed.

(** *** One tick, particle by particle *)

Lemma tick_pointwise cfg s n s' n' :
  tick host cfg s n = Some (s', n') →
  Forall2 (tickRel host cfg) (particles s) (particles s').
Proof.
  unfold tick. intros H. cbv zeta in H. simpl in H.
  apply bind_Some in H as (ps1 & n1 & Hmove & H).
  apply bind_Some in H as (s2 & n2 & Hinf & H).
  apply ret_Some in H as [<- _]. simpl.
  apply mapM_Forall2 in Hmove.
  pose proof (infectionLogic_evolves _ _ _ _ _ Hinf) as Hev. simpl in Hev.
  apply Forall2_fmap_r.
  apply Forall2_same_length_lookup. split.
  - rewrite (Forall2_length _ _ _ Hmove). by eapply Forall2_length.
  - intros k p p2 Hp Hp2.
    destruct (Forall2_lookup_l _ _ _ _ _ Hmove Hp) as (p1 & Hp1 & Hm).
    exists p1, p2. repeat split; [exact Hm|].
    eapply Forall2_lookup_lr; eauto.
Qed.

End Infection.

(** ** Invariants of a tick *)

Section Ticks.

Context (host : Host).

Lemma incubate_place cfg p : place (incubate cfg p) = place p.
Proof. unfold incubate. repeat case_match; done. Qed.

Lemma incubate_later cfg p : later (status p) (status (incubate cfg p)).
Proof.
  unfold incubate, Status_eqb. case_bool_decide as He; [|by left].
  repeat case_match; simpl; try (by left); right; rewrite He; simpl; lia.
Qed.

Lemma incubate_other cfg p : status p ≠ exposed → incubate cfg p = p.
Proof. unfold incubate, Status_eqb. intros H. by rewrite bool_decide_eq_false_2. Qed.

Global Instance later_refl : Reflexive later.
Proof. intros a. by left. Qed.

Global Instance later_trans : Transitive later.
Proof. intros a b c [->|H1] [->|H2]; unfold later; auto. right. lia. Qed.

Lemma evolves_later p p' : evolves p p' → later (status p) (status p').
Proof.
  intros [->|(_ & [[-> ->]|(-> & _ & [->|[->| ->]])])];
    unfold later; simpl; auto.
Qed.

Lemma evolves_place p p' : evolves p p' → place p' = place p.
Proof. intros [->|[? _]]; done. Qed.

Lemma tickRel_later cfg p p' :
  tickRel host cfg p p' → later (status p) (status p').
Proof.
  intros (p1 & p2 & (n1 & n2 & Hm) & Hev & ->).
  apply moveParticle_health in Hm.
  assert (status p1 = status p) as <- by (unfold health in Hm; congruence).
  etrans; [by apply evolves_later | apply incubate_later].
Qed.

Lemma tickRel_placed cfg p p' : tickRel host cfg p p' → placed p → placed p'.
Proof.
  intros (p1 & p2 & (n1 & n2 & Hm) & Hev & ->) Hpl.
  eapply placed_place; [apply incubate_place|].
  eapply placed_place; [by apply evolves_place|].
  by eapply moveParticle_placed.
Qed.

(** The motion loop leaves a confined particle confined. *)
Lemma moveParticle_confined cfg p n p' n' :
  moveParticle host cfg p n = Some (p', n') → confined p → confined p'.
Proof.
  unfold moveParticle, confined. intros H (Hst & Hq & He & Hh).
  apply bind_Some in H as (p1 & n1 & H1 & H).
  assert (status p1 = infected ∧ quarantined p1 = true
          ∧ quarantineEntryAnim p1 = None ∧ goingHomeAnim p1 = None)
    as (Hst1 & Hq1 & He1 & Hh1).
  { clear H. unfold quarantineLogic, startQuarantineEntry, Status_eqb in H1.
    unfold_M. cbv zeta in H1.
    repeat (case_match; simplify_eq); psimpl;
      repeat case_bool_decide; simplify_eq; psimpl;
      try (rewrite Hq in *; cbn [andb orb negb] in *; done);
      repeat split; try (done || congruence). }
  unfold entryAnimating, homeAnimating in H. rewrite He1, Hh1, Hq1 in H.
  apply ret_Some in H as [<- _]. done.
Qed.

Lemma tickRel_confined cfg p p' :
  tickRel host cfg p p' → confined p →
  confined p' ∧ timeInfected p' = timeInfected p.
Proof.
  intros (p1 & p2 & (n1 & n2 & Hm) & Hev & ->) Hc.
  pose proof (moveParticle_confined _ _ _ _ _ Hm Hc) as (Hst & Hq & He & Hh).
  apply moveParticle_health in Hm.
  assert (p2 = p1) as ->.
  { destruct Hev as [->|(_ & [[? _]|(_ & ? & _)])]; [done| |]; congruence. }
  rewrite incubate_other by congruence.
  split; [done|]. unfold health in Hm. congruence.
Qed.

Lemma tick_length cfg s n s' n' :
  tick host cfg s n = Some (s', n') →
  length (particles s') = length (particles s).
Proof.
  intros H. apply tick_pointwise in H. symmetry. by eapply Forall2_length.
Qed.

(** *** Several ticks *)

Lemma ticks_lookup s n s' n' i p :
  ticks host s n s' n' → particles s !! i = Some p →
  ∃ p', particles s' !! i = Some p'.
Proof.
  intros Hticks. revert p.
  induction Hticks as [|cfg s n s1 n1 s2 n2 Ht _ IH]; intros p Hp; [eauto|].
  apply tick_pointwise in Ht.
  destruct (Forall2_lookup_l _ _ _ _ _ Ht Hp) as (p1 & Hp1 & _). eauto.
Qed.

(** A property of a particle that every tick preserves holds after any
    number of ticks. *)
Lemma ticks_preserve (P : Particle → Particle → Prop) :
  (∀ p, P p p) →
  (∀ cfg p p1 p2, tickRel host cfg p p1 → P p1 p2 → P p p2) →
  ∀ s n s' n' i p p',
    ticks host s n s' n' →
    particles s !! i = Some p → particles s' !! i = Some p' → P p p'.
Proof.
  intros Hrefl Hstep s n s' n' i p p' Hticks. revert p.
  induction Hticks as [|cfg s n s1 n1 s2 n2 Ht _ IH]; intros p Hp Hp'.
  - assert (p' = p) as -> by congruence. apply Hrefl.
  - apply tick_pointwise in Ht.
    destruct (Forall2_lookup_l _ _ _ _ _ Ht Hp) as (p1 & Hp1 & Hrel).
    eapply Hstep; [exact Hrel|]. by apply IH.
Qed.

(** C9.  Over any number of ticks the status of a particle only moves
    forward: a recovered or dead particle keeps its status, and a particle
    found exposed was healthy or already exposed before. *)
Theorem terminal_status_absorbing (s s' : Sim) (n n' : N) (i : nat)
    (p : Particle) :
  ticks host s n s' n' →
  particles s !! i = Some p →
  ∃ p', particles s' !! i = Some p'
        ∧ (status p = recovered ∨ status p = dead → status p' = status p)
        ∧ (status p' = exposed → status p = healthy ∨ status p = exposed).
Proof.
  intros Hticks Hp.
  destruct (ticks_lookup _ _ _ _ _ _ Hticks Hp) as [p' Hp'].
  exists p'. split; [done|].
  assert (later (status p) (status p')) as Hlater.
  { eapply (ticks_preserve (λ a b, later (status a) (status b)));
      [reflexivity | | exact Hticks | exact Hp | exact Hp'].
    intros cfg a b c Hab Hbc. etrans; [by eapply tickRel_later | done]. }
  destruct Hlater as [->|Hlt]; [split; [done | auto]|].
  split.
  - intros [Hs|Hs]; rewrite Hs in Hlt; simpl in Hlt;
      destruct (status p'); simpl in Hlt; lia.
  - intros Hs. rewrite Hs in Hlt.
    destruct (status p); simpl in Hlt; auto; lia.
Qed.

(** C1 (what the code does).  A particle that is infected and held in
    quarantine is never advanced: after any number of ticks it is still
    infected, still quarantined, and its time in status has not moved. *)
Theorem quarantined_infected_never_progresses (s s' : Sim) (n n' : N)
    (i : nat) (p : Particle) :
  ticks host s n s' n' →
  particles s !! i = Some p →
  confined p →
  ∃ p', particles s' !! i = Some p'
        ∧ status p' = infected ∧ quarantined p' = true
        ∧ timeInfected p' = timeInfected p.
Proof.
  intros Hticks Hp Hc.
  destruct (ticks_lookup _ _ _ _ _ _ Hticks Hp) as [p' Hp'].
  exists p'. split; [done|].
  assert (confined p → confined p' ∧ timeInfected p' = timeInfected p) as H.
  { eapply (ticks_preserve
              (λ a b, confined a → confined b ∧ timeInfected b = timeInfected a));
      [auto | | exact Hticks | exact Hp | exact Hp'].
    intros cfg a b c Hab Hbc Ha.
    destruct (tickRel_confined _ _ _ Hab Ha) as [Hb Ht].
    destruct (Hbc Hb) as [Hcc Ht']. split; [done | congruence]. }
  destruct (H Hc) as [(? & ? & _) ?]. done.
Qed.

End Ticks.

(** ** Reachable states *)

Section Reachable.

Context (host : Host).

Lemma initParticle_placed k i n p n' :
  initParticle host k i n = Some (p, n') → placed p.
Proof.
  unfold initParticle. intros H. cbv zeta in H.
  assert (0 ≤ Z.min (Z.of_nat i / PARTICLES_PER_COMMUNITY) (NORMAL_COMMUNITIES - 1) ≤ 7)%Z
    as Hhome.
  { assert (0 ≤ Z.of_nat i / PARTICLES_PER_COMMUNITY)%Z
      by (apply Z.div_pos; [lia | reflexivity]).
    change (NORMAL_COMMUNITIES - 1)%Z with 7%Z. lia. }
  unfold_M. repeat (case_match; simplify_eq).
  all: unfold placed; psimpl; (split; [|done]).
  all: symmetry; apply Z.eqb_neq; unfold QUARANTINE_COMMUNITY_IDX; lia.
Qed.

Lemma initialState_spec count k n ps n' :
  initialState host count k n = Some (ps, n') →
  length ps = count ∧ Forall placed ps.
Proof.
  unfold initialState. intros H. apply mapM_Forall2 in H. split.
  - apply Forall2_length in H. by rewrite length_seq in H.
  - apply Forall_forall. intros p Hp.
    apply list_elem_of_lookup in Hp as [j Hp].
    destruct (Forall2_lookup_r _ _ _ _ _ H Hp) as (i & _ & n1 & n2 & Hi).
    by eapply initParticle_placed.
Qed.

Lemma tick_placed cfg s n s' n' :
  tick host cfg s n = Some (s', n') →
  Forall placed (particles s) → Forall placed (particles s').
Proof.
  intros H Hpl. apply tick_pointwise in H.
  apply Forall_forall. intros p' Hp'.
  apply list_elem_of_lookup in Hp' as [j Hp'].
  destruct (Forall2_lookup_r _ _ _ _ _ H Hp') as (p & Hp & Hrel).
  eapply tickRel_placed; [exact Hrel|].
  eapply Forall_lookup_1; eauto.
Qed.

Lemma reachable_invariant s n :
  reachable host s n →
  length (particles s) = PARTICLE_COUNT ∧ Forall placed (particles s).
Proof.
  induction 1 as [k n n' ps Hinit|cfg s s' n n' _ [IHlen IHpl] Htick].
  - by apply initialState_spec in Hinit.
  - split.
    + by rewrite (tick_length _ _ _ _ _ _ Htick).
    + by eapply tick_placed.
Qed.

Lemma reachable_forM cfg l s n s' n' :
  reachable host s n →
  forM (λ _ : nat, tick host cfg) l s n = Some (s', n') →
  reachable host s' n'.
Proof.
  revert s n. induction l as [|a l IH]; intros s n Hs H; simpl in H.
  - by apply ret_Some in H as [<- <-].
  - apply bind_Some in H as (s1 & n1 & H1 & H).
    eapply IH; [|exact H]. by eapply reachable_tick.
Qed.

Lemma run_reachable cfg k s n :
  run host cfg k = Some (s, n) → reachable host s n.
Proof.
  unfold run. intros H.
  destruct (restartSimulation host cfg 0%N) as [[a n0]|] eqn:Hstart; [|done].
  unfold restartSimulation in Hstart.
  apply bind_Some in Hstart as (ps & n1 & Hinit & Hret).
  apply ret_Some in Hret as [<- <-]. simpl in H.
  eapply reachable_forM; [|exact H].
  by eapply reachable_start.
Qed.

(** *** Counting *)

Lemma census_ext (f g : Particle → bool) ps :
  Forall (λ p, f p = g p) ps → census f ps = census g ps.
Proof.
  unfold census. induction 1 as [|p ps Hp _ IH]; [done|].
  rewrite !filter_cons, Hp. destruct (decide (g p = true)); simpl; lia.
Qed.

Lemma foldl_countParticle_total ps c :
  (statusTotal (foldl countParticle c ps) + c_quarantined (foldl countParticle c ps)
   = statusTotal c + c_quarantined c + length ps)%nat
  ∧ (c_quarantined (foldl countParticle c ps)
     = c_quarantined c + census quarantined ps)%nat.
Proof.
  revert c. induction ps as [|p ps IH]; intros c; simpl.
  - unfold census. simpl. lia.
  - destruct (IH (countParticle c p)) as [-> ->].
    unfold census. rewrite filter_cons.
    destruct c as [h e i r d q]. unfold countParticle, statusTotal.
    destruct (quarantined p); simpl; [lia|].
    destruct (status p); simpl; lia.
Qed.

(** C4 (as amended).  In every snapshot of a reachable state the five
    status counts and the separate quarantined count add up to the 500
    particles: a quarantined particle is counted as quarantined instead of
    under its status. *)
Theorem snapshot_conservation (s : Sim) (n : N) :
  reachable host s n →
  (statusTotal (tally (particles s)) + c_quarantined (tally (particles s))
   = PARTICLE_COUNT)%nat
  ∧ c_quarantined (tally (particles s)) = census quarantined (particles s).
Proof.
  intros H. apply reachable_invariant in H as [Hlen _].
  unfold tally.
  destruct (foldl_countParticle_total (particles s) (mkCounts 0 0 0 0 0 0))
    as [-> ->].
  rewrite Hlen. done.
Qed.

End Reachable.

(** *** Two runs *)

Lemma transit_run : transitRunCheck (run halfHost quarantineConfig 5) = true.
Proof. vm_compute. reflexivity. Qed.

Lemma flight_run : flightRunCheck (run halfHost quarantineConfig 5) = true.
Proof. vm_compute. reflexivity. Qed.

Lemma quarantined_run :
  quarantinedRunCheck (run halfHost quarantineConfig 74) = true.
Proof. vm_compute. reflexivity. Qed.

(** ** Witnesses and counterexamples on reachable states *)

(** C3, as stated, fails five ticks after a restart: particle 0 is en route
    to quarantine (pending entry animation) while no particle is registered
    in region 8. *)
Lemma transit_breaks_region_census :
  ∃ s n, reachable halfHost s n
         ∧ census inQuarantineRegion (particles s)
           ≠ census quarantineStatus (particles s).
Proof.
  pose proof transit_run as Hcheck.
  destruct (run halfHost quarantineConfig 5) as [[s n]|] eqn:Hrun; [|done].
  exists s, n. split; [by eapply run_reachable|].
  unfold transitRunCheck in Hcheck.
  apply andb_true_iff in Hcheck as [H0 H1].
  apply Nat.eqb_eq in H0, H1. rewrite H0, H1. discriminate.
Qed.

(** The snapshot 74 ticks after a restart, particle 0 sitting in
    quarantine: 499 particles counted under their status and one counted
    as quarantined. *)
Lemma snapshot_conservation_witness :
  ∃ s n, reachable halfHost s n
         ∧ (statusTotal (tally (particles s)) + c_quarantined (tally (particles s))
            = PARTICLE_COUNT)%nat
         ∧ statusTotal (tally (particles s)) = 499%nat
         ∧ c_quarantined (tally (particles s)) = 1%nat.
Proof.
  pose proof quarantined_run as Hcheck.
  destruct (run halfHost quarantineConfig 74) as [[s n]|] eqn:Hrun; [|done].
  pose proof (run_reachable _ _ _ _ _ Hrun) as Hr.
  unfold quarantinedRunCheck in Hcheck.
  apply andb_true_iff in Hcheck as [Hcheck _].
  apply andb_true_iff in Hcheck as [H0 H1].
  apply Nat.eqb_eq in H0, H1.
  exists s, n. split; [exact Hr|].
  split; [apply (snapshot_conservation halfHost s n Hr)|]. split; done.
Defined.

(** C4, as stated, fails 74 ticks after a restart: particle 0 has
    reached quarantine and the five status counts sum to 499. *)
Lemma quarantine_breaks_conservation :
  ∃ s n, reachable halfHost s n
         ∧ statusTotal (tally (particles s)) ≠ PARTICLE_COUNT.
Proof.
  pose proof quarantined_run as Hcheck.
  destruct (run halfHost quarantineConfig 74) as [[s n]|] eqn:Hrun; [|done].
  exists s, n. split; [by eapply run_reachable|].
  unfold quarantinedRunCheck in Hcheck.
  apply andb_true_iff in Hcheck as [Hcheck _].
  apply andb_true_iff in Hcheck as [H0 _].
  apply Nat.eqb_eq in H0. rewrite H0. discriminate.
Qed.

Lemma confinedb_confined p : confinedb p = true → confined p.
Proof.
  unfold confinedb, confined, Status_eqb, isNone. intros H.
  repeat (apply andb_true_iff in H as [H ?]).
  apply bool_decide_eq_true in H.
  destruct (quarantineEntryAnim p), (goingHomeAnim p); done.
Qed.

(** The state in which C1 fails is reachable: 74 ticks after a restart
    particle 0 is infected and confined in quarantine. *)
Lemma confined_reachable :
  ∃ s n p, reachable halfHost s n ∧ particles s !! 0%nat = Some p ∧ confined p.
Proof.
  pose proof quarantined_run as Hcheck.
  destruct (run halfHost quarantineConfig 74) as [[s n]|] eqn:Hrun; [|done].
  unfold quarantinedRunCheck in Hcheck.
  apply andb_true_iff in Hcheck as [_ Hp].
  destruct (particles s !! 0%nat) as [p|] eqn:Hlook; [|done].
  exists s, n, p. split; [by eapply run_reachable|].
  split; [done | by apply confinedb_confined].
Qed.

(** One tick on [confinedState]: the confined particle is not advanced. *)
Lemma quarantined_infected_never_progresses_witness :
  ∃ s1 n1 p',
    tick halfHost quarantineConfig confinedState 0%N = Some (s1, n1)
    ∧ particles s1 !! 0%nat = Some p'
    ∧ status p' = infected ∧ quarantined p' = true
    ∧ timeInfected p' = timeInfected confinedParticle.
Proof.
  destruct (tick halfHost quarantineConfig confinedState 0%N)
    as [[s1 n1]|] eqn:Ht; [|vm_compute in Ht; discriminate].
  destruct (quarantined_infected_never_progresses halfHost confinedState s1
              0%N n1 0%nat confinedParticle) as (p' & Hp' & H).
  - eapply ticks_step; [exact Ht | apply ticks_refl].
  - reflexivity.
  - repeat split.
  - exists s1, n1, p'. split; [reflexivity|]. split; [exact Hp' | exact H].
Defined.

(** One tick on [recoveredState]: the recovered particle stays recovered. *)
Lemma terminal_status_absorbing_witness :
  ∃ s1 n1 p',
    tick zeroHost defaultConfig recoveredState 0%N = Some (s1, n1)
    ∧ particles s1 !! 1%nat = Some p'
    ∧ status p' = recovered.
Proof.
  destruct (tick zeroHost defaultConfig recoveredState 0%N)
    as [[s1 n1]|] eqn:Ht; [|vm_compute in Ht; discriminate].
  destruct (terminal_status_absorbing zeroHost recoveredState s1
              0%N n1 1%nat (at_ 106 100 (set_status recovered blank)))
    as (p' & Hp' & Hkeep & _).
  - eapply ticks_step; [exact Ht | apply ticks_refl].
  - reflexivity.
  - exists s1, n1, p'. split; [reflexivity|]. split; [exact Hp'|].
    apply Hkeep. by left.
Defined.

(** ** Dead particles in the motion loop *)

Section DeadMotion.

Context (host : Host).

Ltac commute :=
  intros; unfold withStatus; unfold_M; cbv zeta; psimpl;
  repeat (case_match; simplify_eq; psimpl); try done.

Lemma set_status_same p : set_status (status p) p = p.
Proof. by destruct p. Qed.

Lemma animateEntry_status st a p :
  animateEntry host a (set_status st p) = set_status st (animateEntry host a p).
Proof. unfold animateEntry. commute. Qed.

Lemma animateGoingHome_status st a p n :
  animateGoingHome host a (set_status st p) n
  = withStatus st (animateGoingHome host a p n).
Proof. unfold animateGoingHome. commute. Qed.

Lemma bounce_status st b p :
  bounce b (set_status st p) = set_status st (bounce b p).
Proof. unfold bounce. commute. Qed.

Lemma centreEntry_status st b p n :
  centreEntry host b (set_status st p) n = withStatus st (centreEntry host b p n).
Proof. unfold centreEntry. commute. Qed.

Lemma centreMotion_status st b p n :
  centreMotion host b (set_status st p) n = withStatus st (centreMotion host b p n).
Proof. unfold centreMotion. commute. Qed.

Lemma travelStep_status st p n :
  travelStep host (set_status st p) n = withStatus st (travelStep host p n).
Proof. unfold travelStep. commute. Qed.

Lemma brownian_status st b p n :
  brownian host b (set_status st p) n = withStatus st (brownian host b p n).
Proof. unfold brownian. commute. Qed.

Lemma randomTravel_status st p n :
  randomTravel host (set_status st p) n = withStatus st (randomTravel host p n).
Proof. unfold randomTravel, available. commute. Qed.

Lemma visitExpiry_status st p :
  visitExpiry (set_status st p) = set_status st (visitExpiry p).
Proof. unfold visitExpiry. commute. Qed.

Lemma bind_eq {A B : Type} (m : M A) (f : A → M B) n :
  (m ≫= f) n = match m n with Some (a, n') => f a n' | None => None end.
Proof. reflexivity. Qed.

Lemma normalBehaviour_status st p n :
  normalBehaviour host (set_status st p) n
  = withStatus st (normalBehaviour host p n).
Proof.
  unfold normalBehaviour. psimpl. rewrite !bind_eq.
  destruct (liftOpt (getCommunityBounds (currentCommunity p)) n)
    as [[b n1]|]; [|done].
  cbv zeta. rewrite bounce_status, !bind_eq, centreEntry_status.
  destruct (centreEntry host b (bounce b p) n1) as [[p1 n2]|]; [|done].
  unfold withStatus at 1. psimpl.
  destruct (atCentre p1); [apply centreMotion_status|].
  destruct (isTravelling p1); [apply travelStep_status|].
  rewrite !bind_eq, brownian_status.
  destruct (brownian host b p1 n2) as [[p2 n3]|]; [|done].
  unfold withStatus at 1.
  rewrite !bind_eq, randomTravel_status.
  destruct (randomTravel host p2 n3) as [[p3 n4]|]; [|done].
  unfold withStatus, mret, M_ret. by rewrite visitExpiry_status.
Qed.

(** Outside quarantine mode, and for a dead or healthy particle that is not
    quarantined, the quarantine life cycle does nothing. *)
Lemma quarantineLogic_idle cfg p n :
  status p = dead ∨ status p = healthy → quarantined p = false →
  quarantineLogic host cfg p n = Some (p, n).
Proof.
  intros Hst Hq. unfold quarantineLogic, Status_eqb.
  destruct (negb (quarantineMode cfg)); [done|].
  destruct p; cbn in Hst, Hq; subst.
  destruct Hst as [-> | ->]; reflexivity.
Qed.

(** C2 (as amended).  Being dead does not stop a particle: outside
    quarantine the motion loop moves a dead particle exactly as it moves a
    healthy particle with the same position, velocity and movement state. *)
Theorem dead_moves_like_healthy (cfg : Config) (p : Particle) (n : N) :
  status p = dead →
  quarantined p = false →
  moveParticle host cfg p n
  = withStatus dead (moveParticle host cfg (set_status healthy p) n).
Proof.
  intros Hst Hq.
  assert (p = set_status dead (set_status healthy p)) as Hp.
  { rewrite <- (set_status_same p) at 1. rewrite Hst. by destruct p. }
  set (q := set_status healthy p) in *.
  unfold moveParticle. rewrite !bind_eq.
  rewrite (quarantineLogic_idle cfg p n) by auto.
  rewrite (quarantineLogic_idle cfg q n) by (subst q; auto).
  rewrite Hp. clear Hp.
  change (entryAnimating (set_status dead q)) with (entryAnimating q).
  change (homeAnimating (set_status dead q)) with (homeAnimating q).
  change (quarantined (set_status dead q)) with (quarantined q).
  destruct (entryAnimating q) as [a|].
  { unfold mret, M_ret, withStatus. by rewrite animateEntry_status. }
  destruct (homeAnimating q) as [a|]; [apply animateGoingHome_status|].
  destruct (quarantined q); [done|].
  apply normalBehaviour_status.
Qed.

End DeadMotion.

(** The step of [deadWalker] and of its healthy twin. *)
Lemma dead_moves_like_healthy_witness :
  moveParticle halfHost defaultConfig deadWalker 0%N
  = withStatus dead
      (moveParticle halfHost defaultConfig (set_status healthy deadWalker) 0%N).
Proof. apply (dead_moves_like_healthy halfHost); reflexivity. Defined.

(** C2, as stated, fails for a dead particle with velocity 0.1 settled in
    region 0: Brownian motion carries it from x = 100 to x = 100.1. *)
Lemma dead_particle_moves :
  ¬ (∀ (cfg : Config) (p p' : Particle) (n n' : N),
       status p = dead → homeAnimating p = None →
       moveParticle halfHost cfg p n = Some (p', n') →
       x p' = x p ∧ y p' = y p ∧ vx p' = vx p ∧ vy p' = vy p).
Proof.
  intros H.
  destruct (moveParticle halfHost defaultConfig deadWalker 0%N)
    as [[p' n']|] eqn:Hm; [|vm_compute in Hm; discriminate].
  destruct (H defaultConfig deadWalker p' 0%N n') as [Hx _];
    [reflexivity | reflexivity | exact Hm |].
  assert (this (x p') = (1001 # 10)%Q) as Hx'.
  { assert ((λ r, this (x r.1)) <$> moveParticle halfHost defaultConfig deadWalker 0%N
            = Some (1001 # 10)%Q) as Hc by (vm_compute; reflexivity).
    rewrite Hm in Hc. by injection Hc. }
  rewrite Hx in Hx'. vm_compute in Hx'. discriminate.
Qed.

(** ** A source in transit still transmits *)

(** *** The cell of a neighbour within the radius is among the cells scanned *)

Lemma Qdiv_le_mono (a b c : Q) : (0 < c)%Q → (a <= b)%Q → (a / c <= b / c)%Q.
Proof.
  intros Hc Hab. unfold Qdiv. apply Qmult_le_compat_r; [exact Hab|].
  apply Qlt_le_weak, Qinv_lt_0_compat, Hc.
Qed.

Lemma floor_div_mono (a b c : Qc) : 0 < c → a <= b → (floor (a / c) ≤ floor (b / c))%Z.
Proof.
  unfold floor, Qclt, Qcle. intros Hc Hab. apply Qfloor_resp_le.
  rewrite !this_div. apply Qdiv_le_mono; assumption.
Qed.

Lemma elem_of_Zrange (lo hi z : Z) : (lo ≤ z ≤ hi)%Z → z ∈ Zrange lo hi.
Proof.
  intros H. unfold Zrange. apply list_elem_of_fmap.
  exists (Z.to_nat (z - lo)). split; [lia|].
  apply elem_of_seq. lia.
Qed.

Lemma sq_bound (d e r : Q) :
  (0 <= r → d * d + e * e < r * r → - r <= d ∧ d <= r)%Q.
Proof.
  intros Hr H.
  assert (0 <= e * e)%Q as He.
  { destruct (Qlt_le_dec e 0) as [Hn|Hp].
    - assert (e * e == (- e) * (- e))%Q as -> by ring.
      apply Qmult_le_0_compat; lra.
    - apply Qmult_le_0_compat; lra. }
  split.
  - destruct (Qlt_le_dec d (- r)) as [Hlt|]; [exfalso|assumption].
    assert (0 <= (- d - r) * (- d + r))%Q as Hp by (apply Qmult_le_0_compat; lra).
    nra.
  - destruct (Qlt_le_dec r d) as [Hlt|]; [exfalso|assumption].
    assert (0 <= (d - r) * (d + r))%Q as Hp by (apply Qmult_le_0_compat; lra).
    nra.
Qed.

Lemma within_radius_x (px py qx qy r : Qc) :
  0 <= r →
  (px - qx) * (px - qx) + (py - qy) * (py - qy) < r * r →
  px - r <= qx ∧ qx <= px + r.
Proof.
  unfold Qclt, Qcle. intros Hr Hd.
  rewrite this_plus, !this_mult, !this_minus in Hd.
  rewrite this_minus, this_plus.
  change (this (Q2Qc 0)) with 0%Q in Hr.
  destruct (sq_bound _ _ _ Hr Hd). split; lra.
Qed.

Lemma within_radius_y (px py qx qy r : Qc) :
  0 <= r →
  (px - qx) * (px - qx) + (py - qy) * (py - qy) < r * r →
  py - r <= qy ∧ qy <= py + r.
Proof.
  unfold Qclt, Qcle. intros Hr Hd.
  rewrite this_plus, !this_mult, !this_minus in Hd.
  rewrite this_minus, this_plus.
  change (this (Q2Qc 0)) with 0%Q in Hr.
  rewrite Qplus_comm in Hd.
  destruct (sq_bound _ _ _ Hr Hd). split; lra.
Qed.

Lemma neighbour_cell_scanned (p other : Particle) (r cellSize : Qc) :
  0 <= r → 0 < cellSize →
  squaredDistance p other < r * r →
  (floor (x other / cellSize), floor (y other / cellSize))
    ∈ getNearbyCellCoords (x p) (y p) r cellSize.
Proof.
  intros Hr Hc Hd. unfold squaredDistance in Hd.
  destruct (within_radius_x _ _ _ _ _ Hr Hd) as [Hx1 Hx2].
  destruct (within_radius_y _ _ _ _ _ Hr Hd) as [Hy1 Hy2].
  unfold getNearbyCellCoords. cbv zeta.
  apply list_elem_of_bind. exists (floor (x other / cellSize)). split.
  - apply list_elem_of_bind. exists (floor (y other / cellSize)). split.
    + by apply list_elem_of_singleton.
    + apply elem_of_Zrange. split; by apply floor_div_mono.
  - apply elem_of_Zrange. split; by apply floor_div_mono.
Qed.

Lemma keyOf_Fin (cellSize : Qc) (p : Particle) :
  0 < cellSize →
  keyOf cellSize p
  = cellKey (currentCommunity p) (Fin (floor (x p / cellSize)))
            (Fin (floor (y p / cellSize))).
Proof.
  intros Hc. unfold keyOf, floorDiv.
  rewrite bool_decide_eq_false_2; [done|].
  intros ->. by apply Qclt_not_eq in Hc.
Qed.

(** *** The distance test in binary64 still bounds the exact offsets *)





(** *** Loops that surely reach a goal *)

Lemma forM_total {A S : Type} (I : S → N → Prop) (body : A → S → M S) l :
  (∀ a s n, I s n → ∃ s' n', body a s n = Some (s', n') ∧ I s' n') →
  ∀ s n, I s n → ∃ s' n', forM body l s n = Some (s', n') ∧ I s' n'.
Proof.
  intros Hbody. induction l as [|a l IH]; intros s n Hs; simpl.
  - exists s, n. done.
  - destruct (Hbody a s n Hs) as (s1 & n1 & H1 & Hs1).
    destruct (IH s1 n1 Hs1) as (s2 & n2 & H2 & Hs2).
    exists s2, n2. split; [|done]. rewrite bind_eq, H1. exact H2.
Qed.


Section Transit.

Context (host : Host).







End Transit.


(** * Further properties of the engine *)

(** ** Random helpers and the cell scan *)

Lemma Qc_le_Q (a b : Qc) : a <= b ↔ (this a <= this b)%Q.
Proof. reflexivity. Qed.

Lemma Qc_lt_Q (a b : Qc) : a < b ↔ (this a < this b)%Q.
Proof. reflexivity. Qed.

Lemma scale_in_range (d lo hi : Qc) :
  0 <= d → d < 1 → lo < hi →
  lo <= d * (hi - lo) + lo ∧ d * (hi - lo) + lo < hi.
Proof.
  intros H0 H1 Hlt.
  unfold Qcle, Qclt in *. rewrite this_plus, this_mult, this_minus.
  change (this (Q2Qc 0)) with 0%Q in H0. change (this 1) with 1%Q in H1.
  split; nra.
Qed.

(** X1.  [rand(min, max)] makes exactly one draw and, the draw lying in
    [0, 1), returns a number between [min] and [max]. *)
Theorem rand_in_range (host : Host) (lo hi : Qc) (n : N) :
  unitDraws host → lo < hi →
  ∃ r, rand host lo hi n = Some (r, N.succ n) ∧ lo <= r ∧ r <= hi.
Proof.
  intros Hu Hlt. destruct (Hu n) as [H0 H1].
  exists (Math_random host n * (hi - lo) + lo). split; [reflexivity|].
  destruct (scale_in_range (Math_random host n) lo hi) as [? ?]; [done..|].
  split; [done | by apply Qclt_le_weak].
Qed.

Lemma halfHost_unitDraws : unitDraws halfHost.
Proof. intros k. split; reflexivity || discriminate. Qed.

(** One draw of [halfHost] between 10 and 20. *)
Lemma rand_in_range_witness :
  ∃ r, rand halfHost (Q2Qc 10) (Q2Qc 20) 0%N = Some (r, 1%N)
       ∧ Q2Qc 10 <= r ∧ r <= Q2Qc 20.
Proof.
  apply (rand_in_range halfHost (Q2Qc 10) (Q2Qc 20) 0%N);
    [exact halfHost_unitDraws | reflexivity].
Defined.








(** ** The infection logic, step by step *)

Section InfectionSteps.

Context (host : Host).

Lemma Forall2_insert_r {R : relation Particle} `{!PreOrder R}
    (l0 l : list Particle) (j : nat) (a b : Particle) :
  Forall2 R l0 l → l !! j = Some a → R a b → Forall2 R l0 (<[j := b]> l).
Proof.
  intros H Ha Hab. apply Forall2_same_length_lookup. split.
  - rewrite length_insert. by eapply Forall2_length.
  - intros k u v Hu Hv. destruct (decide (k = j)) as [->|Hne].
    + rewrite list_lookup_insert_eq in Hv by (by eapply lookup_lt_Some).
      injection Hv as <-. transitivity a; [|done].
      eapply Forall2_lookup_lr; eauto.
    + rewrite list_lookup_insert_ne in Hv by done.
      eapply Forall2_lookup_lr; eauto.
Qed.

Lemma forM_pointwise {A : Type} {R : relation Particle} `{!PreOrder R}
    (body : A → Sim → M Sim) (l : list A) :
  (∀ a s n s' n', body a s n = Some (s', n') →
     Forall2 R (particles s) (particles s')) →
  ∀ s n s' n', forM body l s n = Some (s', n') →
     Forall2 R (particles s) (particles s').
Proof.
  intros Hbody s n s' n' Hrun.
  eapply (forM_preserves (λ t, Forall2 R (particles s) (particles t)));
    [| reflexivity | exact Hrun].
  intros a t m t' m' _ Ht Hstep. apply Hbody in Hstep. by etrans.
Qed.

Lemma contact_steps cfg i j s n s' n' :
  contact host cfg i j s n = Some (s', n') →
  Forall2 (rtc (infStep host cfg)) (particles s) (particles s').
Proof.
  unfold contact. intros H.
  destruct (bool_decide (i = j)); [apply ret_Some in H as [<- _]; reflexivity|].
  destruct (particles s !! i) as [p|]; [|apply ret_Some in H as [<- _]; reflexivity].
  destruct (particles s !! j) as [other|] eqn:Ho;
    [|apply ret_Some in H as [<- _]; reflexivity].
  unfold Status_eqb in H. case_bool_decide as Hh; simpl in H;
    [|apply ret_Some in H as [<- _]; reflexivity].
  destruct (mayMeet p other); [|apply ret_Some in H as [<- _]; reflexivity].
  destruct (withinRadius cfg p other); [|apply ret_Some in H as [<- _]; reflexivity].
  rewrite bind_eq in H. unfold random in H.
  destruct (Qcltb _ _) eqn:Hdraw; apply ret_Some in H as [<- _]; [|reflexivity].
  unfold infect. simpl.
  eapply Forall2_insert_r; [reflexivity | exact Ho |].
  apply rtc_once. apply Qcltb_lt in Hdraw. by eapply infStep_target.
Qed.

Lemma spread_steps cfg cellSize community hash i p s n s' n' :
  spread host cfg cellSize community hash i p s n = Some (s', n') →
  Forall2 (rtc (infStep host cfg)) (particles s) (particles s').
Proof.
  unfold spread. apply forM_pointwise.
  intros [nx ny] t m t' m' H.
  destruct (hash !! _) as [idxs|].
  - revert H. apply forM_pointwise. intros j. apply contact_steps.
  - apply ret_Some in H as [<- _]. reflexivity.
Qed.

Lemma infectFrom_steps cfg cellSize community hash i s n s' n' :
  infectFrom host cfg cellSize community hash i s n = Some (s', n') →
  Forall2 (rtc (infStep host cfg)) (particles s) (particles s').
Proof.
  unfold infectFrom. intros H.
  destruct (particles s !! i) as [p|] eqn:Hp;
    [|apply ret_Some in H as [<- _]; reflexivity].
  destruct (negb _ || quarantined p || negb _) eqn:Hguard;
    [apply ret_Some in H as [<- _]; reflexivity|].
  apply orb_false_iff in Hguard as [Hguard Hst].
  apply orb_false_iff in Hguard as [_ Hq].
  apply negb_false_iff in Hst. unfold Status_eqb in Hst.
  apply bool_decide_eq_true in Hst.
  cbv zeta in H. rewrite bind_eq in H.
  assert (∃ p1 counts m,
            (let doomed := bool_decide (willDie p1 = Some true) in
             if doomed && Qcltb (recoveryTime cfg / 2) (ofZ (timeInfected p1))
             then mret (set_counts (delete i counts)
                          (set_particles (<[i:=set_status dead p1]> (particles s)) s))
             else if negb doomed && Qcltb (recoveryTime cfg) (ofZ (timeInfected p1))
             then mret (set_counts (delete i counts)
                          (set_particles (<[i:=set_status recovered p1]> (particles s)) s))
             else spread host cfg cellSize community hash i p1
                    (set_counts counts (set_particles (<[i:=p1]> (particles s)) s)))
              m = Some (s', n')
            ∧ p1 = aged cfg (Math_random host n) p) as (p1 & counts & m & Hrun & Hp1).
  { unfold aged. cbv zeta.
    destruct (willDie (set_timeInfected (timeInfected p + 1) p)).
    - eexists _, _, _. split; [exact H | reflexivity].
    - rewrite bind_eq in H. unfold random in H.
      eexists _, _, _. split; [exact H | reflexivity]. }
  clear H. cbv zeta in Hrun.
  assert (rtc (infStep host cfg) p (resolved cfg p1)) as Hstep.
  { apply rtc_once. rewrite Hp1. by apply infStep_source. }
  unfold resolved in Hstep. cbv zeta in Hstep.
  destruct (bool_decide _ && Qcltb _ _).
  { apply ret_Some in Hrun as [<- _]. simpl.
    eapply Forall2_insert_r; [reflexivity | exact Hp | exact Hstep]. }
  destruct (negb _ && Qcltb _ _).
  { apply ret_Some in Hrun as [<- _]. simpl.
    eapply Forall2_insert_r; [reflexivity | exact Hp | exact Hstep]. }
  apply spread_steps in Hrun. simpl in Hrun.
  etrans; [|exact Hrun].
  eapply Forall2_insert_r; [reflexivity | exact Hp | exact Hstep].
Qed.

Lemma infectionLogic_steps cfg s n s' n' :
  infectionLogic host cfg s n = Some (s', n') →
  Forall2 (rtc (infStep host cfg)) (particles s) (particles s').
Proof.
  unfold infectionLogic. apply forM_pointwise.
  intros community t m t' m'. unfold infectCommunity.
  apply forM_pointwise. intros i. apply infectFrom_steps.
Qed.

Lemma tick_steps cfg s n s' n' :
  tick host cfg s n = Some (s', n') →
  Forall2 (tickSteps host cfg) (particles s) (particles s').
Proof.
  unfold tick. intros H. cbv zeta in H. simpl in H.
  apply bind_Some in H as (ps1 & n1 & Hmove & H).
  apply bind_Some in H as (s2 & n2 & Hinf & H).
  apply ret_Some in H as [<- _]. simpl.
  apply mapM_Forall2 in Hmove.
  pose proof (infectionLogic_steps _ _ _ _ _ Hinf) as Hev. simpl in Hev.
  apply Forall2_fmap_r.
  apply Forall2_same_length_lookup. split.
  - rewrite (Forall2_length _ _ _ Hmove). by eapply Forall2_length.
  - intros k p p2 Hp Hp2.
    destruct (Forall2_lookup_l _ _ _ _ _ Hmove Hp) as (p1 & Hp1 & Hm).
    exists p1, p2. repeat split; [exact Hm|].
    eapply Forall2_lookup_lr; eauto.
Qed.

(** What [tick] does to the particle at index [i]. *)
Lemma tick_steps_lookup cfg s n s' n' i p :
  tick host cfg s n = Some (s', n') → particles s !! i = Some p →
  ∃ p', particles s' !! i = Some p' ∧ tickSteps host cfg p p'.
Proof.
  intros H Hp. apply tick_steps in H.
  destruct (Forall2_lookup_l _ _ _ _ _ H Hp) as (p' & ? & ?). eauto.
Qed.

End InfectionSteps.

(** ** The neighbour search finds every particle in range *)

(** X3. The neighbour search of the infection logic misses nobody: with the
    spatial hash built for region [c] with cell size [r + 3], every particle
    of region [c] that is not dead and lies at squared distance below [r * r]
    from a source is listed in the bucket of one of the cells that
    [getNearbyCellCoords] returns for the source. *)
Theorem neighbour_search_complete (ps : list Particle) (r : Qc) (c : Z)
    (p other : Particle) (j : nat) :
  0 <= r →
  ps !! j = Some other → status other ≠ dead → currentCommunity other = c →
  squaredDistance p other < r * r →
  ∃ nx ny idxs,
    (nx, ny) ∈ getNearbyCellCoords (x p) (y p) r (r + Q2Qc 3)
    ∧ makeSpatialHash ps (r + Q2Qc 3) (Some c) !! cellKey c (Fin nx) (Fin ny)
      = Some idxs
    ∧ j ∈ idxs.
Proof.
  intros Hr Hj Hnd Hc Hd.
  assert (0 < r + Q2Qc 3) as Hcell.
  { unfold Qclt, Qcle in *. rewrite this_plus.
    change (this (Q2Qc 0)) with 0%Q in *. change (this (Q2Qc 3)) with 3%Q. lra. }
  exists (floor (x other / (r + Q2Qc 3))), (floor (y other / (r + Q2Qc 3))).
  destruct (makeSpatialHash_prefix ps (r + Q2Qc 3) (Some c) (length ps)) as [_ H].
  destruct (H j other) as (idxs & Hidxs & Hin).
  { by eapply lookup_lt_Some. }
  { split; [done|]. split; [done|]. by intros ? [= <-]. }
  exists idxs. split; [by apply neighbour_cell_scanned|]. split; [|done].
  rewrite keyOf_Fin, Hc in Hidxs by done. exact Hidxs.
Qed.

Lemma neighbour_search_complete_witness :
  ∃ nx ny idxs,
    (nx, ny) ∈ getNearbyCellCoords (x (at_ 100 100 (set_status infected blank)))
                 (y (at_ 100 100 (set_status infected blank)))
                 (Q2Qc 20) (Q2Qc 20 + Q2Qc 3)
    ∧ makeSpatialHash [at_ 100 100 (set_status infected blank); at_ 110 105 blank]
        (Q2Qc 20 + Q2Qc 3) (Some 0%Z) !! cellKey 0 (Fin nx) (Fin ny)
      = Some idxs
    ∧ 1%nat ∈ idxs.
Proof.
  apply (neighbour_search_complete
           [at_ 100 100 (set_status infected blank); at_ 110 105 blank] (Q2Qc 20) 0
           (at_ 100 100 (set_status infected blank)) (at_ 110 105 blank) 1).
  - apply Qc_le_Q. vm_compute. discriminate.
  - reflexivity.
  - discriminate.
  - reflexivity.
  - apply Qc_lt_Q. vm_compute. reflexivity.
Defined.

(** ** The initial population *)

Lemma COMMUNITY_WIDTH_val : COMMUNITY_WIDTH = Q2Qc (640 # 3).
Proof. apply Qc_is_canon. reflexivity. Qed.

Lemma COMMUNITY_HEIGHT_val : COMMUNITY_HEIGHT = Q2Qc (580 # 3).
Proof. apply Qc_is_canon. reflexivity. Qed.

(** Every region the layout knows has the common width and height. *)
Lemma bounds_size idx b :
  getCommunityBounds idx = Some b →
  maxX b = minX b + COMMUNITY_WIDTH ∧ maxY b = minY b + COMMUNITY_HEIGHT.
Proof.
  unfold getCommunityBounds. cbv zeta.
  destruct (idx =? QUARANTINE_COMMUNITY_IDX)%Z.
  - intros [= <-]. cbn [minX maxX minY maxY]. split; ring.
  - destruct (7 <? idx)%Z; [done|]. intros [= <-]. done.
Qed.

Lemma bounds_wide idx b :
  getCommunityBounds idx = Some b → minX b < maxX b ∧ minY b < maxY b.
Proof.
  intros H. apply bounds_size in H as [-> ->].
  rewrite COMMUNITY_WIDTH_val, COMMUNITY_HEIGHT_val.
  unfold Qclt. rewrite !this_plus.
  change (this (Q2Qc (640 # 3))) with (640 # 3)%Q.
  change (this (Q2Qc (580 # 3))) with (580 # 3)%Q. split; lra.
Qed.

Lemma getCommunityBounds_total idx :
  (idx ≤ 8)%Z → ∃ b, getCommunityBounds idx = Some b.
Proof.
  intros H. unfold getCommunityBounds. cbv zeta.
  destruct (idx =? QUARANTINE_COMMUNITY_IDX)%Z eqn:Hq; [eauto|].
  apply Z.eqb_neq in Hq. unfold QUARANTINE_COMMUNITY_IDX in Hq.
  destruct (Z.ltb_spec 7 idx); [lia | eauto].
Qed.

Lemma mapM_total {A B : Type} (f : A → M B) (c : N) (P : A → B → Prop) l :
  (∀ a n, a ∈ l → ∃ b, f a n = Some (b, (n + c)%N) ∧ P a b) →
  ∀ n, ∃ bs, mapM f l n = Some (bs, (n + c * N.of_nat (length l))%N)
             ∧ Forall2 P l bs.
Proof.
  induction l as [|a l IH]; intros Hf n; simpl.
  - exists []. split; [|constructor]. unfold mret, M_ret. f_equal. f_equal. lia.
  - destruct (Hf a n) as (b & Hb & HP); [set_solver|].
    destruct (IH (λ a n H, Hf a n (list_elem_of_further _ _ _ H)) (n + c)%N)
      as (bs & Hbs & HF).
    exists (b :: bs). split; [|by constructor].
    rewrite bind_eq, Hb, bind_eq, Hbs. unfold mret, M_ret. f_equal. f_equal. lia.
Qed.

Section Initial.

Context (host : Host).

Lemma initParticle_run k i n :
  ∃ p, initParticle host k i n = Some (p, (n + 4)%N)
       ∧ seeded k i p ∧ (unitDraws host → atHome p).
Proof.
  unfold initParticle. cbv zeta.
  set (home := Z.min (Z.of_nat i / PARTICLES_PER_COMMUNITY) (NORMAL_COMMUNITIES - 1)).
  destruct (getCommunityBounds_total home) as [b Hb].
  { subst home. unfold NORMAL_COMMUNITIES, COMMUNITY_ROWS, COMMUNITY_COLS. lia. }
  rewrite bind_eq, Hb. simpl liftOpt. unfold_M.
  eexists. split; [f_equal; f_equal; lia|]. split.
  - repeat split.
  - intros Hu. exists b. psimpl. split; [exact Hb|].
    destruct (bounds_wide _ _ Hb) as [Hw Hh].
    destruct (Hu n) as [? ?]. destruct (Hu (N.succ n)) as [? ?].
    destruct (scale_in_range (Math_random host n) (minX b) (maxX b)) as [? ?];
      [done..|].
    destruct (scale_in_range (Math_random host (N.succ n)) (minY b) (maxY b))
      as [? ?]; [done..|].
    repeat split; try done; by apply Qclt_le_weak.
Qed.

Lemma initialState_run count k n :
  ∃ ps, initialState host count k n = Some (ps, (n + 4 * N.of_nat count)%N)
        ∧ Forall2 (λ i p, seeded k i p ∧ (unitDraws host → atHome p))
                  (seq 0 count) ps.
Proof.
  unfold initialState.
  destruct (mapM_total (initParticle host k) 4
              (λ i p, seeded k i p ∧ (unitDraws host → atHome p))
              (seq 0 count)) with (n := n) as (ps & Hps & HF).
  { intros i m _. destruct (initParticle_run k i m) as (p & ? & ? & ?). eauto. }
  rewrite length_seq in Hps. eauto.
Qed.

End Initial.

(** X4. A restart never throws.  [initialState] makes four draws per
    particle, returns as many particles as asked for, and the particle at
    index [i] starts infected exactly when [i] is below the number of initial
    infections, lives in region [min(i div 62, 7)], is registered there,
    is neither quarantined nor in transit, and wanders (not at the centre,
    not travelling, not visiting) with a zero timer and no outcome drawn. *)
Theorem initialState_population (host : Host) (count k : nat) (n : N) :
  ∃ ps, initialState host count k n = Some (ps, (n + 4 * N.of_nat count)%N)
        ∧ length ps = count
        ∧ ∀ i p, ps !! i = Some p → seeded k i p.
Proof.
  destruct (initialState_run host count k n) as (ps & Hps & HF).
  exists ps. split; [exact Hps|]. split.
  - apply Forall2_length in HF. by rewrite length_seq in HF.
  - intros i p Hp.
    destruct (Forall2_lookup_r _ _ _ _ _ HF Hp) as (j & Hj & Hs & _).
    apply lookup_seq in Hj as [-> _]. exact Hs.
Qed.

(** X5. With draws in [0, 1), every particle of the initial population lies
    inside the rectangle of its home region, edges included. *)
Theorem initialState_at_home (host : Host) (count k : nat) (n n' : N)
    (ps : list Particle) :
  unitDraws host →
  initialState host count k n = Some (ps, n') →
  Forall atHome ps.
Proof.
  intros Hu H.
  destruct (initialState_run host count k n) as (ps' & Hps & HF).
  rewrite Hps in H. injection H as <- _.
  apply Forall_forall. intros p Hp.
  apply list_elem_of_lookup in Hp as [i Hp].
  destruct (Forall2_lookup_r _ _ _ _ _ HF Hp) as (j & _ & _ & Hat). by apply Hat.
Qed.

Lemma initialState_at_home_witness :
  ∃ ps, initialState halfHost 3 1 0%N = Some (ps, 12%N) ∧ Forall atHome ps.
Proof.
  destruct (initialState_run halfHost 3 1 0%N) as (ps & Hps & _).
  exists ps. split; [exact Hps|].
  exact (initialState_at_home halfHost 3 1 0%N _ ps halfHost_unitDraws Hps).
Defined.

(** ** The frame callback never throws *)

Ltac bounds_of i b Hb :=
  destruct (getCommunityBounds_total i) as [b Hb];
  [unfold registered in *; psimpl; unfold QUARANTINE_COMMUNITY_IDX; lia|].

Ltac total :=
  unfold_M; cbv zeta; psimpl;
  repeat (case_match; simplify_eq; psimpl);
  try (eexists _, _; split; [reflexivity|]); psimpl;
  try (unfold registered in *; psimpl; unfold QUARANTINE_COMMUNITY_IDX; lia).

(** [Math.floor(Math.random() * len)] is an index below [len]. *)
Lemma draw_index (e : Qc) (len : nat) :
  0 <= e → e < 1 → (0 < len)%nat →
  (0 ≤ floor (e * ofZ (Z.of_nat len)) < Z.of_nat len)%Z.
Proof.
  unfold Qcle, Qclt, floor, ofZ. intros H0 H1 Hlen.
  change (this (Q2Qc 0)) with 0%Q in H0. change (this 1) with 1%Q in H1.
  assert (0 < inject_Z (Z.of_nat len))%Q as Hl.
  { change 0%Q with (inject_Z 0). rewrite <- Zlt_Qlt. lia. }
  set (q := this (e * Q2Qc (inject_Z (Z.of_nat len)))).
  assert (q == this e * inject_Z (Z.of_nat len))%Q as Hq.
  { subst q. rewrite this_mult, this_Q2Qc. reflexivity. }
  split.
  - change 0%Z with (Qfloor 0). apply Qfloor_resp_le. rewrite Hq.
    apply Qmult_le_0_compat; lra.
  - pose proof (Qfloor_le q) as Hf. rewrite Zlt_Qlt.
    eapply Qle_lt_trans; [exact Hf|]. rewrite Hq. nra.
Qed.

Section Total.

Context (host : Host).

Lemma startQuarantineEntry_total p n :
  registered p →
  ∃ p' n', startQuarantineEntry host p n = Some (p', n') ∧ registered p'.
Proof.
  intros Hr. unfold startQuarantineEntry.
  bounds_of QUARANTINE_COMMUNITY_IDX b Hb. rewrite bind_eq, Hb. total.
Qed.

Lemma quarantineLogic_total cfg p n :
  registered p →
  ∃ p' n', quarantineLogic host cfg p n = Some (p', n') ∧ registered p'.
Proof.
  intros Hr. unfold quarantineLogic, startQuarantineEntry.
  bounds_of QUARANTINE_COMMUNITY_IDX bq Hbq.
  bounds_of (homeCommunity p) bh Hbh.
  total.
Qed.

Lemma animateEntry_registered a p :
  registered p → registered (animateEntry host a p).
Proof. intros Hr. unfold animateEntry. total. Qed.

Lemma animateGoingHome_total a p n :
  registered p →
  ∃ p' n', animateGoingHome host a p n = Some (p', n') ∧ registered p'.
Proof. intros Hr. unfold animateGoingHome. total. Qed.

Lemma bounce_registered b p : registered p → registered (bounce b p).
Proof. intros Hr. unfold bounce. total. Qed.

Lemma centreEntry_total b p n :
  registered p →
  ∃ p' n', centreEntry host b p n = Some (p', n') ∧ registered p'.
Proof. intros Hr. unfold centreEntry. total. Qed.

Lemma centreMotion_total b p n :
  registered p →
  ∃ p' n', centreMotion host b p n = Some (p', n') ∧ registered p'.
Proof. intros Hr. unfold centreMotion. total. Qed.

Lemma travelStep_total p n :
  registered p →
  ∃ p' n', travelStep host p n = Some (p', n') ∧ registered p'.
Proof.
  intros Hr. unfold travelStep.
  bounds_of (homeCommunity p) bh Hbh.
  bounds_of (currentCommunity p) bc Hbc.
  total.
Qed.

Lemma brownian_total b p n :
  registered p →
  ∃ p' n', brownian host b p n = Some (p', n') ∧ registered p'.
Proof. intros Hr. unfold brownian. total. Qed.

Lemma visitExpiry_registered p : registered p → registered (visitExpiry p).
Proof. intros Hr. unfold visitExpiry. total. Qed.

Lemma randomTravel_total p n :
  unitDraws host → registered p →
  ∃ p' n', randomTravel host p n = Some (p', n') ∧ registered p'.
Proof.
  intros Hu Hr. unfold randomTravel.
  destruct (negb (isVisiting p) && negb (isTravelling p)); [|total].
  rewrite bind_eq. unfold random at 1.
  destruct (Qcltb _ _ && _); [|total]. cbv zeta.
  destruct (Nat.ltb_spec 0 (length (available p))) as [Hlen|]; [|total].
  rewrite bind_eq. unfold random at 1.
  destruct (Hu (N.succ n)) as [H0 H1].
  pose proof (draw_index _ _ H0 H1 Hlen) as Hk.
  destruct (Z.ltb_spec (floor (Math_random host (N.succ n)
                                * ofZ (Z.of_nat (length (available p))))) 0);
    [lia|].
  destruct (lookup_lt_is_Some_2 (available p)
              (Z.to_nat (floor (Math_random host (N.succ n)
                                * ofZ (Z.of_nat (length (available p)))))))
    as [c Hc]; [lia|].
  rewrite bind_eq, Hc. simpl liftOpt.
  eexists _, _. split; [reflexivity|].
  apply list_elem_of_lookup_2, available_normal in Hc.
  unfold registered in *. psimpl. lia.
Qed.

Lemma normalBehaviour_total p n :
  unitDraws host → registered p →
  ∃ p' n', normalBehaviour host p n = Some (p', n') ∧ registered p'.
Proof.
  intros Hu Hr. unfold normalBehaviour.
  bounds_of (currentCommunity p) b Hb. rewrite bind_eq, Hb. simpl liftOpt.
  cbv zeta. unfold mret at 1, M_ret at 1.
  destruct (centreEntry_total b (bounce b p) n) as (p1 & n1 & H1 & Hr1);
    [by apply bounce_registered|].
  rewrite bind_eq, H1.
  destruct (atCentre p1); [by apply centreMotion_total|].
  destruct (isTravelling p1); [by apply travelStep_total|].
  destruct (brownian_total b p1 n1 Hr1) as (p2 & n2 & H2 & Hr2).
  rewrite bind_eq, H2.
  destruct (randomTravel_total p2 n2 Hu Hr2) as (p3 & n3 & H3 & Hr3).
  rewrite bind_eq, H3.
  eexists _, _. split; [reflexivity|]. by apply visitExpiry_registered.
Qed.

Lemma moveParticle_total cfg p n :
  unitDraws host → registered p →
  ∃ p' n', moveParticle host cfg p n = Some (p', n') ∧ registered p'.
Proof.
  intros Hu Hr. unfold moveParticle.
  destruct (quarantineLogic_total cfg p n Hr) as (p1 & n1 & H1 & Hr1).
  rewrite bind_eq, H1.
  destruct (entryAnimating p1) as [a|].
  { eexists _, _. split; [reflexivity|]. by apply animateEntry_registered. }
  destruct (homeAnimating p1) as [a|]; [by apply animateGoingHome_total|].
  destruct (quarantined p1); [|by apply normalBehaviour_total].
  eexists _, _. split; [reflexivity | done].
Qed.

End Total.

(** ** What the infection logic writes *)

Lemma withEpisode_twice st ti wd ic st' ti' wd' ic' p :
  withEpisode st' ti' wd' ic' (withEpisode st ti wd ic p)
  = withEpisode st' ti' wd' ic' p.
Proof. by destruct p. Qed.

Lemma withEpisode_same p :
  withEpisode (status p) (timeInfected p) (willDie p) (infectionCount p) p = p.
Proof. by destruct p. Qed.

Global Instance sameBody_refl : Reflexive sameBody.
Proof. intros p. eexists _, _, _, _. symmetry. apply withEpisode_same. Qed.

Global Instance sameBody_trans : Transitive sameBody.
Proof.
  intros p q r (st & ti & wd & ic & ->) (st' & ti' & wd' & ic' & ->).
  eexists _, _, _, _. apply withEpisode_twice.
Qed.

Lemma sameBody_intro p p' :
  p' = withEpisode (status p') (timeInfected p') (willDie p') (infectionCount p') p →
  sameBody p p'.
Proof. intros H. eexists _, _, _, _. exact H. Qed.

Lemma sameBody_registered p p' : sameBody p p' → registered p → registered p'.
Proof. intros (st & ti & wd & ic & ->). by destruct p. Qed.

Lemma sameBody_qstate p p' : sameBody p p' → qstate p' = qstate p.
Proof. intros (st & ti & wd & ic & ->). by destruct p. Qed.

Section Frame.

Context (host : Host).

Lemma infStep_sameBody cfg p p' : infStep host cfg p p' → sameBody p p'.
Proof.
  intros [q n Hst Hq|q n Hst Hd]; apply sameBody_intro.
  - unfold resolved, aged. cbv zeta. destruct q. psimpl.
    repeat (case_match; psimpl); reflexivity.
  - by destruct q.
Qed.

Lemma infSteps_sameBody cfg p p' : rtc (infStep host cfg) p p' → sameBody p p'.
Proof.
  induction 1 as [|p q r Hpq _ IH]; [reflexivity|].
  etrans; [by eapply infStep_sameBody | exact IH].
Qed.

Lemma incubate_registered cfg p : registered p → registered (incubate cfg p).
Proof. intros Hr. unfold incubate. total. Qed.

End Frame.

Ltac runs := unfold_M; cbv zeta; repeat (case_match; simplify_eq); eauto.

Lemma mapM_runs {A B : Type} (f : A → M B) (I : A → Prop) (J : B → Prop) l :
  (∀ a n, I a → ∃ b n', f a n = Some (b, n') ∧ J b) →
  Forall I l → ∀ n, ∃ bs n', mapM f l n = Some (bs, n') ∧ Forall J bs.
Proof.
  intros Hf HI. induction HI as [|a l Ha _ IH]; intros n; simpl.
  - exists [], n. done.
  - destruct (Hf a n Ha) as (b & n1 & Hb & HJ).
    destruct (IH n1) as (bs & n2 & Hbs & HJs).
    exists (b :: bs), n2. rewrite bind_eq, Hb, bind_eq, Hbs.
    split; [done | by constructor].
Qed.

Lemma forM_runs {A S : Type} (body : A → S → M S) l :
  (∀ a s n, ∃ s' n', body a s n = Some (s', n')) →
  ∀ s n, ∃ s' n', forM body l s n = Some (s', n').
Proof.
  intros Hbody s n.
  destruct (forM_total (λ _ _, True) body l) with (s := s) (n := n)
    as (s' & n' & H & _); [|done|eauto].
  intros a t m _. destruct (Hbody a t m) as (t' & m' & H). eauto.
Qed.

Section TickTotal.

Context (host : Host).

Lemma contact_runs cfg i j s n :
  ∃ s' n', contact host cfg i j s n = Some (s', n').
Proof. unfold contact. runs. Qed.

Lemma spread_runs cfg cellSize community hash i p s n :
  ∃ s' n', spread host cfg cellSize community hash i p s n = Some (s', n').
Proof.
  unfold spread. apply forM_runs. intros [nx ny] t m.
  destruct (hash !! _); [|runs]. apply forM_runs. intros j. apply contact_runs.
Qed.

Lemma infectFrom_runs cfg cellSize community hash i s n :
  ∃ s' n', infectFrom host cfg cellSize community hash i s n = Some (s', n').
Proof.
  unfold infectFrom.
  destruct (particles s !! i) as [p|]; [|runs].
  destruct (_ || _ || _); [runs|]. cbv zeta.
  destruct (willDie (set_timeInfected (timeInfected p + 1) p));
    unfold_M; cbv beta iota; repeat (case_match; simplify_eq); eauto;
    apply spread_runs.
Qed.

Lemma infectionLogic_runs cfg s n :
  ∃ s' n', infectionLogic host cfg s n = Some (s', n').
Proof.
  unfold infectionLogic. apply forM_runs. intros community t m.
  unfold infectCommunity. apply forM_runs. intros i. apply infectFrom_runs.
Qed.

Lemma tick_total cfg s n :
  unitDraws host → Forall registered (particles s) →
  ∃ s' n', tick host cfg s n = Some (s', n') ∧ Forall registered (particles s').
Proof.
  intros Hu Hr. unfold tick. cbv zeta. simpl particles.
  destruct (mapM_runs (moveParticle host cfg) registered registered (particles s))
    with (n := n) as (ps1 & n1 & H1 & Hr1); [|done|].
  { intros p m. by apply moveParticle_total. }
  rewrite bind_eq, H1.
  destruct (infectionLogic_runs cfg
              (set_particles ps1
                 (mkSim (particles s) (timeRef s + 1) (infectionEvents s)
                    (infectedInfectionCounts s))) n1) as (s2 & n2 & H2).
  rewrite bind_eq, H2. eexists _, _. split; [reflexivity|]. simpl.
  apply infectionLogic_steps in H2. simpl in H2.
  apply Forall_fmap, Forall_forall. intros p2 Hp2. simpl.
  apply incubate_registered.
  apply list_elem_of_lookup in Hp2 as [j Hp2].
  destruct (Forall2_lookup_r _ _ _ _ _ H2 Hp2) as (p1 & Hp1 & Hsteps).
  eapply sameBody_registered; [by eapply infSteps_sameBody|].
  eapply Forall_lookup_1; eauto.
Qed.

Lemma seeded_registered k i p : seeded k i p → registered p.
Proof.
  intros (_ & Hh & Hc & _). unfold registered. rewrite Hc, Hh.
  assert (0 ≤ Z.of_nat i / 62)%Z by (apply Z.div_pos; lia). lia.
Qed.

Lemma reachable_registered s n :
  unitDraws host → reachable host s n → Forall registered (particles s).
Proof.
  intros Hu. induction 1 as [k n n' ps Hinit|cfg s s' n n' _ IH Htick].
  - simpl. destruct (initialState_run host PARTICLE_COUNT k n) as (ps' & Hps & HF).
    rewrite Hps in Hinit. injection Hinit as <- _.
    apply Forall_forall. intros p Hp.
    apply list_elem_of_lookup in Hp as [i Hp].
    destruct (Forall2_lookup_r _ _ _ _ _ HF Hp) as (j & _ & Hs & _).
    by eapply seeded_registered.
  - destruct (tick_total cfg s n Hu IH) as (s'' & n'' & Ht & Hr).
    rewrite Ht in Htick. by injection Htick as <- _.
Qed.

End TickTotal.

(** ** The event log *)

Lemma census_cons f p ps :
  census f (p :: ps) = (Nat.b2n (f p) + census f ps)%nat.
Proof.
  unfold census. rewrite filter_cons.
  destruct (decide (f p = true)) as [->|Hn]; [done|].
  apply not_true_is_false in Hn. by rewrite Hn.
Qed.

Lemma census_insert f ps j a b :
  ps !! j = Some a →
  (census f (<[j := b]> ps) + Nat.b2n (f a) = census f ps + Nat.b2n (f b))%nat.
Proof.
  revert j. induction ps as [|p ps IH]; intros [|j] Hj; try done; simpl in Hj.
  - injection Hj as ->. simpl. rewrite !census_cons. lia.
  - simpl. rewrite !census_cons. specialize (IH j Hj). lia.
Qed.

Lemma census_fmap_same f g ps :
  (∀ p, f (g p) = f p) → census f (g <$> ps) = census f ps.
Proof.
  intros H. induction ps as [|p ps IH]; [done|].
  rewrite fmap_cons, !census_cons, H, IH. done.
Qed.

Lemma census_Forall2 f (R : relation Particle) ps ps' :
  (∀ p p', R p p' → f p' = f p) → Forall2 R ps ps' → census f ps' = census f ps.
Proof.
  intros H HF. induction HF as [|p p' ps ps' Hp _ IH]; [done|].
  rewrite !census_cons, IH, (H _ _ Hp). done.
Qed.

Global Instance logs_refl : Reflexive logs.
Proof.
  intros s. split; [done|]. split; [done|]. exists [].
  rewrite app_nil_r. split; [done|]. split; [constructor | simpl; lia].
Qed.

Global Instance logs_trans : Transitive logs.
Proof.
  intros s t u (Ht & Hl & new & He & HF & Hc) (Ht' & Hl' & new' & He' & HF' & Hc').
  split; [congruence|]. split; [congruence|]. exists (new ++ new').
  split; [by rewrite He', He, app_assoc|]. split.
  - apply Forall_app. split; [done|]. rewrite <- Ht, <- Hl. done.
  - rewrite length_app. lia.
Qed.

Lemma forM_rel {A S : Type} (R : relation S) `{!PreOrder R}
    (body : A → S → M S) (l : list A) :
  (∀ a s n s' n', body a s n = Some (s', n') → R s s') →
  ∀ s n s' n', forM body l s n = Some (s', n') → R s s'.
Proof.
  intros Hbody s n s' n' Hrun.
  eapply (forM_preserves (λ t, R s t)); [| reflexivity | exact Hrun].
  intros a t m t' m' _ Ht Hstep. apply Hbody in Hstep. by etrans.
Qed.

Global Instance logs_preorder : PreOrder logs.
Proof. split; apply _. Qed.

(** Replacing a particle that is not healthy by one that is not healthy
    leaves the log and the healthy count as they are. *)
Lemma logs_progress s i p p' counts :
  particles s !! i = Some p → isHealthy p = false → isHealthy p' = false →
  logs s (set_counts counts (set_particles (<[i := p']> (particles s)) s)).
Proof.
  intros Hp Hh Hh'. split; [done|]. split; [simpl; by rewrite length_insert|].
  exists []. rewrite app_nil_r. split; [done|]. split; [constructor|]. simpl.
  pose proof (census_insert isHealthy _ _ _ p' Hp) as H.
  rewrite Hh, Hh' in H. simpl in H. lia.
Qed.

Section Log.

Context (host : Host).

Lemma contact_logs cfg i j s n s' n' :
  contact host cfg i j s n = Some (s', n') → logs s s'.
Proof.
  unfold contact. intros H.
  destruct (bool_decide (i = j)); [apply ret_Some in H as [<- _]; reflexivity|].
  destruct (particles s !! i) as [p|] eqn:Hp;
    [|apply ret_Some in H as [<- _]; reflexivity].
  destruct (particles s !! j) as [other|] eqn:Ho;
    [|apply ret_Some in H as [<- _]; reflexivity].
  destruct (negb (Status_eqb (status other) healthy)) eqn:Hh;
    [apply ret_Some in H as [<- _]; reflexivity|].
  destruct (mayMeet p other); [|apply ret_Some in H as [<- _]; reflexivity].
  destruct (withinRadius cfg p other); [|apply ret_Some in H as [<- _]; reflexivity].
  rewrite bind_eq in H. unfold random in H.
  destruct (Qcltb _ _); apply ret_Some in H as [<- _]; [|reflexivity].
  unfold infect. cbv zeta. split; [done|]. split; [simpl; by rewrite length_insert|].
  exists [mkEvent i (timeRef s)]. split; [done|]. split.
  - apply Forall_singleton. split; [done|]. simpl. by eapply lookup_lt_Some.
  - simpl.
    pose proof (census_insert isHealthy _ _ _
                  (set_timeInfected 0%Z (set_status exposed other)) Ho) as H.
    apply negb_false_iff in Hh.
    assert (isHealthy other = true) as H1 by exact Hh.
    assert (isHealthy (set_timeInfected 0%Z (set_status exposed other)) = false)
      as H2 by done.
    rewrite H1, H2 in H. simpl in H. lia.
Qed.

Lemma spread_logs cfg cellSize community hash i p s n s' n' :
  spread host cfg cellSize community hash i p s n = Some (s', n') → logs s s'.
Proof.
  unfold spread. apply (forM_rel logs).
  intros [nx ny] t m t' m' H.
  destruct (hash !! _) as [idxs|].
  - revert H. apply (forM_rel logs). intros j. apply contact_logs.
  - apply ret_Some in H as [<- _]. reflexivity.
Qed.

Lemma infectFrom_logs cfg cellSize community hash i s n s' n' :
  infectFrom host cfg cellSize community hash i s n = Some (s', n') → logs s s'.
Proof.
  unfold infectFrom. intros H.
  destruct (particles s !! i) as [p|] eqn:Hp;
    [|apply ret_Some in H as [<- _]; reflexivity].
  destruct (negb _ || quarantined p || negb _) eqn:Hguard;
    [apply ret_Some in H as [<- _]; reflexivity|].
  apply orb_false_iff in Hguard as [_ Hst].
  apply negb_false_iff in Hst. unfold Status_eqb in Hst.
  apply bool_decide_eq_true in Hst.
  assert (isHealthy p = false) as Hh by (unfold isHealthy; by rewrite Hst).
  cbv zeta in H. rewrite bind_eq in H.
  assert (∀ p1 counts, status p1 = infected →
            logs s (set_counts counts (set_particles (<[i:=p1]> (particles s)) s)))
    as Hput.
  { intros p1 counts H1. apply (logs_progress s i p p1 counts Hp Hh).
    unfold isHealthy. by rewrite H1. }
  assert (∀ p1 counts st, st = dead ∨ st = recovered →
            logs s (set_counts counts
                      (set_particles (<[i:=set_status st p1]> (particles s)) s)))
    as Hend.
  { intros p1 counts st Hst1. apply (logs_progress s i p _ counts Hp Hh).
    unfold isHealthy. psimpl. by destruct Hst1 as [-> | ->]. }
  destruct (willDie (set_timeInfected (timeInfected p + 1) p));
    unfold_M; cbv beta iota zeta in H;
    repeat (case_match; simplify_eq);
    try (apply Hend; auto; fail);
    (etrans; [|eapply spread_logs; eassumption]); apply Hput; psimpl; done.
Qed.

Lemma infectionLogic_logs cfg s n s' n' :
  infectionLogic host cfg s n = Some (s', n') → logs s s'.
Proof.
  unfold infectionLogic. apply (forM_rel logs).
  intros community t m t' m'. unfold infectCommunity.
  apply (forM_rel logs). intros i. apply infectFrom_logs.
Qed.

End Log.

Section Frames.

Context (host : Host).

Lemma incubate_isHealthy cfg p : isHealthy (incubate cfg p) = isHealthy p.
Proof.
  unfold incubate, isHealthy, Status_eqb.
  destruct (status p) eqn:Hs; simpl; rewrite ?Hs; try done.
  repeat case_match; psimpl; rewrite ?Hs; done.
Qed.

(** What one tick does to the engine state around the particles. *)
Lemma tick_logs cfg s n s' n' :
  tick host cfg s n = Some (s', n') →
  timeRef s' = (timeRef s + 1)%Z
  ∧ ∃ new, infectionEvents s' = infectionEvents s ++ new
      ∧ Forall (λ e, time e = timeRef s'
                     ∧ (infectorIndex e < length (particles s))%nat) new
      ∧ (census isHealthy (particles s') + length new
         = census isHealthy (particles s))%nat.
Proof.
  unfold tick. intros H. cbv zeta in H. simpl in H.
  apply bind_Some in H as (ps1 & n1 & Hmove & H).
  apply bind_Some in H as (s2 & n2 & Hinf & H).
  apply ret_Some in H as [<- _]. simpl.
  apply infectionLogic_logs in Hinf as (Ht & Hl & new & He & HF & Hc).
  simpl in *. apply mapM_Forall2 in Hmove.
  split; [exact Ht|]. exists new. split; [exact He|]. split.
  - rewrite Ht. rewrite (Forall2_length _ _ _ Hmove). exact HF.
  - rewrite (census_fmap_same _ _ _ (incubate_isHealthy cfg)).
    rewrite Hc. eapply census_Forall2; [|exact Hmove].
    intros p p1 (m1 & m2 & Hm). apply moveParticle_health in Hm.
    unfold isHealthy. unfold health in Hm. congruence.
Qed.

Lemma frame_runs cfg (k j : nat) s n :
  unitDraws host → reachable host s n →
  ∃ s' n', forM (λ _ : nat, tick host cfg) (seq j k) s n = Some (s', n')
           ∧ reachable host s' n'
           ∧ timeRef s' = (timeRef s + Z.of_nat k)%Z.
Proof.
  intros Hu. revert j s n. induction k as [|k IH]; intros j s n Hr; simpl.
  - exists s, n. split; [done|]. split; [done | lia].
  - destruct (tick_total host cfg s n Hu (reachable_registered host s n Hu Hr))
      as (s1 & n1 & Ht & _).
    rewrite bind_eq, Ht.
    destruct (IH (S j) s1 n1) as (s' & n' & Hrun & Hr' & Htime).
    { by eapply reachable_tick. }
    exists s', n'. split; [exact Hrun|]. split; [exact Hr'|].
    apply tick_logs in Ht as [Ht _]. lia.
Qed.

Lemma Qcmax_ge (a b : Qc) : a <= Qcmax a b ∧ b <= Qcmax a b.
Proof.
  unfold Qcmax. destruct (Qcltb a b) eqn:H.
  - apply Qcltb_lt in H. split; [by apply Qclt_le_weak | apply Qcle_refl].
  - apply Qcltb_ge in H. split; [apply Qcle_refl | done].
Qed.

End Frames.

(** X6. From a state reachable after a restart, and with draws in [0, 1), a
    tick never throws: every region index the motion code looks up is one
    the layout knows, and the index drawn for a trip lies inside the list of
    available regions. *)
Theorem tick_never_throws (host : Host) (cfg : Config) (s : Sim) (n : N) :
  unitDraws host → reachable host s n →
  ∃ s' n', tick host cfg s n = Some (s', n').
Proof.
  intros Hu Hr.
  destruct (tick_total host cfg s n Hu (reachable_registered host s n Hu Hr))
    as (s' & n' & Ht & _).
  eauto.
Qed.

Lemma tick_never_throws_witness :
  ∃ ps s' n',
    initialState halfHost PARTICLE_COUNT 1 0%N = Some (ps, 2000%N)
    ∧ tick halfHost defaultConfig (mkSim ps 0%Z [] ∅) 2000%N = Some (s', n').
Proof.
  destruct (initialState_run halfHost PARTICLE_COUNT 1 0%N) as (ps & Hps & _).
  destruct (tick_never_throws halfHost defaultConfig (mkSim ps 0%Z [] ∅) 2000%N
              halfHost_unitDraws) as (s' & n' & Ht).
  - by eapply reachable_start.
  - exists ps, s', n'. split; [exact Hps | exact Ht].
Defined.

(** X7. One frame, from a reachable state and with draws in [0, 1): the
    callback returns, the clock has advanced by the speed setting, the
    history has one more row stamped with the new clock and holding the
    tally of the new population, and the running maximum of Rt dominates
    both its previous value and the new estimate. *)
Theorem animate_frame (host : Host) (cfg : Config) (a : App) (n : N) :
  unitDraws host → reachable host (sim a) n →
  ∃ a' n',
    animate host cfg a n = Some (a', n')
    ∧ reachable host (sim a') n'
    ∧ timeRef (sim a') = (timeRef (sim a) + Z.of_nat (speed cfg))%Z
    ∧ history a'
      = history a ++ [mkRow (timeRef (sim a')) (tally (particles (sim a')))]
    ∧ rt a' = newRt (sim a')
    ∧ rt a' <= maxRt a' ∧ maxRt a <= maxRt a'.
Proof.
  intros Hu Hr. unfold animate.
  destruct (frame_runs host cfg (speed cfg) 0 (sim a) n Hu Hr)
    as (s' & n' & Hrun & Hr' & Htime).
  rewrite bind_eq, Hrun. eexists _, _. split; [reflexivity|]. simpl.
  destruct (Qcmax_ge (maxRt a) (newRt s')). done.
Qed.

Lemma animate_frame_witness :
  ∃ a a' n',
    restartSimulation halfHost defaultConfig 0%N = Some (a, 2000%N)
    ∧ animate halfHost defaultConfig a 2000%N = Some (a', n')
    ∧ timeRef (sim a') = 1%Z
    ∧ length (history a') = 1%nat.
Proof.
  destruct (initialState_run halfHost PARTICLE_COUNT 5 0%N) as (ps & Hps & _).
  assert (restartSimulation halfHost defaultConfig 0%N
          = Some (mkApp (mkSim ps 0%Z [] ∅) [] 0 0, 2000%N)) as Hstart.
  { unfold restartSimulation. rewrite bind_eq.
    change (initialInfected defaultConfig) with 5%nat. by rewrite Hps. }
  destruct (animate_frame halfHost defaultConfig
              (mkApp (mkSim ps 0%Z [] ∅) [] 0 0) 2000%N halfHost_unitDraws)
    as (a' & n' & Ha & _ & Htime & Hhist & _).
  - by eapply reachable_start.
  - eexists _, a', n'. split; [exact Hstart|]. split; [exact Ha|].
    split; [exact Htime|]. by rewrite Hhist.
Defined.

(** X8. One tick advances the clock by one and only appends to the event
    log; each new event is stamped with the new clock, names an existing
    particle as infector, and is matched by one healthy particle fewer. *)
Theorem tick_event_log (host : Host) (cfg : Config) (s s' : Sim) (n n' : N) :
  tick host cfg s n = Some (s', n') →
  timeRef s' = (timeRef s + 1)%Z
  ∧ ∃ new, infectionEvents s' = infectionEvents s ++ new
      ∧ Forall (λ e, time e = timeRef s'
                     ∧ (infectorIndex e < length (particles s))%nat) new
      ∧ (census isHealthy (particles s') + length new
         = census isHealthy (particles s))%nat.
Proof. apply tick_logs. Qed.

(** X9. Over any number of ticks, whatever the sliders do in between, the
    number of healthy particles plus the length of the event log is
    constant: every exposure is logged exactly once and nothing else is. *)
Theorem exposures_are_logged (host : Host) (s s' : Sim) (n n' : N) :
  ticks host s n s' n' →
  (census isHealthy (particles s') + length (infectionEvents s')
   = census isHealthy (particles s) + length (infectionEvents s))%nat.
Proof.
  induction 1 as [|cfg s n s1 n1 s2 n2 Ht _ IH]; [done|].
  apply tick_logs in Ht as (_ & new & He & _ & Hc).
  rewrite IH, He, length_app. lia.
Qed.

(** ** One particle through one tick *)

Section Steps.

Context (host : Host).

Lemma infStep_cases cfg p q :
  infStep host cfg p q →
  (status p = healthy ∧ q = exposedNow p
   ∧ ∃ n, Math_random host n < round64 (infectionProbability cfg / Q2Qc 10))
  ∨ (status p = infected ∧ quarantined p = false
     ∧ ∃ n, q = resolved cfg (aged cfg (Math_random host n) p)).
Proof. intros [r n Hst Hq|r n Hst Hd]; [right | left]; eauto. Qed.

Lemma aged_status cfg d p : status (aged cfg d p) = status p.
Proof. unfold aged. cbv zeta. by repeat case_match. Qed.

Lemma aged_willDie cfg d p :
  willDie (aged cfg d p)
  = Some (default (Qcltb d (deathRate cfg)) (willDie p)).
Proof.
  unfold aged. cbv zeta. psimpl.
  destruct (willDie p) eqn:Hw; psimpl; rewrite ?Hw; done.
Qed.

Lemma aged_timeInfected cfg d p :
  timeInfected (aged cfg d p) = (timeInfected p + 1)%Z.
Proof. unfold aged. cbv zeta. psimpl. by destruct (willDie p). Qed.

(** The three ways a source leaves its step. *)
Lemma resolved_cases cfg p :
  (resolved cfg p = set_status dead p ∧ willDie p = Some true
   ∧ recoveryTime cfg / 2 < ofZ (timeInfected p))
  ∨ (resolved cfg p = set_status recovered p ∧ willDie p ≠ Some true
     ∧ recoveryTime cfg < ofZ (timeInfected p))
  ∨ resolved cfg p = p.
Proof.
  unfold resolved. cbv zeta.
  case_bool_decide as Hd; simpl.
  - destruct (Qcltb _ _) eqn:Ht; [|by right; right].
    left. apply Qcltb_lt in Ht. done.
  - destruct (Qcltb _ _) eqn:Ht; [|by right; right].
    right. left. apply Qcltb_lt in Ht. done.
Qed.

Lemma infStep_from cfg p q :
  infStep host cfg p q → status p = healthy ∨ status p = infected.
Proof. intros [H|H]%infStep_cases; [left | right]; apply H. Qed.

(** Exposed, recovered and dead particles are left alone. *)
Lemma infSteps_stuck cfg p q :
  rtc (infStep host cfg) p q →
  status p ≠ healthy → status p ≠ infected → q = p.
Proof.
  intros H Hh Hi. destruct H as [|p r q Hstep _]; [done|].
  apply infStep_from in Hstep as [?|?]; done.
Qed.

Lemma infSteps_healthy cfg p q :
  rtc (infStep host cfg) p q → status p = healthy →
  q = p ∨ (q = exposedNow p
           ∧ ∃ n, Math_random host n < round64 (infectionProbability cfg / Q2Qc 10)).
Proof.
  intros H Hh. destruct H as [|p r q Hstep Hrest]; [by left|].
  apply infStep_cases in Hstep as [(_ & -> & Hn)|(Hi & _)]; [|congruence].
  right. split; [|done]. by apply infSteps_stuck in Hrest.
Qed.

(** A property kept by every step of a source is kept along the steps
    from an infected particle. *)
Lemma infSteps_infected cfg (P : Particle → Prop) p q :
  (∀ r k, status r = infected → quarantined r = false → P r →
          P (resolved cfg (aged cfg (Math_random host k) r))) →
  rtc (infStep host cfg) p q → status p = infected → P p → P q.
Proof.
  intros HP H. induction H as [|p r q Hstep Hrest IH]; intros Hi Hp; [done|].
  apply infStep_cases in Hstep as [(Hh & _)|(_ & Hq & n & ->)]; [congruence|].
  pose proof (HP p n Hi Hq Hp) as Hr.
  destruct (resolved_cases cfg (aged cfg (Math_random host n) p))
    as [(He & _)|[(He & _)|He]]; rewrite He in *.
  - apply infSteps_stuck in Hrest; [by subst | done..].
  - apply infSteps_stuck in Hrest; [by subst | done..].
  - apply IH; [by rewrite aged_status | done].
Qed.

Lemma incubate_cases cfg p :
  (status p ≠ exposed ∧ incubate cfg p = p)
  ∨ (status p = exposed ∧ status (incubate cfg p) = exposed
     ∧ timeInfected (incubate cfg p) = (timeInfected p + 1)%Z
     ∧ willDie (incubate cfg p) = willDie p
     ∧ ofZ (timeInfected p + 1) <= incubationPeriod cfg)
  ∨ (status p = exposed ∧ status (incubate cfg p) = infected
     ∧ timeInfected (incubate cfg p) = 0%Z
     ∧ willDie (incubate cfg p) = None
     ∧ incubationPeriod cfg < ofZ (timeInfected p + 1)).
Proof.
  unfold incubate, Status_eqb. case_bool_decide as He; [|by left].
  right. cbv zeta. psimpl. destruct (Qcltb _ _) eqn:Ht.
  - right. apply Qcltb_lt in Ht. by destruct (quarantineMode cfg).
  - left. apply Qcltb_ge in Ht. done.
Qed.

Lemma incubate_position cfg p : position (incubate cfg p) = position p.
Proof. unfold incubate. by repeat case_match. Qed.

Lemma incubate_qstate cfg p : qstate (incubate cfg p) = qstate p.
Proof. unfold incubate. by repeat case_match. Qed.

Lemma sameBody_position p p' : sameBody p p' → position p' = position p.
Proof. intros (st & ti & wd & ic & ->). by destruct p. Qed.

Lemma sameBody_region p p' :
  sameBody p p' → currentCommunity p' = currentCommunity p.
Proof. intros (st & ti & wd & ic & ->). by destruct p. Qed.

End Steps.

(** ** Motion of particles outside the quarantine life cycle *)

Section FreeMotion.

Context (host : Host).

Lemma quarantineLogic_skip cfg p n :
  quarantineMode cfg = false ∨ (status p ≠ infected ∧ quarantined p = false) →
  quarantineLogic host cfg p n = Some (p, n).
Proof.
  intros [Hoff|[Hst Hq]]; unfold quarantineLogic, Status_eqb.
  - by rewrite Hoff.
  - destruct (negb (quarantineMode cfg)); [done|].
    destruct p; cbn in Hst, Hq; subst.
    match goal with st : Status |- _ => destruct st end; try done; reflexivity.
Qed.

Lemma bounce_qstate b p : qstate (bounce b p) = qstate p.
Proof. unfold bounce. crunch. Qed.

Lemma centreEntry_qstate b p n p' n' :
  centreEntry host b p n = Some (p', n') → qstate p' = qstate p.
Proof. unfold centreEntry. intros H. crunch. Qed.

Lemma centreMotion_qstate b p n p' n' :
  centreMotion host b p n = Some (p', n') → qstate p' = qstate p.
Proof. unfold centreMotion. intros H. crunch. Qed.

Lemma travelStep_qstate p n p' n' :
  travelStep host p n = Some (p', n') → qstate p' = qstate p.
Proof. unfold travelStep. intros H. crunch. Qed.

Lemma brownian_qstate b p n p' n' :
  brownian host b p n = Some (p', n') → qstate p' = qstate p.
Proof. unfold brownian. intros H. crunch. Qed.

Lemma randomTravel_qstate p n p' n' :
  randomTravel host p n = Some (p', n') → qstate p' = qstate p.
Proof. unfold randomTravel. intros H. crunch. Qed.

Lemma visitExpiry_qstate p : qstate (visitExpiry p) = qstate p.
Proof. unfold visitExpiry. crunch. Qed.

Lemma normalBehaviour_qstate p n p' n' :
  normalBehaviour host p n = Some (p', n') → qstate p' = qstate p.
Proof.
  unfold normalBehaviour. intros H.
  apply bind_Some in H as (b & n1 & _ & H). cbv zeta in H.
  apply bind_Some in H as (p1 & n2 & H1 & H).
  apply centreEntry_qstate in H1. rewrite bounce_qstate in H1.
  rewrite <- H1. clear H1.
  destruct (atCentre p1); [by eapply centreMotion_qstate|].
  destruct (isTravelling p1); [by eapply travelStep_qstate|].
  apply bind_Some in H as (p2 & n3 & H2 & H).
  apply bind_Some in H as (p3 & n4 & H3 & H).
  apply ret_Some in H as [<- _].
  rewrite visitExpiry_qstate.
  apply brownian_qstate in H2. apply randomTravel_qstate in H3. congruence.
Qed.

Lemma free_qstate p p' : qstate p' = qstate p → free p → free p'.
Proof. unfold qstate, free. intros [= -> -> ->]. done. Qed.

(** The motion loop keeps a free particle free unless it is an infected
    particle under quarantine mode. *)
Lemma moveParticle_free cfg p n p' n' :
  moveParticle host cfg p n = Some (p', n') →
  quarantineMode cfg = false ∨ status p ≠ infected →
  free p → free p'.
Proof.
  unfold moveParticle. intros H Hcase Hfree.
  pose proof Hfree as (Hq & He & Hg).
  rewrite bind_eq, quarantineLogic_skip in H by (destruct Hcase; auto).
  unfold entryAnimating, homeAnimating in H. rewrite He, Hg, Hq in H.
  apply normalBehaviour_qstate in H. by eapply free_qstate.
Qed.

(** A quarantined particle with no transit pending is not moved, unless it
    is due for release. *)
Lemma moveParticle_still cfg p n p' n' :
  moveParticle host cfg p n = Some (p', n') →
  quarantined p = true → quarantineEntryAnim p = None → goingHomeAnim p = None →
  quarantineMode cfg = false ∨ (status p ≠ recovered ∧ status p ≠ dead) →
  position p' = position p ∧ currentCommunity p' = currentCommunity p
  ∧ qstate p' = qstate p.
Proof.
  unfold moveParticle, quarantineLogic, startQuarantineEntry.
  intros H Hq He Hg Hcase.
  unfold entryAnimating, homeAnimating, Status_eqb in H.
  destruct (quarantineMode cfg) eqn:Hmode; simpl in H.
  - destruct Hcase as [?|[Hr Hd]]; [done|].
    destruct p; cbn in Hq, He, Hg, Hr, Hd; subst.
    match goal with st : Status |- _ => destruct st end; try done; crunch.
  - destruct p; cbn in Hq, He, Hg; subst. crunch.
Qed.

End FreeMotion.

(** ** Consequences for single particles *)

Lemma zeroHost_unitDraws : unitDraws zeroHost.
Proof. intros k. split; reflexivity || discriminate. Qed.

Lemma blank_registered st px py :
  registered (at_ px py (set_status st blank)).
Proof. unfold registered. simpl. lia. Qed.

Lemma pairState_registered : Forall registered (particles pairState).
Proof.
  repeat constructor; simpl; lia.
Qed.

Lemma confinedState_registered : Forall registered (particles confinedState).
Proof.
  repeat constructor; simpl; unfold QUARANTINE_COMMUNITY_IDX; lia.
Qed.

Section Particles.

Context (host : Host).

Lemma resolved_willDie cfg p : willDie (resolved cfg p) = willDie p.
Proof.
  destruct (resolved_cases cfg p) as [(-> & _)|[(-> & _)| ->]]; done.
Qed.

Lemma resolved_timeInfected cfg p :
  timeInfected (resolved cfg p) = timeInfected p.
Proof.
  destruct (resolved_cases cfg p) as [(-> & _)|[(-> & _)| ->]]; done.
Qed.

Lemma resolved_status cfg p :
  status p = infected →
  status (resolved cfg p) = infected ∨ status (resolved cfg p) = recovered
  ∨ status (resolved cfg p) = dead.
Proof.
  intros Hi. destruct (resolved_cases cfg p) as [(-> & _)|[(-> & _)| ->]]; auto.
Qed.

(** The step that ended an episode. *)
Lemma infSteps_last cfg p q :
  rtc (infStep host cfg) p q →
  status q = dead ∨ status q = recovered → status q ≠ status p →
  ∃ r d, status r = infected ∧ q = resolved cfg (aged cfg d r).
Proof.
  intros H Hq Hne. apply rtc_inv_r in H as [->|(r & _ & Hstep)]; [done|].
  apply infStep_cases in Hstep as [(_ & -> & _)|(Hi & _ & n & ->)].
  - destruct Hq as [Hq|Hq]; discriminate Hq.
  - eauto.
Qed.

Lemma tickSteps_status_back cfg p p' :
  tickSteps host cfg p p' →
  status p' = healthy ∨ status p' = exposed →
  status p = healthy ∨ status p = exposed.
Proof.
  intros (p1 & p2 & (n1 & n2 & Hm) & Hsteps & ->) Hst.
  apply moveParticle_health in Hm. unfold health in Hm.
  assert (status p1 = status p) as <- by congruence. clear Hm.
  assert (status p2 = healthy ∨ status p2 = exposed) as Hst2.
  { destruct (incubate_cases cfg p2) as [(_ & He)|[(? & _)|(_ & Hi & _)]].
    - by rewrite He in Hst.
    - by right.
    - rewrite Hi in Hst. by destruct Hst. }
  clear Hst. destruct (status p1) eqn:Hs1; auto; exfalso.
  - assert (status p2 = infected ∨ status p2 = recovered ∨ status p2 = dead) as H.
    { apply (infSteps_infected host cfg
               (λ r, status r = infected ∨ status r = recovered ∨ status r = dead)
               p1 p2); [|exact Hsteps|exact Hs1|by left].
      intros r d Hr _ _. apply resolved_status. by rewrite aged_status. }
    destruct Hst2 as [?|?], H as [?|[?|?]]; congruence.
  - apply infSteps_stuck in Hsteps; [|congruence..]. subst.
    destruct Hst2; congruence.
  - apply infSteps_stuck in Hsteps; [|congruence..]. subst.
    destruct Hst2; congruence.
Qed.

End Particles.

(** X10. The infection logic writes nothing of a particle but [status],
    [timeInfected], [willDie] and [infectionCount]: it never moves a
    particle, never changes its region and never touches the quarantine
    life cycle. *)
Theorem infectionLogic_frame (host : Host) (cfg : Config) (s s' : Sim)
    (n n' : N) :
  infectionLogic host cfg s n = Some (s', n') →
  Forall2 sameBody (particles s) (particles s').
Proof.
  intros H. apply infectionLogic_steps in H.
  eapply Forall2_impl; [exact H|]. intros p q. apply infSteps_sameBody.
Qed.

Lemma infectionLogic_frame_witness :
  ∃ s' n', infectionLogic zeroHost defaultConfig pairState 0%N = Some (s', n')
           ∧ Forall2 sameBody (particles pairState) (particles s').
Proof.
  destruct (infectionLogic_runs zeroHost defaultConfig pairState 0%N)
    as (s' & n' & H).
  exists s', n'. split; [exact H|].
  exact (infectionLogic_frame zeroHost defaultConfig pairState s' 0%N n' H).
Defined.

(** X11. The home region of a particle never changes, over any number of
    ticks and whatever the sliders do in between. *)
Theorem home_is_fixed (host : Host) (s s' : Sim) (n n' : N) (i : nat)
    (p : Particle) :
  ticks host s n s' n' → particles s !! i = Some p →
  ∃ p', particles s' !! i = Some p' ∧ homeCommunity p' = homeCommunity p.
Proof.
  intros Hticks Hp.
  destruct (ticks_lookup host _ _ _ _ _ _ Hticks Hp) as [p' Hp'].
  exists p'. split; [exact Hp'|].
  revert Hticks Hp Hp'.
  apply (ticks_preserve host (λ p p', homeCommunity p' = homeCommunity p));
    [done|].
  intros cfg q q1 q2 (r1 & r2 & (n1 & n2 & Hm) & Hev & ->) H12.
  rewrite H12. apply moveParticle_health in Hm. apply evolves_place in Hev.
  pose proof (incubate_place cfg r2) as Hinc.
  unfold health in Hm. unfold place in Hev, Hinc. congruence.
Qed.

Lemma home_is_fixed_witness :
  ∃ s' n' p',
    tick zeroHost defaultConfig pairState 0%N = Some (s', n')
    ∧ particles s' !! 1%nat = Some p' ∧ homeCommunity p' = 0%Z.
Proof.
  destruct (tick_total zeroHost defaultConfig pairState 0%N zeroHost_unitDraws
              pairState_registered) as (s' & n' & Ht & _).
  destruct (home_is_fixed zeroHost pairState s' 0%N n' 1%nat (at_ 106 100 blank))
    as (p' & Hp' & Hhome).
  - eapply ticks_step; [exact Ht | apply ticks_refl].
  - reflexivity.
  - exists s', n', p'. split; [exact Ht|]. split; [exact Hp' | exact Hhome].
Defined.

(** X12. While quarantine mode is off nobody is sent to quarantine: a
    particle that is neither quarantined nor in transit is still so after
    the tick. *)
Theorem quarantine_off_keeps_free (host : Host) (cfg : Config) (s s' : Sim)
    (n n' : N) (i : nat) (p : Particle) :
  quarantineMode cfg = false →
  tick host cfg s n = Some (s', n') →
  particles s !! i = Some p → free p →
  ∃ p', particles s' !! i = Some p' ∧ free p'.
Proof.
  intros Hoff Ht Hp Hfree.
  destruct (tick_steps_lookup host _ _ _ _ _ _ _ Ht Hp)
    as (p' & Hp' & p1 & p2 & (n1 & n2 & Hm) & Hsteps & ->).
  exists (incubate cfg p2). split; [exact Hp'|].
  eapply free_qstate; [apply incubate_qstate|].
  eapply free_qstate; [eapply sameBody_qstate, infSteps_sameBody, Hsteps|].
  eapply moveParticle_free; eauto.
Qed.

Lemma quarantine_off_keeps_free_witness :
  ∃ s' n' p',
    tick zeroHost defaultConfig pairState 0%N = Some (s', n')
    ∧ particles s' !! 0%nat = Some p' ∧ free p'.
Proof.
  destruct (tick_total zeroHost defaultConfig pairState 0%N zeroHost_unitDraws
              pairState_registered) as (s' & n' & Ht & _).
  destruct (quarantine_off_keeps_free zeroHost defaultConfig pairState s' 0%N n'
              0%nat (at_ 100 100 (set_status infected blank)))
    as (p' & Hp' & Hfree).
  - reflexivity.
  - exact Ht.
  - reflexivity.
  - repeat split.
  - exists s', n', p'. split; [exact Ht|]. split; [exact Hp' | exact Hfree].
Defined.

(** X13. In every state reachable after a restart, a healthy or exposed
    particle is neither quarantined nor in transit to or from quarantine:
    only infected particles are ever sent there. *)
Theorem susceptible_are_free (host : Host) (s : Sim) (n : N) (i : nat)
    (p : Particle) :
  reachable host s n → particles s !! i = Some p →
  status p = healthy ∨ status p = exposed → free p.
Proof.
  intros Hr. revert i p.
  induction Hr as [k n n' ps Hinit|cfg s s' n n' _ IH Htick]; intros i p Hp Hst.
  - simpl in Hp.
    destruct (initialState_run host PARTICLE_COUNT k n) as (ps' & Hps & HF).
    rewrite Hps in Hinit. injection Hinit as <- _.
    destruct (Forall2_lookup_r _ _ _ _ _ HF Hp) as (j & _ & Hs & _).
    apply Hs.
  - pose proof (tick_steps host _ _ _ _ _ Htick) as HF.
    destruct (Forall2_lookup_r _ _ _ _ _ HF Hp) as (q & Hq & Hsteps).
    pose proof (tickSteps_status_back host _ _ _ Hsteps Hst) as Hstq.
    pose proof (IH i q Hq Hstq) as Hfree.
    destruct Hsteps as (p1 & p2 & (n1 & n2 & Hm) & Hsteps & ->).
    eapply free_qstate; [apply incubate_qstate|].
    eapply free_qstate; [eapply sameBody_qstate, infSteps_sameBody, Hsteps|].
    eapply moveParticle_free; [exact Hm | | exact Hfree].
    right. destruct Hstq; congruence.
Qed.

Lemma susceptible_are_free_witness :
  ∃ ps p, initialState halfHost PARTICLE_COUNT 1 0%N = Some (ps, 2000%N)
          ∧ ps !! 1%nat = Some p ∧ free p.
Proof.
  destruct (initialState_run halfHost PARTICLE_COUNT 1 0%N) as (ps & Hps & HF).
  destruct (Forall2_lookup_l _ _ _ 1%nat 1%nat HF) as (p & Hp & Hs & _);
    [reflexivity|].
  exists ps, p. split; [exact Hps|]. split; [exact Hp|].
  apply (susceptible_are_free halfHost (mkSim ps 0%Z [] ∅) 2000%N 1%nat p).
  - by eapply reachable_start.
  - exact Hp.
  - left. apply Hs.
Defined.

Section Outcomes.

Context (host : Host).

Lemma no_draw_below cfg n :
  (∀ k, 0 <= Math_random host k) → infectionProbability cfg <= 0 →
  ¬ Math_random host n < round64 (infectionProbability cfg / Q2Qc 10).
Proof.
  intros Hd Hp Hlt. specialize (Hd n).
  assert (infectionProbability cfg / Q2Qc 10 <= 0) as Hq.
  { unfold Qcle in *. rewrite this_div.
    change (this (Q2Qc 0)) with 0%Q in *. change (this (Q2Qc 10)) with 10%Q.
    apply Qle_shift_div_r; lra. }
  apply round64_mono in Hq. rewrite round64_zero in Hq.
  apply (Qcle_not_lt _ _ Hd). by eapply Qclt_le_trans.
Qed.

(** With no draw below the infection probability, a tick keeps the health
    flag of every particle. *)
Lemma tickSteps_isHealthy cfg p p' :
  (∀ k, 0 <= Math_random host k) → infectionProbability cfg <= 0 →
  tickSteps host cfg p p' → isHealthy p' = isHealthy p.
Proof.
  intros Hd Hprob (p1 & p2 & (n1 & n2 & Hm) & Hsteps & ->).
  rewrite incubate_isHealthy.
  apply moveParticle_health in Hm. unfold health in Hm.
  assert (status p1 = status p) as Hs1 by congruence. clear Hm.
  unfold isHealthy. rewrite <- Hs1. clear Hs1.
  destruct (status p1) eqn:Hs.
  - apply infSteps_healthy in Hsteps; [|done].
    destruct Hsteps as [->|(_ & k & Hk)]; [by rewrite Hs|].
    by apply no_draw_below in Hk.
  - apply infSteps_stuck in Hsteps as ->; [by rewrite Hs | congruence..].
  - assert (status p2 = infected ∨ status p2 = recovered ∨ status p2 = dead) as H.
    { apply (infSteps_infected host cfg
               (λ r, status r = infected ∨ status r = recovered ∨ status r = dead)
               p1 p2); [|exact Hsteps|exact Hs|by left].
      intros r d Hr _ _. apply resolved_status. by rewrite aged_status. }
    by destruct H as [-> |[-> | ->]].
  - apply infSteps_stuck in Hsteps as ->; [by rewrite Hs | congruence..].
  - apply infSteps_stuck in Hsteps as ->; [by rewrite Hs | congruence..].
Qed.

Lemma spared_source cfg r d :
  deathRate cfg <= d → status r = infected → spared r →
  spared (resolved cfg (aged cfg d r)).
Proof.
  intros Hd Hi [_ Hw].
  assert (willDie (aged cfg d r) ≠ Some true) as Hw'.
  { rewrite aged_willDie. destruct (willDie r) as [[]|]; simpl; try done.
    apply Qcltb_ge in Hd. by rewrite Hd. }
  split; [|by rewrite resolved_willDie].
  destruct (resolved_cases cfg (aged cfg d r)) as [(_ & ? & _)|[(-> & _)| ->]];
    [done| |]; simpl.
  - done.
  - by rewrite aged_status, Hi.
Qed.

Lemma tickSteps_spared cfg p p' :
  (∀ k, deathRate cfg <= Math_random host k) →
  tickSteps host cfg p p' → spared p → spared p'.
Proof.
  intros Hd (p1 & p2 & (n1 & n2 & Hm) & Hsteps & ->) [Hst Hw].
  apply moveParticle_health in Hm. unfold health in Hm.
  assert (spared p1) as Hsp1 by (unfold spared; split; congruence). clear Hm.
  assert (spared p2) as [Hst2 Hw2].
  { destruct (status p1) eqn:Hs.
    - apply infSteps_healthy in Hsteps; [|done].
      destruct Hsteps as [->|(-> & _)]; [done|].
      destruct Hsp1. by split.
    - apply infSteps_stuck in Hsteps as ->; [done | congruence..].
    - revert Hsteps Hs Hsp1. apply infSteps_infected.
      intros r k Hr _ Hsp. by apply spared_source.
    - apply infSteps_stuck in Hsteps as ->; [done | congruence..].
    - apply infSteps_stuck in Hsteps as ->; [done | congruence..]. }
  destruct (incubate_cases cfg p2)
    as [(_ & ->)|[(_ & He & _ & Hwd & _)|(_ & Hi & _ & Hwd & _)]].
  - by split.
  - split; [by rewrite He | by rewrite Hwd].
  - split; [by rewrite Hi | by rewrite Hwd].
Qed.

End Outcomes.

(** X14. With the infection probability at 0 (and draws that are not
    negative) a tick infects nobody: the event log is unchanged and every
    healthy particle is still healthy. *)
Theorem no_transmission_without_probability (host : Host) (cfg : Config)
    (s s' : Sim) (n n' : N) :
  (∀ k, 0 <= Math_random host k) → infectionProbability cfg <= 0 →
  tick host cfg s n = Some (s', n') →
  infectionEvents s' = infectionEvents s
  ∧ ∀ i p, particles s !! i = Some p → status p = healthy →
      ∃ p', particles s' !! i = Some p' ∧ status p' = healthy.
Proof.
  intros Hd Hprob Ht. split.
  - pose proof (tick_logs host _ _ _ _ _ Ht) as (_ & new & He & _ & Hc).
    assert (census isHealthy (particles s') = census isHealthy (particles s))
      as Hsame.
    { eapply census_Forall2; [|eapply tick_steps, Ht].
      intros p p'. by apply tickSteps_isHealthy. }
    assert (length new = 0%nat) as Hnil by lia.
    apply nil_length_inv in Hnil. subst new. by rewrite app_nil_r in He.
  - intros i p Hp Hst.
    destruct (tick_steps_lookup host _ _ _ _ _ _ _ Ht Hp) as (p' & Hp' & Hsteps).
    exists p'. split; [exact Hp'|].
    apply (tickSteps_isHealthy host cfg _ _ Hd Hprob) in Hsteps.
    unfold isHealthy, Status_eqb in Hsteps. rewrite Hst in Hsteps.
    by apply bool_decide_eq_true in Hsteps.
Qed.

Lemma no_transmission_without_probability_witness :
  ∃ s' n' p',
    tick zeroHost harmlessConfig pairState 0%N = Some (s', n')
    ∧ infectionEvents s' = []
    ∧ particles s' !! 1%nat = Some p' ∧ status p' = healthy.
Proof.
  destruct (tick_total zeroHost harmlessConfig pairState 0%N zeroHost_unitDraws
              pairState_registered) as (s' & n' & Ht & _).
  destruct (no_transmission_without_probability zeroHost harmlessConfig
              pairState s' 0%N n') as [He Hkeep].
  - intros k. apply Qcle_refl.
  - apply Qcle_refl.
  - exact Ht.
  - destruct (Hkeep 1%nat (at_ 106 100 blank)) as (p' & Hp' & Hst);
      [reflexivity..|].
    exists s', n', p'. split; [exact Ht|]. split; [exact He|].
    split; [exact Hp' | exact Hst].
Defined.

(** X15. With the death rate at or below every draw (the slider at 0)
    nobody dies and nobody is doomed: a particle that is neither dead nor
    marked to die is still so after the tick. *)
Theorem no_death_without_rate (host : Host) (cfg : Config) (s s' : Sim)
    (n n' : N) (i : nat) (p : Particle) :
  (∀ k, deathRate cfg <= Math_random host k) →
  tick host cfg s n = Some (s', n') →
  particles s !! i = Some p → spared p →
  ∃ p', particles s' !! i = Some p' ∧ spared p'.
Proof.
  intros Hd Ht Hp Hsp.
  destruct (tick_steps_lookup host _ _ _ _ _ _ _ Ht Hp) as (p' & Hp' & Hsteps).
  exists p'. split; [exact Hp'|]. by eapply tickSteps_spared.
Qed.

Lemma no_death_without_rate_witness :
  ∃ s' n' p',
    tick zeroHost harmlessConfig pairState 0%N = Some (s', n')
    ∧ particles s' !! 0%nat = Some p' ∧ spared p'.
Proof.
  destruct (tick_total zeroHost harmlessConfig pairState 0%N zeroHost_unitDraws
              pairState_registered) as (s' & n' & Ht & _).
  destruct (no_death_without_rate zeroHost harmlessConfig pairState s' 0%N n'
              0%nat (at_ 100 100 (set_status infected blank)))
    as (p' & Hp' & Hsp).
  - intros k. apply Qcle_refl.
  - exact Ht.
  - reflexivity.
  - split; discriminate.
  - exists s', n', p'. split; [exact Ht|]. split; [exact Hp' | exact Hsp].
Defined.

(** X16. No outcome before its time: a particle that dies during a tick was
    marked to die and has been infected for more than half the recovery
    time; one that recovers was marked to survive and has been infected for
    more than the recovery time. *)
Theorem outcome_thresholds (host : Host) (cfg : Config) (s s' : Sim)
    (n n' : N) (i : nat) (p p' : Particle) :
  tick host cfg s n = Some (s', n') →
  particles s !! i = Some p → particles s' !! i = Some p' →
  (status p ≠ dead → status p' = dead →
   willDie p' = Some true ∧ recoveryTime cfg / 2 < ofZ (timeInfected p'))
  ∧ (status p ≠ recovered → status p' = recovered →
     willDie p' = Some false ∧ recoveryTime cfg < ofZ (timeInfected p')).
Proof.
  intros Ht Hp Hp'.
  destruct (tick_steps_lookup host _ _ _ _ _ _ _ Ht Hp)
    as (q & Hq & p1 & p2 & (n1 & n2 & Hm) & Hsteps & ->).
  rewrite Hp' in Hq. injection Hq as ->.
  apply moveParticle_health in Hm. unfold health in Hm.
  assert (status p1 = status p) as Hs1 by congruence. clear Hm.
  assert (∀ st, st = dead ∨ st = recovered →
            status p ≠ st → status (incubate cfg p2) = st →
            incubate cfg p2 = p2
            ∧ ∃ r d, status r = infected ∧ p2 = resolved cfg (aged cfg d r))
    as Hlast.
  { intros st Hst Hne Hend.
    destruct (incubate_cases cfg p2) as [(_ & He)|[(_ & He & _)|(_ & He & _)]];
      [|destruct Hst; congruence..].
    split; [exact He|]. rewrite He in Hend.
    apply (infSteps_last host cfg p1 p2 Hsteps);
      [destruct Hst; subst; auto | congruence]. }
  split; intros Hne Hend.
  - destruct (Hlast dead) as (Hinc & r & d & Hr & ->); [auto..|].
    rewrite Hinc in *. clear Hinc.
    destruct (resolved_cases cfg (aged cfg d r))
      as [(He & Hw & Hlt)|[(He & _)|He]]; rewrite He in *.
    + done.
    + discriminate Hend.
    + rewrite aged_status in Hend. congruence.
  - destruct (Hlast recovered) as (Hinc & r & d & Hr & ->); [auto..|].
    rewrite Hinc in *. clear Hinc.
    destruct (resolved_cases cfg (aged cfg d r))
      as [(He & _)|[(He & Hw & Hlt)|He]]; rewrite He in *.
    + discriminate Hend.
    + split; [|done]. psimpl. rewrite aged_willDie in *.
      destruct (default _ _); done.
    + rewrite aged_status in Hend. congruence.
Qed.

Lemma doomedState_registered : Forall registered (particles doomedState).
Proof. repeat constructor; simpl; lia. Qed.

Lemma outcome_thresholds_witness :
  ∃ s' n' p',
    tick zeroHost defaultConfig doomedState 0%N = Some (s', n')
    ∧ particles s' !! 0%nat = Some p'
    ∧ status p' = dead
    ∧ willDie p' = Some true
    ∧ recoveryTime defaultConfig / 2 < ofZ (timeInfected p').
Proof.
  assert (endsAs dead 0 (tick zeroHost defaultConfig doomedState 0%N) = true)
    as Hc by (vm_compute; reflexivity).
  destruct (tick zeroHost defaultConfig doomedState 0%N) as [[s' n']|] eqn:Ht;
    [|discriminate].
  simpl in Hc. destruct (particles s' !! 0%nat) as [p'|] eqn:Hp'; [|discriminate].
  apply bool_decide_eq_true in Hc.
  destruct (outcome_thresholds zeroHost defaultConfig doomedState s' 0%N n'
              0%nat _ p' Ht eq_refl Hp') as [Hdead _].
  exists s', n', p'. split; [reflexivity|]. split; [exact Hp'|].
  split; [exact Hc|]. apply Hdead; [discriminate | exact Hc].
Defined.

(** X17. The outcome of an infection is drawn once: an infected particle
    whose [willDie] flag is set carries the same flag after the tick,
    whatever the death-rate slider has become. *)
Theorem outcome_is_drawn_once (host : Host) (cfg : Config) (s s' : Sim)
    (n n' : N) (i : nat) (p : Particle) (b : bool) :
  tick host cfg s n = Some (s', n') →
  particles s !! i = Some p → status p = infected → willDie p = Some b →
  ∃ p', particles s' !! i = Some p' ∧ willDie p' = Some b.
Proof.
  intros Ht Hp Hst Hw.
  destruct (tick_steps_lookup host _ _ _ _ _ _ _ Ht Hp)
    as (p' & Hp' & p1 & p2 & (n1 & n2 & Hm) & Hsteps & ->).
  exists (incubate cfg p2). split; [exact Hp'|].
  apply moveParticle_health in Hm. unfold health in Hm.
  assert (status p1 = infected) as Hs1 by congruence.
  assert (willDie p1 = Some b) as Hw1 by congruence. clear Hm.
  assert (willDie p2 = Some b ∧ status p2 ≠ exposed) as [Hw2 Hs2].
  { apply (infSteps_infected host cfg
             (λ r, willDie r = Some b ∧ status r ≠ exposed) p1 p2);
      [|exact Hsteps|exact Hs1|by rewrite Hs1].
    intros r k Hr _ [Hwr _]. split.
    - by rewrite resolved_willDie, aged_willDie, Hwr.
    - destruct (resolved_status cfg (aged cfg (Math_random host k) r))
        as [H|[H|H]]; [by rewrite aged_status|rewrite H; discriminate..]. }
  destruct (incubate_cases cfg p2) as [(_ & ->)|[(? & _)|(? & _)]]; done.
Qed.

Lemma outcome_is_drawn_once_witness :
  ∃ s' n' p',
    tick zeroHost harmlessConfig doomedState 0%N = Some (s', n')
    ∧ particles s' !! 0%nat = Some p' ∧ willDie p' = Some true.
Proof.
  destruct (tick_total zeroHost harmlessConfig doomedState 0%N zeroHost_unitDraws
              doomedState_registered) as (s' & n' & Ht & _).
  destruct (outcome_is_drawn_once zeroHost harmlessConfig doomedState s' 0%N n'
              0%nat _ true Ht eq_refl eq_refl eq_refl) as (p' & Hp' & Hw).
  exists s', n', p'. split; [exact Ht|]. split; [exact Hp' | exact Hw].
Defined.

(** X18. A quarantined particle with no transit pending stands still: as
    long as it is not due for release (quarantine mode on and recovered or
    dead), a tick changes neither its position, its velocity, its region,
    its quarantined flag nor its two transit animations.  (The bookkeeping
    fields [timeSinceInfected] and [quarantineEligible] may still be
    written.) *)
Theorem confined_is_still (host : Host) (cfg : Config) (s s' : Sim)
    (n n' : N) (i : nat) (p : Particle) :
  tick host cfg s n = Some (s', n') →
  particles s !! i = Some p →
  quarantined p = true → quarantineEntryAnim p = None → goingHomeAnim p = None →
  quarantineMode cfg = false ∨ (status p ≠ recovered ∧ status p ≠ dead) →
  ∃ p', particles s' !! i = Some p'
        ∧ position p' = position p
        ∧ currentCommunity p' = currentCommunity p
        ∧ qstate p' = qstate p.
Proof.
  intros Ht Hp Hq He Hg Hcase.
  destruct (tick_steps_lookup host _ _ _ _ _ _ _ Ht Hp)
    as (p' & Hp' & p1 & p2 & (n1 & n2 & Hm) & Hsteps & ->).
  exists (incubate cfg p2). split; [exact Hp'|].
  destruct (moveParticle_still host _ _ _ _ _ Hm Hq He Hg Hcase)
    as (Hpos & Hreg & Hqs).
  apply infSteps_sameBody in Hsteps.
  rewrite incubate_position, incubate_qstate.
  rewrite (sameBody_position _ _ Hsteps), (sameBody_qstate _ _ Hsteps).
  split; [exact Hpos|]. split; [|exact Hqs].
  rewrite <- Hreg, <- (sameBody_region _ _ Hsteps).
  pose proof (incubate_place cfg p2) as Hpl. unfold place in Hpl. congruence.
Qed.

Lemma confined_is_still_witness :
  ∃ s' n' p',
    tick halfHost quarantineConfig confinedState 0%N = Some (s', n')
    ∧ particles s' !! 0%nat = Some p'
    ∧ position p' = position confinedParticle.
Proof.
  destruct (tick_total halfHost quarantineConfig confinedState 0%N
              halfHost_unitDraws confinedState_registered) as (s' & n' & Ht & _).
  destruct (confined_is_still halfHost quarantineConfig confinedState s' 0%N n'
              0%nat confinedParticle Ht eq_refl eq_refl eq_refl eq_refl)
    as (p' & Hp' & Hpos & _).
  - right. split; discriminate.
  - exists s', n', p'. split; [exact Ht|]. split; [exact Hp' | exact Hpos].
Defined.

(** X19. Incubation runs by the clock alone: whatever its region, its
    movement or its neighbours, an exposed particle has its timer advanced
    by one in every tick, and turns infected, with timer 0 and no outcome
    drawn, exactly when the advanced timer exceeds the incubation period. *)
Theorem incubation_by_the_clock (host : Host) (cfg : Config) (s s' : Sim)
    (n n' : N) (i : nat) (p : Particle) :
  tick host cfg s n = Some (s', n') →
  particles s !! i = Some p → status p = exposed →
  ∃ p', particles s' !! i = Some p'
        ∧ ((status p' = exposed ∧ timeInfected p' = (timeInfected p + 1)%Z
            ∧ ofZ (timeInfected p + 1) <= incubationPeriod cfg)
           ∨ (status p' = infected ∧ timeInfected p' = 0%Z ∧ willDie p' = None
              ∧ incubationPeriod cfg < ofZ (timeInfected p + 1))).
Proof.
  intros Ht Hp Hst.
  destruct (tick_steps_lookup host _ _ _ _ _ _ _ Ht Hp)
    as (p' & Hp' & p1 & p2 & (n1 & n2 & Hm) & Hsteps & ->).
  exists (incubate cfg p2). split; [exact Hp'|].
  apply moveParticle_health in Hm. unfold health in Hm.
  assert (status p1 = exposed) as Hs1 by congruence.
  assert (timeInfected p1 = timeInfected p) as Ht1 by congruence. clear Hm.
  apply infSteps_stuck in Hsteps as ->; [|congruence..].
  destruct (incubate_cases cfg p1)
    as [(? & _)|[(_ & He & Hti & _ & Hle)|(_ & Hi & Hti & Hw & Hlt)]]; [done| |].
  - left. rewrite <- Ht1. done.
  - right. rewrite <- Ht1. done.
Qed.

Lemma incubation_by_the_clock_witness :
  ∃ s' n' p',
    tick zeroHost defaultConfig doomedState 0%N = Some (s', n')
    ∧ particles s' !! 1%nat = Some p'
    ∧ (status p' = exposed ∨ status p' = infected).
Proof.
  destruct (tick_total zeroHost defaultConfig doomedState 0%N zeroHost_unitDraws
              doomedState_registered) as (s' & n' & Ht & _).
  destruct (incubation_by_the_clock zeroHost defaultConfig doomedState s' 0%N n'
              1%nat _ Ht eq_refl eq_refl) as (p' & Hp' & [(H & _)|(H & _)]).
  - exists s', n', p'. split; [exact Ht|]. split; [exact Hp'|]. by left.
  - exists s', n', p'. split; [exact Ht|]. split; [exact Hp'|]. by right.
Defined.

(** ** Geometry of the motion rules *)

Lemma Qc_unfold_lt (a b : Qc) : Qcltb a b = true → (this a < this b)%Q.
Proof. intros H. by apply Qcltb_lt in H. Qed.

Lemma Qc_unfold_ge (a b : Qc) : Qcltb a b = false → (this b <= this a)%Q.
Proof. intros H. by apply Qcltb_ge in H. Qed.

(** Turn comparisons of the embedding into facts about rationals. *)
Ltac to_Q :=
  repeat match goal with
         | H : Qcltb _ _ = true |- _ => apply Qc_unfold_lt in H
         | H : Qcltb _ _ = false |- _ => apply Qc_unfold_ge in H
         end;
  unfold Qcle, Qclt in *;
  repeat (rewrite ?this_plus, ?this_minus in *).

Lemma bounds_span idx b :
  getCommunityBounds idx = Some b →
  (this (minX b) + 193 < this (maxX b))%Q ∧ (this (minY b) + 193 < this (maxY b))%Q.
Proof.
  intros H. apply bounds_size in H as [-> ->].
  rewrite COMMUNITY_WIDTH_val, COMMUNITY_HEIGHT_val. rewrite !this_plus.
  change (this (Q2Qc (640 # 3))) with (640 # 3)%Q.
  change (this (Q2Qc (580 # 3))) with (580 # 3)%Q. split; lra.
Qed.

(** X20. The coarse bounce puts a particle back between the edges of its
    region: whatever its position before, after [bounce] it lies inside the
    rectangle. *)
Theorem bounce_inside (idx : Z) (b : Bounds) (p : Particle) :
  getCommunityBounds idx = Some b →
  minX b <= x (bounce b p) ∧ x (bounce b p) <= maxX b
  ∧ minY b <= y (bounce b p) ∧ y (bounce b p) <= maxY b.
Proof.
  intros Hb. destruct (bounds_span _ _ Hb) as [Hw Hh].
  unfold bounce. cbv zeta.
  repeat (case_match; psimpl); to_Q;
    change (this (Q2Qc 1.2)) with (6 # 5)%Q; repeat split; lra.
Qed.

Lemma bounce_inside_witness :
  ∃ b, getCommunityBounds 0 = Some b
       ∧ minX b <= x (bounce b (at_ 10 900 blank))
       ∧ x (bounce b (at_ 10 900 blank)) <= maxX b
       ∧ minY b <= y (bounce b (at_ 10 900 blank))
       ∧ y (bounce b (at_ 10 900 blank)) <= maxY b.
Proof.
  destruct (getCommunityBounds_total 0) as [b Hb]; [lia|].
  exists b. split; [exact Hb|].
  exact (bounce_inside 0 b (at_ 10 900 blank) Hb).
Defined.

(** X21. A Brownian step ends at least one unit inside the region: the
    edge correction that follows the step leaves the particle within
    [minX + 1, maxX - 1] and [minY + 1, maxY - 1], whatever its velocity
    and the two draws were. *)
Theorem brownian_stays_inside (host : Host) (idx : Z) (b : Bounds) (p p' : Particle)
    (n n' : N) :
  getCommunityBounds idx = Some b →
  brownian host b p n = Some (p', n') →
  minX b + 1 <= x p' ∧ x p' <= maxX b - 1
  ∧ minY b + 1 <= y p' ∧ y p' <= maxY b - 1.
Proof.
  intros Hb H. destruct (bounds_span _ _ Hb) as [Hw Hh].
  unfold brownian in H. unfold_M. cbv zeta in H. psimpl. injection H as <- _.
  repeat (case_match; psimpl); to_Q;
    change (this (Q2Qc 1.1)) with (11 # 10)%Q; change (this 1) with 1%Q in *;
    repeat split; lra.
Qed.

Lemma brownian_stays_inside_witness :
  ∃ b p' n',
    getCommunityBounds 0 = Some b
    ∧ brownian halfHost b (at_ 10 900 blank) 0%N = Some (p', n')
    ∧ minX b + 1 <= x p' ∧ x p' <= maxX b - 1
    ∧ minY b + 1 <= y p' ∧ y p' <= maxY b - 1.
Proof.
  destruct (getCommunityBounds_total 0) as [b Hb]; [lia|].
  destruct (brownian_total halfHost b (at_ 10 900 blank) 0%N)
    as (p' & n' & H & _); [apply blank_registered with (st := healthy)|].
  exists b, p', n'. split; [exact Hb|]. split; [exact H|].
  exact (brownian_stays_inside halfHost 0 b (at_ 10 900 blank) p' 0%N n' Hb H).
Defined.

(** X22. A particle that leaves the centre of its region is put down at
    least five units inside the region. *)
Theorem centre_exit_inside (host : Host) (idx : Z) (b : Bounds) (p p' : Particle)
    (n n' : N) :
  getCommunityBounds idx = Some b →
  centreMotion host b p n = Some (p', n') →
  atCentre p = true → atCentre p' = false →
  minX b + Q2Qc 5 <= x p' ∧ x p' <= maxX b - Q2Qc 5
  ∧ minY b + Q2Qc 5 <= y p' ∧ y p' <= maxY b - Q2Qc 5.
Proof.
  intros Hb H Hin Hout. destruct (bounds_span _ _ Hb) as [Hw Hh].
  unfold centreMotion in H. unfold_M. cbv zeta in H. psimpl.
  destruct (_ <=? _)%Z; injection H as <- _; [|cbn in Hout; congruence].
  psimpl.
  unfold Qcmin, Qcmax.
  repeat (case_match; psimpl); to_Q;
    change (this (Q2Qc 5)) with 5%Q in *; repeat split; lra.
Qed.

Lemma centre_exit_inside_witness :
  ∃ b p' n',
    getCommunityBounds 0 = Some b
    ∧ centreMotion halfHost b (set_atCentre true (at_ 10 900 blank)) 0%N
      = Some (p', n')
    ∧ minX b + Q2Qc 5 <= x p' ∧ x p' <= maxX b - Q2Qc 5
    ∧ minY b + Q2Qc 5 <= y p' ∧ y p' <= maxY b - Q2Qc 5.
Proof.
  destruct (getCommunityBounds_total 0) as [b Hb]; [lia|].
  assert (∃ q m, centreMotion halfHost b (set_atCentre true (at_ 10 900 blank))
                   0%N = Some (q, m) ∧ atCentre q = false) as (p' & n' & H & Hout).
  { unfold centreMotion. unfold_M. cbv zeta. psimpl.
    change (centreTimeLeft blank - 1 <=? 0)%Z with true. cbv iota.
    eexists _, _. split; reflexivity. }
  exists b, p', n'. split; [exact Hb|]. split; [exact H|].
  exact (centre_exit_inside halfHost 0 b (set_atCentre true (at_ 10 900 blank))
           p' 0%N n' Hb H eq_refl Hout).
Defined.


(** X23. A spontaneous trip never targets the home region or the
    quarantine region: [randomTravel] either leaves the particle as it is,
    or sends a wandering particle registered outside quarantine on an
    outbound trip to a normal region other than its home, without moving
    it yet. *)
Theorem trip_destination (host : Host) (p p' : Particle) (n n' : N) :
  randomTravel host p n = Some (p', n') →
  p' = p
  ∨ (isTravelling p' = true ∧ travellingBack p' = false
     ∧ (0 ≤ currentCommunity p' ≤ 7)%Z
     ∧ currentCommunity p' ≠ homeCommunity p'
     ∧ currentCommunity p ≠ QUARANTINE_COMMUNITY_IDX
     ∧ isVisiting p = false ∧ isTravelling p = false
     ∧ position p' = position p).
Proof.
  unfold randomTravel. intros H. unfold_M. cbv zeta in H.
  repeat (case_match; simplify_eq); auto.
  right. psimpl.
  match goal with
  | H : available _ !! _ = Some _ |- _ =>
      apply list_elem_of_lookup_2 in H; rename H into Hav
  end.
  pose proof (available_normal _ _ Hav) as Hnormal.
  unfold available in Hav. apply list_elem_of_filter in Hav as [Hne _].
  repeat match goal with
         | H : _ && _ = true |- _ => apply andb_true_iff in H as [? ?]
         | H : negb _ = true |- _ => apply negb_true_iff in H
         end.
  split; [done|]. split; [done|]. split; [lia|]. split; [done|].
  split; [by apply Z.eqb_neq | done].
Qed.

Lemma trip_destination_witness :
  ∃ p' n',
    randomTravel zeroHost blank 0%N = Some (p', n')
    ∧ (p' = blank
       ∨ (isTravelling p' = true ∧ travellingBack p' = false
          ∧ (0 ≤ currentCommunity p' ≤ 7)%Z
          ∧ currentCommunity p' ≠ homeCommunity p'
          ∧ currentCommunity blank ≠ QUARANTINE_COMMUNITY_IDX
          ∧ isVisiting blank = false ∧ isTravelling blank = false
          ∧ position p' = position blank)).
Proof.
  destruct (randomTravel_total zeroHost blank 0%N zeroHost_unitDraws)
    as (p' & n' & H & _).
  - unfold registered. simpl. lia.
  - exists p', n'. split; [exact H|].
    exact (trip_destination zeroHost blank p' 0%N n' H).
Defined.

(** X24. The target drawn for the flight to quarantine lies inside the
    quarantine rectangle, at least twenty units from its edges, when the
    draws lie in [0, 1); [startQuarantineEntry] makes two draws, stops the
    particle and does not move it. *)
Theorem quarantine_entry_target (host : Host) (p : Particle) (n : N) :
  unitDraws host →
  ∃ p' a b,
    startQuarantineEntry host p n = Some (p', (n + 2)%N)
    ∧ quarantineEntryAnim p' = Some a ∧ e_animating a = true
    ∧ getCommunityBounds QUARANTINE_COMMUNITY_IDX = Some b
    ∧ minX b + Q2Qc 20 <= tx a ∧ tx a <= maxX b - Q2Qc 20
    ∧ minY b + Q2Qc 20 <= ty a ∧ ty a <= maxY b - Q2Qc 20
    ∧ position p' = (x p, y p, 0, 0).
Proof.
  intros Hu.
  destruct (getCommunityBounds_total QUARANTINE_COMMUNITY_IDX) as [b Hb]; [done|].
  destruct (bounds_span _ _ Hb) as [Hw Hh].
  unfold startQuarantineEntry. rewrite bind_eq, Hb. simpl liftOpt. unfold_M.
  eexists _, _, b. split; [f_equal; f_equal; lia|]. psimpl.
  split; [reflexivity|]. split; [reflexivity|]. split; [reflexivity|]. cbn [tx ty].
  destruct (Hu n) as [? ?]. destruct (Hu (N.succ n)) as [? ?].
  destruct (scale_in_range (Math_random host n)
              (minX b + Q2Qc 20) (maxX b - Q2Qc 20)) as [? ?]; [done..| |].
  { to_Q. change (this (Q2Qc 20)) with 20%Q. lra. }
  destruct (scale_in_range (Math_random host (N.succ n))
              (minY b + Q2Qc 20) (maxY b - Q2Qc 20)) as [? ?]; [done..| |].
  { to_Q. change (this (Q2Qc 20)) with 20%Q. lra. }
  repeat split; try done; by apply Qclt_le_weak.
Qed.

Lemma quarantine_entry_target_witness :
  ∃ p' a b,
    startQuarantineEntry halfHost blank 0%N = Some (p', 2%N)
    ∧ quarantineEntryAnim p' = Some a ∧ e_animating a = true
    ∧ getCommunityBounds QUARANTINE_COMMUNITY_IDX = Some b
    ∧ minX b + Q2Qc 20 <= tx a ∧ tx a <= maxX b - Q2Qc 20
    ∧ minY b + Q2Qc 20 <= ty a ∧ ty a <= maxY b - Q2Qc 20
    ∧ position p' = (x blank, y blank, 0, 0).
Proof. exact (quarantine_entry_target halfHost blank 0%N halfHost_unitDraws). Defined.

(** One tick on [pairState] with every draw 0: the healthy neighbour is
    exposed and the event is logged. *)
Lemma tick_event_log_witness :
  ∃ s' n' new,
    tick zeroHost defaultConfig pairState 0%N = Some (s', n')
    ∧ timeRef s' = 8%Z
    ∧ infectionEvents s' = new
    ∧ Forall (λ e, time e = timeRef s' ∧ (infectorIndex e < 2)%nat) new
    ∧ (census isHealthy (particles s') + length new = 1)%nat.
Proof.
  destruct (tick_total zeroHost defaultConfig pairState 0%N zeroHost_unitDraws
              pairState_registered) as (s' & n' & Ht & _).
  destruct (tick_event_log zeroHost defaultConfig pairState s' 0%N n' Ht)
    as (Htime & new & He & HF & Hc).
  exists s', n', new. split; [exact Ht|]. split; [exact Htime|].
  split; [exact He|]. split; [exact HF | exact Hc].
Defined.

Lemma exposures_are_logged_witness :
  ∃ s' n',
    tick zeroHost defaultConfig pairState 0%N = Some (s', n')
    ∧ (census isHealthy (particles s') + length (infectionEvents s') = 1)%nat.
Proof.
  destruct (tick_total zeroHost defaultConfig pairState 0%N zeroHost_unitDraws
              pairState_registered) as (s' & n' & Ht & _).
  exists s', n'. split; [exact Ht|].
  apply (exposures_are_logged zeroHost pairState s' 0%N n').
  eapply ticks_step; [exact Ht | apply ticks_refl].
Defined.

(** ** The flight to quarantine *)

Ltac split_tests :=
  repeat match goal with
         | H : _ && _ = true |- _ => apply andb_true_iff in H as [? ?]
         | H : negb _ = true |- _ => apply negb_true_iff in H
         | H : (_ =? _)%Z = false |- _ => apply Z.eqb_neq in H
         end.

Section Entry.

Context (host : Host).

Lemma quarantineLogic_keeps_entry cfg p n p1 n1 a :
  quarantineLogic host cfg p n = Some (p1, n1) →
  quarantineEntryAnim p = Some a →
  quarantineEntryAnim p1 = Some a ∧ x p1 = x p ∧ y p1 = y p.
Proof.
  unfold quarantineLogic, startQuarantineEntry, isNone. intros H Ha.
  destruct p. cbn in Ha. subst. crunch.
Qed.

Lemma quarantineLogic_starts_entry cfg p n p1 n1 :
  quarantineLogic host cfg p n = Some (p1, n1) →
  quarantineEntryAnim p = None →
  quarantineEntryAnim p1 = None
  ∨ ∃ a, quarantineEntryAnim p1 = Some a ∧ e_animating a = true
         ∧ quarantined p1 = false
         ∧ currentCommunity p1 ≠ QUARANTINE_COMMUNITY_IDX.
Proof.
  unfold quarantineLogic, startQuarantineEntry, isNone. intros H Ha.
  destruct p. cbn in Ha. subst. unfold_M. cbv zeta in H.
  repeat (case_match; simplify_eq); psimpl; auto;
    right; eexists; (split; [reflexivity|]); split_tests; cbn in *; auto.
Qed.

Lemma animateEntry_cases a p :
  quarantineEntryAnim p = Some a →
  (quarantineEntryAnim (animateEntry host a p) = Some a
   ∧ place (animateEntry host a p) = place p)
  ∨ (quarantineEntryAnim (animateEntry host a p) = None
     ∧ quarantined (animateEntry host a p) = true
     ∧ currentCommunity (animateEntry host a p) = QUARANTINE_COMMUNITY_IDX
     ∧ x (animateEntry host a p) = tx a ∧ y (animateEntry host a p) = ty a).
Proof.
  intros Ha. unfold animateEntry. cbv zeta.
  destruct (Qcltb _ _); psimpl; [right | left]; done.
Qed.

Lemma animateGoingHome_entry a p n p' n' :
  animateGoingHome host a p n = Some (p', n') →
  quarantineEntryAnim p' = quarantineEntryAnim p.
Proof. unfold animateGoingHome. intros H. crunch. Qed.

(** A particle in flight either continues, keeping its region and its
    flag, or arrives at its target inside the quarantine region. *)
Lemma moveParticle_pending cfg p n p' n' a :
  moveParticle host cfg p n = Some (p', n') →
  quarantineEntryAnim p = Some a → e_animating a = true →
  (quarantineEntryAnim p' = Some a ∧ place p' = place p)
  ∨ (quarantineEntryAnim p' = None ∧ quarantined p' = true
     ∧ currentCommunity p' = QUARANTINE_COMMUNITY_IDX
     ∧ x p' = tx a ∧ y p' = ty a).
Proof.
  unfold moveParticle. intros H Ha Hrun.
  apply bind_Some in H as (p1 & n1 & H1 & H).
  pose proof (quarantineLogic_place host _ _ _ _ _ H1) as Hpl.
  destruct (quarantineLogic_keeps_entry _ _ _ _ _ _ H1 Ha) as (Ha1 & _).
  unfold entryAnimating in H. rewrite Ha1, Hrun in H.
  apply ret_Some in H as [<- _].
  destruct (animateEntry_cases a p1 Ha1) as [[? Hp]|?]; [left | by right].
  split; [done | congruence].
Qed.

Lemma moveParticle_enRoute cfg p n p' n' :
  moveParticle host cfg p n = Some (p', n') → enRoute p → enRoute p'.
Proof.
  intros H Hp a' Ha'.
  destruct (quarantineEntryAnim p) as [a|] eqn:Ha.
  - destruct (Hp a Ha) as (Hrun & Hq & Hc).
    destruct (moveParticle_pending _ _ _ _ _ _ H Ha Hrun)
      as [[Hsame Hpl]|[Hnone _]]; [|congruence].
    assert (a' = a) as -> by congruence.
    unfold place in Hpl. injection Hpl as Hq' Hc' _.
    split; [done|]. split; congruence.
  - unfold moveParticle in H.
    apply bind_Some in H as (p1 & n1 & H1 & H).
    destruct (quarantineLogic_starts_entry _ _ _ _ _ H1 Ha)
      as [Hnone|(a1 & Ha1 & Hrun & Hq & Hc)].
    + exfalso. unfold entryAnimating in H. rewrite Hnone in H.
      destruct (homeAnimating p1) as [h|].
      { apply animateGoingHome_entry in H. congruence. }
      destruct (quarantined p1).
      { apply ret_Some in H as [<- _]. congruence. }
      apply normalBehaviour_qstate in H. unfold qstate in H. congruence.
    + unfold entryAnimating in H. rewrite Ha1, Hrun in H.
      apply ret_Some in H as [<- _].
      destruct (animateEntry_cases a1 p1 Ha1) as [[Hsame Hpl]|[Hnone _]];
        [|congruence].
      assert (a' = a1) as -> by congruence.
      unfold place in Hpl. injection Hpl as Hq' Hc' _.
      split; [done|]. split; congruence.
Qed.

Lemma tickSteps_enRoute cfg p p' :
  tickSteps host cfg p p' → enRoute p → enRoute p'.
Proof.
  intros (p1 & p2 & (n1 & n2 & Hm) & Hsteps & ->) Hp.
  apply (moveParticle_enRoute _ _ _ _ _ Hm) in Hp.
  apply infSteps_sameBody in Hsteps.
  pose proof (sameBody_qstate _ _ Hsteps) as Hq2.
  pose proof (sameBody_region _ _ Hsteps) as Hc2.
  pose proof (incubate_qstate cfg p2) as Hq3.
  pose proof (incubate_place cfg p2) as Hc3.
  unfold qstate in Hq2, Hq3. unfold place in Hc3.
  intros a Ha. destruct (Hp a) as (? & ? & ?); [congruence|].
  split; [done|]. split; congruence.
Qed.

Lemma reachable_enRoute s n :
  reachable host s n → Forall enRoute (particles s).
Proof.
  induction 1 as [k n n' ps Hinit|cfg s s' n n' _ IH Htick].
  - simpl. destruct (initialState_run host PARTICLE_COUNT k n) as (ps' & Hps & HF).
    rewrite Hps in Hinit. injection Hinit as <- _.
    apply Forall_forall. intros p Hp.
    apply list_elem_of_lookup in Hp as [i Hp].
    destruct (Forall2_lookup_r _ _ _ _ _ HF Hp)
      as (j & _ & (_ & _ & _ & (_ & Hnone & _) & _) & _).
    intros a Ha. congruence.
  - apply Forall_forall. intros p' Hp'.
    apply list_elem_of_lookup in Hp' as [j Hp'].
    pose proof (tick_steps host _ _ _ _ _ Htick) as HF.
    destruct (Forall2_lookup_r _ _ _ _ _ HF Hp') as (p & Hp & Hsteps).
    eapply tickSteps_enRoute; [exact Hsteps|].
    eapply Forall_lookup_1; eauto.
Qed.

(** One tick of a particle in flight. *)
Lemma tickSteps_pending cfg p p' a :
  tickSteps host cfg p p' →
  quarantineEntryAnim p = Some a → e_animating a = true →
  (quarantineEntryAnim p' = Some a
   ∧ currentCommunity p' = currentCommunity p
   ∧ quarantined p' = quarantined p)
  ∨ (quarantineEntryAnim p' = None ∧ quarantined p' = true
     ∧ currentCommunity p' = QUARANTINE_COMMUNITY_IDX
     ∧ x p' = tx a ∧ y p' = ty a).
Proof.
  intros (p1 & p2 & (n1 & n2 & Hm) & Hsteps & ->) Ha Hrun.
  apply infSteps_sameBody in Hsteps.
  pose proof (sameBody_qstate _ _ Hsteps) as Hq2.
  pose proof (sameBody_region _ _ Hsteps) as Hc2.
  pose proof (sameBody_position _ _ Hsteps) as Hx2.
  pose proof (incubate_qstate cfg p2) as Hq3.
  pose proof (incubate_place cfg p2) as Hc3.
  pose proof (incubate_position cfg p2) as Hx3.
  unfold qstate in Hq2, Hq3. unfold place in Hc3. unfold position in Hx2, Hx3.
  destruct (moveParticle_pending _ _ _ _ _ _ Hm Ha Hrun)
    as [[Hsame Hpl]|(Hnone & Hq & Hc & Hx & Hy)].
  - left. unfold place in Hpl. repeat split; congruence.
  - right. repeat split; congruence.
Qed.

End Entry.

(** C3 (as amended).  In every reachable state a particle is registered in
    the quarantine region exactly while its quarantined flag is set, so the
    number of particles of region 8 equals the number of flagged particles.
    A particle still flying to quarantine (pending entry animation) is
    neither flagged nor registered in region 8, so it is not counted; over
    a tick it either stays in flight, keeping its region of origin, or
    arrives at its target, flagged and registered in region 8. *)
Theorem quarantine_region_census (host : Host) (s : Sim) (n : N) :
  reachable host s n →
  census inQuarantineRegion (particles s) = census quarantined (particles s)
  ∧ Forall (λ p, inQuarantineRegion p = quarantined p) (particles s)
  ∧ ∀ i p a, particles s !! i = Some p → quarantineEntryAnim p = Some a →
      e_animating a = true
      ∧ quarantined p = false ∧ inQuarantineRegion p = false
      ∧ ∀ cfg s' n', tick host cfg s n = Some (s', n') →
          ∃ p', particles s' !! i = Some p'
                ∧ ((quarantineEntryAnim p' = Some a
                    ∧ currentCommunity p' = currentCommunity p
                    ∧ quarantined p' = false)
                   ∨ (quarantineEntryAnim p' = None
                      ∧ quarantined p' = true
                      ∧ currentCommunity p' = QUARANTINE_COMMUNITY_IDX
                      ∧ x p' = tx a ∧ y p' = ty a)).
Proof.
  intros Hr.
  pose proof (reachable_enRoute host s n Hr) as Hen.
  apply reachable_invariant in Hr as [_ Hpl].
  assert (Forall (λ p, inQuarantineRegion p = quarantined p) (particles s)) as HF.
  { eapply Forall_impl; [exact Hpl|]. intros p [Hp _]. by symmetry. }
  split; [by apply census_ext|]. split; [exact HF|].
  intros i p a Hp Ha.
  destruct (Forall_lookup_1 _ _ _ _ Hen Hp a Ha) as (Hrun & Hq & Hc).
  split; [exact Hrun|]. split; [exact Hq|]. split.
  { unfold inQuarantineRegion. by apply Z.eqb_neq. }
  intros cfg s' n' Ht.
  destruct (tick_steps_lookup host _ _ _ _ _ _ _ Ht Hp) as (p' & Hp' & Hsteps).
  exists p'. split; [exact Hp'|].
  destruct (tickSteps_pending host _ _ _ _ Hsteps Ha Hrun)
    as [(? & ? & ?)|?]; [left | by right].
  split; [done|]. split; congruence.
Qed.

(** The census five ticks after a restart: particle 0 is flying to
    quarantine; it is neither flagged nor registered in region 8, and nobody
    is counted on either side. *)
Lemma quarantine_region_census_witness :
  ∃ s n p a,
    reachable halfHost s n
    ∧ census inQuarantineRegion (particles s) = census quarantined (particles s)
    ∧ census inQuarantineRegion (particles s) = 0%nat
    ∧ census quarantineStatus (particles s) = 1%nat
    ∧ particles s !! 0%nat = Some p ∧ quarantineEntryAnim p = Some a
    ∧ e_animating a = true
    ∧ quarantined p = false ∧ inQuarantineRegion p = false.
Proof.
  pose proof transit_run as Hcheck.
  pose proof flight_run as Hflight.
  destruct (run halfHost quarantineConfig 5) as [[s n]|] eqn:Hrun; [|done].
  pose proof (run_reachable _ _ _ _ _ Hrun) as Hr.
  unfold transitRunCheck in Hcheck. unfold flightRunCheck in Hflight.
  apply andb_true_iff in Hcheck as [H0 H1]. apply Nat.eqb_eq in H0, H1.
  destruct (particles s !! 0%nat) as [p|] eqn:Hp; [|done].
  destruct (quarantineEntryAnim p) as [a|] eqn:Ha; [|done].
  destruct (quarantine_region_census halfHost s n Hr) as (Hcensus & _ & Hpending).
  destruct (Hpending 0%nat p a Hp Ha) as (Hgo & Hq & Hreg & _).
  exists s, n, p, a. repeat split; assumption.
Defined.
